(** * StenoWAV: the spectral embedding pipeline of POC.py

    A shallow embedding of [compress], [apply_randomness], [apply_data],
    [process_fft] and [overlap_add_process], and of [main] between the
    reading and the writing of the audio file.

    Conventions of the model.
    - Python integers are [Z]; lengths of sequences are [nat] and are
      injected with [len].
    - A Python [str] is the list of its code points.
    - The floats built by [compress] are kept at the level of their
      IEEE-754 fields ([spec_float]); their exact value is a rational.
    - A float64 or float32 number is the rational it denotes.  Every
      floating-point operation returns the exact result rounded to the
      nearest number of its format, ties to even ([round64], [round32]);
      the exponent range is unbounded, so overflow and underflow are not
      modelled.  A division of arrays can also yield an infinity or NaN
      ([xq]).  Python's conversion of an integer to a float is exact
      below [2^53]; the model takes it as exact.  The floor division
      [len(fft_data) // k_factor] is the floor of the exact quotient.
    - The process-wide generator [rd] is an explicit state: a tape of raw
      draws and a cursor.
    - Exceptions are values: a computation either raises or returns. *)

From Stdlib Require Import ZArith QArith Qround Qpower Qabs Lia Lqa Bool.
From Stdlib Require Import SpecFloat.
From stdpp Require Import base list.

Local Open Scope Z_scope.

(** ** Exceptions and the state-and-error monad *)

Inductive exn : Set :=
| IndexError
| ValueError
| ZeroDivisionError
| StructError.

Inductive outcome (A : Type) : Type :=
| Raise (e : exn)
| Return (a : A).
Arguments Raise {A} e.
Arguments Return {A} a.

(** The state of the random module: [tape] is the stream of raw draws the
    generator will deliver, [cursor] the number already consumed. *)
Record rng : Type := mkRng { tape : nat -> Z; cursor : nat }.

Definition advance (n : nat) (g : rng) : rng :=
  mkRng (tape g) (cursor g + n).

Definition M (A : Type) : Type := rng -> outcome (A * rng).

Definition ret {A} (a : A) : M A := fun g => Return (a, g).

Definition bind {A B} (c : M A) (k : A -> M B) : M B :=
  fun g => match c g with
           | Raise e => Raise e
           | Return (a, g') => k a g'
           end.

Definition lift {A} (o : outcome A) : M A :=
  fun g => match o with
           | Raise e => Raise e
           | Return a => Return (a, g)
           end.

Notation "x <- c ;; k" := (bind c (fun x => k))
  (at level 100, c at next level, right associativity).

(** [for x in xs: s = body x s] *)
Fixpoint for_ {A S} (xs : list A) (body : A -> S -> M S) (s : S) : M S :=
  match xs with
  | [] => ret s
  | x :: xs' => s' <- body x s ;; for_ xs' body s'
  end.

(** ** Python built-ins *)

Definition len {A} (l : list A) : Z := Z.of_nat (length l).

(** [range(start, stop, step)] for a positive step; empty otherwise. *)
Definition range3 (start stop step : Z) : list Z :=
  if 0 <? step
  then map (fun j => start + Z.of_nat j * step)
           (seq 0 (Z.to_nat ((stop - start + step - 1) / step)))
  else [].

(** [range(stop)] *)
Definition range1 (stop : Z) : list Z := range3 0 stop 1.

(** Bounds of a slice [l[lo:hi]]: negative bounds count from the end and
    every bound is clipped to the sequence. *)
Definition clip (n i : Z) : Z :=
  if i <? 0 then Z.max 0 (i + n) else Z.min i n.

Definition slice {A} (l : list A) (lo hi : Z) : list A :=
  let a := clip (len l) lo in
  let b := clip (len l) hi in
  take (Z.to_nat (b - a)) (drop (Z.to_nat a) l).

(** [s.ljust(width, fill)] *)
Definition ljust {A} (width : nat) (fill : A) (s : list A) : list A :=
  s ++ replicate (width - length s) fill.

(** [ord(chars[i])]: indexing past the end of the string raises. *)
Definition ord (chars : list Z) (i : nat) : outcome Z :=
  match chars !! i with
  | Some c => Return c
  | None => Raise IndexError
  end.

(** [int(x)]: truncation toward zero. *)
Definition py_int (x : Q) : Z :=
  if Qle_bool 0 x then Qfloor x else Qceiling x.

(** [int(n // k)] for a float [k]: floor division, which raises on zero. *)
Definition floordiv_int (n : Z) (k : Q) : outcome Z :=
  if Qeq_bool k 0 then Raise ZeroDivisionError
  else Return (Qfloor (inject_Z n / k)).

(** ** Floating-point arithmetic *)

(** [floor(log2 x)] for a positive [x]. *)
Definition ilog2 (x : Q) : Z :=
  let l := Z.log2 (Qnum x) - Z.log2 (Z.pos (Qden x)) in
  if Qle_bool (Qpower 2 l) x then l else l - 1.

(** Rounding to the nearest integer, ties to even. *)
Definition rne (x : Q) : Z :=
  let f := Qfloor x in
  match Qcompare (x - inject_Z f) (1 # 2) with
  | Lt => f
  | Gt => f + 1
  | Eq => if Z.even f then f else f + 1
  end.

(** A positive [x] rounded to [prec] significant bits: [e] is the exponent
    of the unit in the last place. *)
Definition round_pos (prec : Z) (x : Q) : Q :=
  let e := ilog2 x - (prec - 1) in
  (inject_Z (rne (x / Qpower 2 e)) * Qpower 2 e)%Q.

Definition round_to (prec : Z) (x : Q) : Q :=
  match Qnum x with
  | Z0 => 0%Q
  | Zpos _ => round_pos prec x
  | Zneg _ => (- round_pos prec (- x))%Q
  end.

(** binary64 (Python [float], numpy [float64]) and binary32. *)
Definition round64 : Q -> Q := round_to 53.
Definition round32 : Q -> Q := round_to 24.

(** The float64 operations [x + y], [x - y], [x * y] and [x / y] for a
    nonzero [y]. *)
Definition fadd (x y : Q) : Q := round64 (x + y).
Definition fsub (x y : Q) : Q := round64 (x - y).
Definition fmul (x y : Q) : Q := round64 (x * y).
Definition fdiv (x y : Q) : Q := round64 (x / y).

(** The result of a numpy division: a number, an infinity or NaN. *)
Inductive xq : Type :=
| Fin (q : Q)
| PInf
| NInf
| NaN.

(** numpy's [x / y] on float64: a zero divisor gives NaN for a zero
    dividend and an infinity otherwise. *)
Definition np_true_divide (x y : Q) : xq :=
  if Qeq_bool y 0
  then if Qeq_bool x 0 then NaN
       else if Qle_bool 0 x then PInf else NInf
  else Fin (fdiv x y).

(** ** The random module *)

Definition next_raw : M Z :=
  fun g => Return (tape g (cursor g), advance 1 g).

(** [rd.randint(a, b)]: uniform on the closed range; empty range raises. *)
Definition randint (a b : Z) : M Z :=
  if b <? a then lift (Raise ValueError)
  else r <- next_raw ;; ret (a + r mod (b - a + 1)).

(** [rd.uniform(a, b)] is [a + (b - a) * random()], and [random()] is a
    53-bit integer divided by [2^53]. *)
Definition random_unit (r : Z) : Q := Qmake (r mod 2 ^ 53) (2 ^ 53)%positive.

Definition uniform (a b : Q) : M Q :=
  r <- next_raw ;; ret (fadd a (fmul (fsub b a) (random_unit r))).

(** ** struct: binary32 bit patterns *)

(** [struct.pack('I', n)]: four bytes, least significant first. *)
Definition pack_I (n : Z) : outcome (list Z) :=
  if (0 <=? n) && (n <? 2 ^ 32)
  then Return [Z.land n 255;
               Z.land (Z.shiftr n 8) 255;
               Z.land (Z.shiftr n 16) 255;
               Z.land (Z.shiftr n 24) 255]
  else Raise StructError.

Definition word_of_bytes (b0 b1 b2 b3 : Z) : Z :=
  Z.lor (Z.lor (Z.lor b0 (Z.shiftl b1 8)) (Z.shiftl b2 16)) (Z.shiftl b3 24).

(** The binary32 number with a given bit pattern. *)
Definition float32_of_bits (w : Z) : spec_float :=
  let s := Z.testbit w 31 in
  let e := Z.land (Z.shiftr w 23) 255 in
  let m := Z.land w (2 ^ 23 - 1) in
  if e =? 0 then
    if m =? 0 then S754_zero s else S754_finite s (Z.to_pos m) (-149)
  else if e =? 255 then
    if m =? 0 then S754_infinity s else S754_nan
  else S754_finite s (Z.to_pos (Z.lor m (2 ^ 23))) (e - 150).

(** [struct.unpack('f', b)[0]] *)
Definition unpack_f (b : list Z) : outcome spec_float :=
  match b with
  | [b0; b1; b2; b3] => Return (float32_of_bits (word_of_bytes b0 b1 b2 b3))
  | _ => Raise StructError
  end.

(** The exact value of a finite float. Infinities and NaN have none; they
    are sent to [0] and never arise from [compress]. *)
Definition float_value (x : spec_float) : Q :=
  match x with
  | S754_finite s m e =>
      let v := (inject_Z (Z.pos m) * Qpower 2 e)%Q in
      if s then Qopp v else v
  | _ => 0%Q
  end.

Definition is_finite (x : spec_float) : bool :=
  match x with
  | S754_finite _ _ _ | S754_zero _ => true
  | _ => false
  end.

(** The binary32 bit pattern of a float, as a reader of the produced
    values recovers it (the inverse of [float32_of_bits]). *)
Definition sign_bit (s : bool) : Z := if s then 2 ^ 31 else 0.

Definition float32_bits (x : spec_float) : Z :=
  match x with
  | S754_zero s => sign_bit s
  | S754_infinity s => Z.lor (sign_bit s) (Z.shiftl 255 23)
  | S754_nan => Z.lor (Z.shiftl 255 23) (2 ^ 22)
  | S754_finite s m e =>
      if Z.pos m <? 2 ^ 23
      then Z.lor (sign_bit s) (Z.pos m)
      else Z.lor (Z.lor (sign_bit s) (Z.shiftl (e + 150) 23))
                 (Z.pos m - 2 ^ 23)
  end.

(** The two payload bytes carried in the low 16 bits of a pattern. *)
Definition carrier_bytes (x : spec_float) : list Z :=
  let w := float32_bits x in
  [Z.land (Z.shiftr w 8) 255; Z.land w 255].

(** ** compress *)

Definition compress_step (string : list Z) (i : Z) (floats : list spec_float)
  : M (list spec_float) :=
  let chars := ljust 2 0 (slice string i (i + 2)) in
  let sign := 0 in
  exponent <- randint 80 125 ;;
  random_7bits <- randint 0 127 ;;
  c0 <- lift (ord chars 0) ;;
  c1 <- lift (ord chars 1) ;;
  let char_16bits := Z.lor (Z.shiftl c0 8) c1 in
  let mantissa := Z.lor (Z.shiftl random_7bits 16) char_16bits in
  let float_bits :=
    Z.lor (Z.lor (Z.shiftl sign 31) (Z.shiftl exponent 23)) mantissa in
  packed <- lift (pack_I float_bits) ;;
  float_val <- lift (unpack_f packed) ;;
  ret (floats ++ [float_val]).

Definition compress (string : list Z) : M (list spec_float) :=
  for_ (range3 0 (len string) 2) (compress_step string) [].

(** The payload of [process_fft]: "Hello World!". *)
Definition hello_world : list Z :=
  [72; 101; 108; 108; 111; 32; 87; 111; 114; 108; 100; 33].

(** ** Spectral frames *)

(** A complex bin: real and imaginary part. *)
Definition C : Type := (Q * Q)%type.

(** [b + x] for a complex [b] and a real [x]: the real parts are added
    in float64, the imaginary part is kept. *)
Definition cadd_real (b : C) (x : Q) : C := (fadd (fst b) x, snd b).

(** numpy indexing [a[i]] on a one-dimensional array of length [n]:
    [-n <= i < 0] counts from the end, anything else outside [0, n)
    raises. *)
Definition resolve_index (n : nat) (i : Z) : outcome nat :=
  if (0 <=? i) && (i <? Z.of_nat n) then Return (Z.to_nat i)
  else if (i <? 0) && (- Z.of_nat n <=? i) then Return (Z.to_nat (i + Z.of_nat n))
  else Raise IndexError.

(** [fft_data[i] += x] *)
Definition iadd_at (fft_data : list C) (i : Z) (x : Q) : outcome (list C) :=
  match resolve_index (length fft_data) i with
  | Raise e => Raise e
  | Return j => Return (alter (fun b => cadd_real b x) j fft_data)
  end.

(** A loop whose body draws nothing from the random module. *)
Fixpoint ofor {A S} (xs : list A) (body : A -> S -> outcome S) (s : S)
  : outcome S :=
  match xs with
  | [] => Return s
  | x :: xs' =>
      match body x s with
      | Raise e => Raise e
      | Return s' => ofor xs' body s'
      end
  end.

(** [enumerate(l)], counting from [i]. *)
Fixpoint enumerate_from {A} (i : Z) (l : list A) : list (Z * A) :=
  match l with
  | [] => []
  | x :: l' => (i, x) :: enumerate_from (i + 1) l'
  end.

Definition enumerate {A} (l : list A) : list (Z * A) := enumerate_from 0 l.

(** [floats[index]] for an index already known to be in range. *)
Definition float_at (floats : list spec_float) (index : Z) : spec_float :=
  nth (Z.to_nat index) floats (S754_zero false).

(** ** apply_randomness *)

Definition randomness_step (k_factor : Q) (pre_places_positions : list Z)
    (index : Z) (fft_data : list C) : M (list C) :=
  if bool_decide (index ∈ pre_places_positions) then ret fft_data
  else
    random_value_r <- uniform (-5) 5 ;;
    lift (iadd_at fft_data (py_int (fmul (inject_Z index) k_factor) - 1)
            random_value_r).

Definition apply_randomness (fft_data : list C) (k_factor : Q)
    (pre_places_positions : list Z) : M (list C) :=
  n <- lift (floordiv_int (len fft_data) k_factor) ;;
  for_ (range1 n) (randomness_step k_factor pre_places_positions) fft_data.

(** ** apply_data *)

Definition data_step (k_factor : Q) (floats : list spec_float)
    (ip : Z * Z) (fft_data : list C) : outcome (list C) :=
  let '(index, pos) := ip in
  if index <? len floats
  then iadd_at fft_data (py_int (fmul (inject_Z pos) k_factor))
         (float_value (float_at floats index))
  else Return fft_data.

Definition apply_data (fft_data : list C) (k_factor : Q)
    (floats : list spec_float) (positions : list Z) : outcome (list C) :=
  ofor (enumerate positions) (data_step k_factor floats) fft_data.

(** ** process_fft *)

(** One turn of the loop that fills [positions]. *)
Definition select_step (fft_data : list C) (k_factor : Q)
    (index : Z) (positions : list Z) : M (list Z) :=
  n <- lift (floordiv_int (len fft_data) k_factor) ;;
  prob_position <- randint 0 n ;;
  if bool_decide (prob_position ∈ positions) then ret positions
  else ret (positions ++ [prob_position]).

(** The loop that fills [positions], for [count] synthesized floats. *)
Definition select_positions (fft_data : list C) (k_factor : Q) (count : Z)
  : M (list Z) :=
  for_ (range3 0 count 1) (select_step fft_data k_factor) [].

Definition process_fft (fft_data : list C) (k_factor : Q) : M (list C) :=
  data_compress <- compress hello_world ;;
  positions <- select_positions fft_data k_factor (len data_compress) ;;
  fft_data <- apply_randomness fft_data k_factor positions ;;
  fft_data <- lift (apply_data fft_data k_factor data_compress positions) ;;
  ret fft_data.

(** ** numpy arithmetic on one-dimensional arrays *)

(** Elementwise [f] with broadcasting of a one-element operand. *)
Definition broadcast {B} (f : Q -> Q -> B) (a b : list Q) : outcome (list B) :=
  if decide (length a = length b) then Return (zip_with f a b)
  else if decide (length a = 1%nat) then Return (map (f (hd 0%Q a)) b)
  else if decide (length b = 1%nat) then Return (map (fun x => f x (hd 0%Q b)) a)
  else Raise ValueError.

(** [target[lo:hi] += v] *)
Definition slice_iadd (target : list Q) (lo hi : Z) (v : list Q)
  : outcome (list Q) :=
  let a := Z.to_nat (clip (len target) lo) in
  let n := Z.to_nat (clip (len target) hi - clip (len target) lo) in
  let view := take n (drop a target) in
  if decide (length v = n)
  then Return (take a target ++ zip_with fadd view v ++ drop (a + n) target)
  else if decide (length v = 1%nat)
  then Return (take a target ++ map (fun x => fadd x (hd 0%Q v)) view
                 ++ drop (a + n) target)
  else Raise ValueError.

(** The float64 literal [1e-8]. *)
Definition float_1e_8 : Q := round64 (1 # 100000000).

(** [np.maximum(x, 1e-8)] on one element. *)
Definition floor_eps (x : Q) : Q :=
  if Qle_bool x float_1e_8 then float_1e_8 else x.

(** ** overlap_add_process *)

Section Engine.

(** The numpy routines the engine calls: the Hann window and the real
    transform pair. *)
Variable hanning : nat -> list Q.
Variable rfft : list Q -> outcome (list C).
Variable irfft : list C -> outcome (list Q).

Definition frame_step (audio window : list Q) (fft_size : nat)
    (k_factor : Q) (start : Z) (acc : list Q * list Q)
  : M (list Q * list Q) :=
  let '(output, norm) := acc in
  segment <- lift (broadcast fmul
                     (slice audio start (start + Z.of_nat fft_size))
                     window) ;;
  fft_data <- lift (rfft segment) ;;
  fft_data <- process_fft fft_data k_factor ;;
  processed <- lift (irfft fft_data) ;;
  weighted <- lift (broadcast fmul processed window) ;;
  output <- lift (slice_iadd output start (start + Z.of_nat fft_size)
                    weighted) ;;
  norm <- lift (slice_iadd norm start (start + Z.of_nat fft_size)
                  (map (fun w => fmul w w) window)) ;;
  ret (output, norm).

Definition frame_starts (audio : list Q) (fft_size hop_size : nat)
  : list Z :=
  range3 0 (len audio - Z.of_nat fft_size) (Z.of_nat hop_size).

Definition overlap_add_process (audio : list Q) (fft_size hop_size : nat)
    (k_factor : Q) : M (list xq) :=
  let window := hanning fft_size in
  let output := replicate (length audio + fft_size) 0%Q in
  let norm := replicate (length audio + fft_size) 0%Q in
  if (hop_size =? 0)%nat then lift (Raise ValueError)
  else
    acc <- for_ (frame_starts audio fft_size hop_size)
             (frame_step audio window fft_size k_factor)
             (output, norm) ;;
    let '(output, norm) := acc in
    let norm := map floor_eps norm in
    output <- lift (broadcast np_true_divide output norm) ;;
    ret (slice output 0 (len audio)).

End Engine.

(** * Vocabulary of the properties *)

(** ** Byte strings and synthesized floats *)

Definition is_byte (c : Z) : Prop := 0 <= c < 256.

(** A byte string: every code point fits in eight bits. *)
Definition byte_string (s : list Z) : Prop := Forall is_byte s.

(** The word [compress] assembles, as a sum of its fields. *)
Definition synth_bits (exponent random_7bits c0 c1 : Z) : Z :=
  exponent * 2 ^ 23 + random_7bits * 2 ^ 16 + c0 * 2 ^ 8 + c1.

(** The float [compress] builds from an exponent field, seven random
    bits and two bytes: a normal binary32 number. *)
Definition synth_float (e r c0 c1 : Z) : spec_float :=
  S754_finite false (Z.to_pos (2 ^ 23 + r * 2 ^ 16 + c0 * 2 ^ 8 + c1)) (e - 150).

(** The raw draw the generator delivers [i] draws from now. *)
Definition draw (g : rng) (i : nat) : Z := tape g (cursor g + i).

(** What [randint(80, 125)] and [randint(0, 0x7F)] make of a raw draw. *)
Definition exponent_draw (raw : Z) : Z := 80 + raw mod (125 - 80 + 1).
Definition random_7bits_draw (raw : Z) : Z := 0 + raw mod (127 - 0 + 1).

(** The float of chunk [j] of [string] when [compress] starts in state [g]. *)
Definition chunk_float (string : list Z) (g : rng) (j : nat) : spec_float :=
  synth_float (exponent_draw (draw g (2 * j)))
              (random_7bits_draw (draw g (2 * j + 1)))
              (nth (2 * j) string 0) (nth (2 * j + 1) string 0).

(** The number of 2-character chunks of a string: the length of
    [range(0, len(string), 2)]. *)
Definition chunk_count (string : list Z) : nat :=
  Z.to_nat ((len string - 0 + 2 - 1) / 2).

(** The bytes a reader recovers from the low 16 bits of each float. *)
Definition read_carrier (floats : list spec_float) : list Z :=
  concat (map carrier_bytes floats).

(** A byte string completed to even length with a null byte. *)
Definition padded (B : list Z) : list Z :=
  if Nat.odd (length B) then B ++ [0] else B.

(** The band of magnitudes with both ends excluded. *)
Definition in_open_band (x : spec_float) : Prop :=
  (Qpower 2 (80 - 127) < Qabs (float_value x))%Q
  /\ (Qabs (float_value x) < Qpower 2 (125 - 127 + 1))%Q.

(** The band the code keeps: the lower end is included. *)
Definition in_band (x : spec_float) : Prop :=
  (Qpower 2 (80 - 127) <= Qabs (float_value x))%Q
  /\ (Qabs (float_value x) < Qpower 2 (125 - 127 + 1))%Q.

(** ** Bins and positions *)

(** The usable bin count of a frame: [int(len(fft_data) // k_factor)]. *)
Definition usable_bins (fft_data : list C) (k_factor : Q) : Z :=
  Qfloor (inject_Z (len fft_data) / k_factor).

(** The bin index [int(pos * k_factor)] of a position: the product is a
    float64 product. *)
Definition bin_of (k_factor : Q) (pos : Z) : Z :=
  py_int (fmul (inject_Z pos) k_factor).

(** What [randint(0, usable)] makes of a raw draw. *)
Definition position_draw (usable raw : Z) : Z := 0 + raw mod (usable - 0 + 1).

(** What one turn of the selection loop does with a drawn position. *)
Definition keep_new (positions : list Z) (p : Z) : list Z :=
  if bool_decide (p ∈ positions) then positions else positions ++ [p].

(** The positions drawn in a run of the selection loop that starts in
    state [g]: one draw per synthesized float. *)
Definition drawn_positions (usable : Z) (g : rng) (count : nat) : list Z :=
  map (fun i => position_draw usable (draw g i)) (seq 0 count).

(** Positions within the closed range and pairwise distinct. *)
Definition positions_ok (usable : Z) (positions : list Z) : Prop :=
  Forall (fun p => 0 <= p <= usable) positions /\ NoDup positions.

(** The value [rd.uniform(-5, 5)] makes of a raw draw. *)
Definition jitter (raw : Z) : Q :=
  fadd (-5) (fmul (fsub 5 (-5)) (random_unit raw)).

(** The addition the data phase makes for a position and its float. *)
Definition add_float (k_factor : Q) (w : Z * spec_float)
    (fft_data : list C) : outcome (list C) :=
  iadd_at fft_data (py_int (fmul (inject_Z (fst w)) k_factor))
    (float_value (snd w)).

(** Bins compared by value. *)
Definition bin_eqb (a b : C) : bool :=
  Qeq_bool (fst a) (fst b) && Qeq_bool (snd a) (snd b).

(** The number of bins whose value differs between two frames. *)
Fixpoint count_modified (before after : list C) : nat :=
  match before, after with
  | b :: before', a :: after' =>
      ((if bin_eqb b a then 0 else 1) + count_modified before' after')%nat
  | _, _ => 0%nat
  end.

(** ** Concrete inputs *)

(** A generator that always delivers 0, and one that counts. *)
Definition zero_tape : rng := mkRng (fun _ => 0) 0.
Definition counting_tape : rng := mkRng (fun n => Z.of_nat n) 0.

(** Small frames and signals. *)
Definition frame9 : list C := replicate 9 (1, 1)%Q.
Definition silent4 : list C := replicate 4 (0, 0)%Q.
Definition ones (n : nat) : list Q := replicate n 1%Q.

(** The float of the chunk "Hi" with exponent field 80 and random bits 0. *)
Definition float_Hi : spec_float := S754_finite false 8407145 (-70).

(** A window and a transform pair with the shapes of numpy's: [n] samples
    give [n/2 + 1] bins, [m] bins give [2(m - 1)] samples, and an empty
    transform raises. *)
Definition toy_hanning (n : nat) : list Q := replicate n (1 # 2)%Q.

Definition toy_rfft (x : list Q) : outcome (list C) :=
  match x with
  | [] => Raise ValueError
  | _ => Return (map (fun q => (q, 0%Q)) (take (length x / 2 + 1) x))
  end.

Definition toy_irfft (X : list C) : outcome (list Q) :=
  if decide (length X <= 1)%nat then Raise ValueError
  else Return (map fst (take (length X - 1) X)
               ++ map snd (take (length X - 1) X)).

(** * The channel driver *)

(** The module constants. *)
Definition FFT_SIZE : nat := 1024.
Definition HOP_SIZE : nat := FFT_SIZE / 8.

(** [len(audio) / sample_rate] on two integers: true division, the
    quotient rounded to float64; it raises on zero. *)
Definition true_div (n d : Z) : outcome Q :=
  if d =? 0 then Raise ZeroDivisionError
  else Return (round64 (inject_Z n / inject_Z d)).

(** One sample of [audio.astype(np.float32) / np.iinfo(audio.dtype).max]:
    the sample and the divisor are converted to float32 and divided in
    float32.  [dtype_max] is the largest value of the array's integer
    type, a positive number. *)
Definition normalize_sample (dtype_max v : Z) : Q :=
  round32 (round32 (inject_Z v) / round32 (inject_Z dtype_max)).

(** The normalization of a two-column integer array. *)
Definition normalize (dtype_max : Z) (audio : list (Z * Z)) : list (Q * Q) :=
  map (fun row => (normalize_sample dtype_max (fst row),
                   normalize_sample dtype_max (snd row))) audio.

(** [np.column_stack((left, right))] on two one-dimensional arrays. *)
Definition column_stack {A} (left right : list A) : outcome (list (A * A)) :=
  if decide (length left = length right) then Return (zip left right)
  else Raise ValueError.

(** [np.clip(x, lo, hi)] on one element: [minimum(maximum(x, lo), hi)];
    NaN stays NaN. *)
Definition np_clip (lo hi : Q) (x : xq) : xq :=
  match x with
  | Fin q =>
      let m := if Qle_bool q lo then lo else q in
      Fin (if Qle_bool hi m then hi else m)
  | PInf => Fin hi
  | NInf => Fin lo
  | NaN => NaN
  end.

Section Driver.

(** The numpy routines of the engine. *)
Variable hanning : nat -> list Q.
Variable rfft : list Q -> outcome (list C).
Variable irfft : list C -> outcome (list Q).

(** [main] between [wav.read] and [wav.write]: [sample_rate] and the
    two-column integer array [audio] are what [wav.read] returned, and the
    result is the array handed to [wav.write] and [sd.play].  Reading,
    writing, printing and playback are left out. *)
Definition main (sample_rate dtype_max : Z) (audio : list (Z * Z))
  : M (list (xq * xq)) :=
  let audio := normalize dtype_max audio in
  k_factor <- lift (true_div (len audio) sample_rate) ;;
  left <- overlap_add_process hanning rfft irfft (map fst audio)
            FFT_SIZE HOP_SIZE k_factor ;;
  right <- overlap_add_process hanning rfft irfft (map snd audio)
             FFT_SIZE HOP_SIZE k_factor ;;
  output <- lift (column_stack left right) ;;
  let output := map (fun row => (np_clip (-1) 1 (fst row),
                                 np_clip (-1) 1 (snd row))) output in
  ret output.

End Driver.

(** ** More vocabulary *)

(** A Python string: every code point is at most U+10FFFF. *)
Definition valid_str (s : list Z) : Prop :=
  Forall (fun c => 0 <= c <= 1114111) s.

(** The indices of the randomization loop that are not selected. *)
Definition unselected (usable : Z) (positions : list Z) : list Z :=
  List.filter (fun i => negb (bool_decide (i ∈ positions))) (range1 usable).

(** The positions [process_fft] selects when it starts in state [g]: the
    selection follows the twelve draws of [compress]. *)
Definition frame_positions (fft_data : list C) (k_factor : Q) (g : rng)
  : list Z :=
  foldl keep_new []
    (drawn_positions (usable_bins fft_data k_factor) (advance 12 g) 6).

(** A sample that is a number of the closed range [[lo, hi]]: neither an
    infinity nor NaN. *)
Definition sample_in_range (lo hi : Q) (x : xq) : Prop :=
  match x with
  | Fin q => (lo <= q)%Q /\ (q <= hi)%Q
  | _ => False
  end.

(** A sample index is covered when some frame contains it. *)
Definition covered (starts : list Z) (fft_size : nat) (i : nat) : Prop :=
  exists s, s ∈ starts /\ s <= Z.of_nat i < s + Z.of_nat fft_size.

(** * Properties *)

(** ** Rounding *)

Lemma rne_bounds (x : Q) : Qfloor x <= rne x <= Qfloor x + 1.
Proof.
  unfold rne. destruct (Qcompare _ _); [destruct (Z.even _)|..]; lia.
Qed.

Lemma rne_mono (x y : Q) : (x <= y)%Q -> rne x <= rne y.
Proof.
  intros Hxy.
  pose proof (Qfloor_resp_le _ _ Hxy) as Hf.
  pose proof (rne_bounds x) as Hx. pose proof (rne_bounds y) as Hy.
  destruct (Z.eq_dec (Qfloor x) (Qfloor y)) as [E | NE]; [| lia].
  unfold rne in *. rewrite <- E in *.
  destruct (Qcompare_spec (x - inject_Z (Qfloor x)) (1 # 2)) as [Ex | Lx | Gx];
    destruct (Qcompare_spec (y - inject_Z (Qfloor x)) (1 # 2)) as [Ey | Ly | Gy];
    try destruct (Z.even (Qfloor x)); try lia; exfalso; lra.
Qed.

Lemma rne_inject_Z (n : Z) : rne (inject_Z n) = n.
Proof.
  unfold rne. rewrite Qfloor_Z.
  destruct (Qcompare_spec (inject_Z n - inject_Z n) (1 # 2)) as [E | L | G];
    [exfalso; lra | reflexivity | exfalso; lra].
Qed.

Lemma rne_eq (x : Q) (n : Z) : (x == inject_Z n)%Q -> rne x = n.
Proof.
  intros E. apply Z.le_antisymm.
  - rewrite <- (rne_inject_Z n). apply rne_mono. lra.
  - rewrite <- (rne_inject_Z n) at 1. apply rne_mono. lra.
Qed.

Lemma two_pow_pos (e : Z) : (0 < Qpower 2 e)%Q.
Proof. apply Qpower_0_lt. reflexivity. Qed.

Lemma two_pow_Z (n : Z) : 0 <= n -> (Qpower 2 n == inject_Z (2 ^ n))%Q.
Proof. intros H. rewrite Zpower_Qpower by exact H. reflexivity. Qed.

Lemma two_pow_plus (a b : Z) : (Qpower 2 (a + b) == Qpower 2 a * Qpower 2 b)%Q.
Proof. apply Qpower_plus. discriminate. Qed.

Lemma two_pow_le (a b : Z) : a <= b -> (Qpower 2 a <= Qpower 2 b)%Q.
Proof.
  intros H. replace b with (a + (b - a)) by lia.
  rewrite two_pow_plus.
  assert (H1 : (1 <= Qpower 2 (b - a))%Q).
  { rewrite two_pow_Z by lia.
    change 1%Q with (inject_Z 1). rewrite <- Zle_Qle.
    pose proof (Z.pow_pos_nonneg 2 (b - a)). lia. }
  pose proof (two_pow_pos a). nra.
Qed.

Lemma two_pow_lt_inv (a b : Z) : (Qpower 2 a < Qpower 2 b)%Q -> a < b.
Proof.
  intros H. destruct (Z_lt_le_dec a b) as [L | G]; [exact L |].
  pose proof (two_pow_le _ _ G). lra.
Qed.

Lemma ilog2_spec (x : Q) :
  (0 < x)%Q -> (Qpower 2 (ilog2 x) <= x /\ x < Qpower 2 (ilog2 x + 1))%Q.
Proof.
  intros Hx. destruct x as [n d].
  assert (Hn : 0 < n) by (unfold Qlt in Hx; simpl in Hx; lia).
  unfold ilog2. cbn [Qnum Qden].
  set (a := Z.log2 n). set (b := Z.log2 (Z.pos d)).
  assert (Ha : 2 ^ a <= n < 2 ^ (a + 1)).
  { pose proof (Z.log2_spec n Hn). unfold a. replace (Z.log2 n + 1) with (Z.succ (Z.log2 n)) by lia. lia. }
  assert (Hb : 2 ^ b <= Z.pos d < 2 ^ (b + 1)).
  { pose proof (Z.log2_spec (Z.pos d) ltac:(lia)). unfold b.
    replace (Z.log2 (Z.pos d) + 1) with (Z.succ (Z.log2 (Z.pos d))) by lia. lia. }
  assert (Ha0 : 0 <= a) by apply Z.log2_nonneg.
  assert (Hb0 : 0 <= b) by apply Z.log2_nonneg.
  assert (Hx' : (n # d == inject_Z n / inject_Z (Z.pos d))%Q) by apply Qmake_Qdiv.
  assert (Hd : (0 < inject_Z (Z.pos d))%Q).
  { change 0%Q with (inject_Z 0). rewrite <- Zlt_Qlt. lia. }
  (* bounds that always hold *)
  assert (Hlow : (Qpower 2 (a - b - 1) <= n # d)%Q).
  { rewrite Hx'. apply Qle_shift_div_l; [exact Hd |].
    assert (E : (Qpower 2 (a - b - 1) * Qpower 2 (b + 1) == Qpower 2 a)%Q).
    { rewrite <- two_pow_plus. replace (a - b - 1 + (b + 1)) with a by lia. reflexivity. }
    assert (H1 : (inject_Z (Z.pos d) <= Qpower 2 (b + 1))%Q).
    { rewrite two_pow_Z by lia. rewrite <- Zle_Qle. lia. }
    assert (H2 : (Qpower 2 a <= inject_Z n)%Q).
    { rewrite two_pow_Z by lia. rewrite <- Zle_Qle. lia. }
    pose proof (two_pow_pos (a - b - 1)). nra. }
  assert (Hhigh : (n # d < Qpower 2 (a - b + 1))%Q).
  { rewrite Hx'. apply Qlt_shift_div_r; [exact Hd |].
    assert (E : (Qpower 2 (a - b + 1) * Qpower 2 b == Qpower 2 (a + 1))%Q).
    { rewrite <- two_pow_plus. replace (a - b + 1 + b) with (a + 1) by lia. reflexivity. }
    assert (H1 : (Qpower 2 b <= inject_Z (Z.pos d))%Q).
    { rewrite two_pow_Z by lia. rewrite <- Zle_Qle. lia. }
    assert (H2 : (inject_Z n < Qpower 2 (a + 1))%Q).
    { rewrite two_pow_Z by lia. rewrite <- Zlt_Qlt. lia. }
    pose proof (two_pow_pos (a - b + 1)). nra. }
  destruct (Qle_bool (Qpower 2 (a - b)) (n # d)) eqn:Hc.
  - apply Qle_bool_iff in Hc. split; [exact Hc | exact Hhigh].
  - split; [exact Hlow |].
    replace (a - b - 1 + 1) with (a - b) by lia.
    apply Qnot_le_lt. intros H. apply Qle_bool_iff in H. congruence.
Qed.

Lemma ilog2_unique (x : Q) (e : Z) :
  (Qpower 2 e <= x)%Q -> (x < Qpower 2 (e + 1))%Q -> ilog2 x = e.
Proof.
  intros H1 H2.
  assert (Hx : (0 < x)%Q) by (pose proof (two_pow_pos e); lra).
  destruct (ilog2_spec x Hx) as [H3 H4].
  assert (ilog2 x < e + 1) by (apply two_pow_lt_inv; lra).
  assert (e < ilog2 x + 1) by (apply two_pow_lt_inv; lra).
  lia.
Qed.

Lemma ilog2_mono (x y : Q) : (0 < x)%Q -> (x <= y)%Q -> ilog2 x <= ilog2 y.
Proof.
  intros Hx Hxy.
  destruct (ilog2_spec x Hx) as [H1 _].
  destruct (ilog2_spec y ltac:(lra)) as [_ H2].
  assert (ilog2 x < ilog2 y + 1) by (apply two_pow_lt_inv; lra).
  lia.
Qed.

(** The scaled significand lies in [[2^(prec-1), 2^prec)]. *)
Lemma significand_range (prec : Z) (x : Q) :
  (0 < x)%Q ->
  (Qpower 2 (prec - 1) <= x / Qpower 2 (ilog2 x - (prec - 1))
   /\ x / Qpower 2 (ilog2 x - (prec - 1)) < Qpower 2 prec)%Q.
Proof.
  intros Hx. destruct (ilog2_spec x Hx) as [H1 H2].
  set (e := ilog2 x - (prec - 1)).
  pose proof (two_pow_pos e) as He.
  split.
  - apply Qle_shift_div_l; [exact He |].
    rewrite <- two_pow_plus. replace (prec - 1 + e) with (ilog2 x) by (unfold e; lia).
    exact H1.
  - apply Qlt_shift_div_r; [exact He |].
    rewrite <- two_pow_plus. replace (prec + e) with (ilog2 x + 1) by (unfold e; lia).
    exact H2.
Qed.

Lemma round_pos_bounds (prec : Z) (x : Q) :
  1 <= prec -> (0 < x)%Q ->
  (Qpower 2 (ilog2 x) <= round_pos prec x
   /\ round_pos prec x <= Qpower 2 (ilog2 x + 1))%Q.
Proof.
  intros Hp Hx. destruct (significand_range prec x Hx) as [H1 H2].
  unfold round_pos. set (e := ilog2 x - (prec - 1)) in *.
  pose proof (two_pow_pos e) as He.
  assert (L : 2 ^ (prec - 1) <= rne (x / Qpower 2 e)).
  { rewrite <- (rne_inject_Z (2 ^ (prec - 1))). apply rne_mono.
    rewrite <- two_pow_Z by lia. exact H1. }
  assert (U : rne (x / Qpower 2 e) <= 2 ^ prec).
  { rewrite <- (rne_inject_Z (2 ^ prec)). apply rne_mono.
    rewrite <- two_pow_Z by lia. lra. }
  rewrite Zle_Qle in L. rewrite Zle_Qle in U.
  rewrite <- two_pow_Z in L by lia. rewrite <- two_pow_Z in U by lia.
  assert (E1 : (Qpower 2 (ilog2 x) == Qpower 2 (prec - 1) * Qpower 2 e)%Q).
  { rewrite <- two_pow_plus. replace (prec - 1 + e) with (ilog2 x) by (unfold e; lia). reflexivity. }
  assert (E2 : (Qpower 2 (ilog2 x + 1) == Qpower 2 prec * Qpower 2 e)%Q).
  { rewrite <- two_pow_plus. replace (prec + e) with (ilog2 x + 1) by (unfold e; lia). reflexivity. }
  rewrite E1, E2. split; nra.
Qed.

Lemma round_pos_mono (prec : Z) (x y : Q) :
  1 <= prec -> (0 < x)%Q -> (x <= y)%Q ->
  (round_pos prec x <= round_pos prec y)%Q.
Proof.
  intros Hp Hx Hxy.
  assert (Hy : (0 < y)%Q) by lra.
  pose proof (ilog2_mono x y Hx Hxy) as Hl.
  destruct (Z.eq_dec (ilog2 x) (ilog2 y)) as [E | NE].
  - unfold round_pos. rewrite E. set (e := ilog2 y - (prec - 1)).
    pose proof (two_pow_pos e) as He.
    assert (H : rne (x / Qpower 2 e) <= rne (y / Qpower 2 e)).
    { apply rne_mono. apply Qle_shift_div_l; [exact He |].
      unfold Qdiv. rewrite <- Qmult_assoc, (Qmult_comm (/ _)), Qmult_inv_r by lra. lra. }
    rewrite Zle_Qle in H. nra.
  - destruct (round_pos_bounds prec x Hp Hx) as [_ H1].
    destruct (round_pos_bounds prec y Hp Hy) as [H2 _].
    pose proof (two_pow_le (ilog2 x + 1) (ilog2 y) ltac:(lia)). lra.
Qed.

Lemma Qnum_pos (x : Q) p : Qnum x = Z.pos p -> (0 < x)%Q.
Proof. intros H. unfold Qlt. simpl. lia. Qed.

Lemma Qnum_neg (x : Q) p : Qnum x = Z.neg p -> (x < 0)%Q.
Proof. intros H. unfold Qlt. simpl. lia. Qed.

Lemma Qnum_zero (x : Q) : Qnum x = 0 -> (x == 0)%Q.
Proof. intros H. unfold Qeq. simpl. lia. Qed.

Lemma round_pos_pos (prec : Z) (x : Q) :
  1 <= prec -> (0 < x)%Q -> (0 < round_pos prec x)%Q.
Proof.
  intros Hp Hx. destruct (round_pos_bounds prec x Hp Hx) as [H _].
  pose proof (two_pow_pos (ilog2 x)). lra.
Qed.

Lemma round_to_sign (prec : Z) (x : Q) :
  1 <= prec ->
  ((0 <= x -> 0 <= round_to prec x) /\ (x <= 0 -> round_to prec x <= 0))%Q.
Proof.
  intros Hp. unfold round_to. destruct (Qnum x) as [| p | p] eqn:E.
  - split; intros _; lra.
  - pose proof (Qnum_pos x p E). pose proof (round_pos_pos prec x Hp H).
    split; intros; lra.
  - pose proof (Qnum_neg x p E).
    pose proof (round_pos_pos prec (- x) Hp ltac:(lra)).
    split; intros; lra.
Qed.

(** Rounding is monotone. *)
Lemma round_to_mono (prec : Z) (x y : Q) :
  1 <= prec -> (x <= y)%Q -> (round_to prec x <= round_to prec y)%Q.
Proof.
  intros Hp Hxy.
  destruct (Qlt_le_dec 0 x) as [Px | Nx].
  - assert (Py : (0 < y)%Q) by lra.
    unfold round_to.
    destruct (Qnum x) as [| p | p] eqn:Ex;
      [apply Qnum_zero in Ex; lra | | apply Qnum_neg in Ex; lra].
    destruct (Qnum y) as [| q | q] eqn:Ey;
      [apply Qnum_zero in Ey; lra | | apply Qnum_neg in Ey; lra].
    apply round_pos_mono; assumption.
  - destruct (Qlt_le_dec y 0) as [Ny | Py].
    + unfold round_to.
      destruct (Qnum x) as [| p | p] eqn:Ex;
        [apply Qnum_zero in Ex; lra | apply Qnum_pos in Ex; lra |].
      destruct (Qnum y) as [| q | q] eqn:Ey;
        [apply Qnum_zero in Ey; lra | apply Qnum_pos in Ey; lra |].
      apply Qopp_le_compat. apply round_pos_mono; [exact Hp | lra | lra].
    + pose proof (proj2 (round_to_sign prec x Hp) Nx).
      pose proof (proj1 (round_to_sign prec y Hp) Py). lra.
Qed.


(** Integers of at most [prec] bits are representable. *)
Lemma round_to_inject_Z (prec n : Z) :
  1 <= prec -> 0 <= n < 2 ^ prec ->
  (round_to prec (inject_Z n) == inject_Z n)%Q.
Proof.
  intros Hp Hn. unfold round_to. destruct n as [| p | p]; [reflexivity | | lia].
  cbn [inject_Z Qnum]. change (Z.pos p # 1) with (inject_Z (Z.pos p)).
  set (n := Z.pos p) in *.
  assert (Hlog : 2 ^ Z.log2 n <= n < 2 ^ (Z.log2 n + 1)).
  { pose proof (Z.log2_spec n ltac:(lia)).
    replace (Z.log2 n + 1) with (Z.succ (Z.log2 n)) by lia. lia. }
  assert (H0 : 0 <= Z.log2 n) by apply Z.log2_nonneg.
  assert (Hlt : Z.log2 n < prec).
  { apply (Z.pow_lt_mono_r_iff 2); lia. }
  assert (El : ilog2 (inject_Z n) = Z.log2 n).
  { apply ilog2_unique.
    - rewrite two_pow_Z by lia. rewrite <- Zle_Qle. lia.
    - rewrite two_pow_Z by lia. rewrite <- Zlt_Qlt. lia. }
  unfold round_pos. rewrite El.
  set (k := prec - 1 - Z.log2 n).
  replace (Z.log2 n - (prec - 1)) with (- k) by (unfold k; lia).
  assert (Hk : 0 <= k) by (unfold k; lia).
  assert (Einv : (Qpower 2 (- k) * Qpower 2 k == 1)%Q).
  { rewrite <- two_pow_plus. replace (- k + k) with 0 by lia. reflexivity. }
  pose proof (two_pow_pos (- k)) as Hpos.
  assert (Ediv : (inject_Z n / Qpower 2 (- k) == inject_Z (n * 2 ^ k))%Q).
  { rewrite inject_Z_mult, <- two_pow_Z by lia.
    apply Qmult_inj_r with (z := Qpower 2 (- k)); [lra |].
    unfold Qdiv. rewrite <- Qmult_assoc, (Qmult_comm (/ _)), Qmult_inv_r by lra.
    rewrite <- Qmult_assoc, (Qmult_comm (Qpower 2 k)), Einv. lra. }
  rewrite (rne_eq _ _ Ediv).
  rewrite inject_Z_mult, <- two_pow_Z by lia.
  rewrite <- Qmult_assoc, (Qmult_comm (Qpower 2 k)), Einv. lra.
Qed.

(** Rounding never crosses a representable integer. *)
Lemma round_to_le_Z (prec : Z) (x : Q) (n : Z) :
  1 <= prec -> 0 <= n < 2 ^ prec -> (x <= inject_Z n)%Q ->
  (round_to prec x <= inject_Z n)%Q.
Proof.
  intros Hp Hn Hx. rewrite <- (round_to_inject_Z prec n Hp Hn).
  apply round_to_mono; assumption.
Qed.

Lemma round_to_ge_Z (prec : Z) (x : Q) (n : Z) :
  1 <= prec -> 0 <= n < 2 ^ prec -> (inject_Z n <= x)%Q ->
  (inject_Z n <= round_to prec x)%Q.
Proof.
  intros Hp Hn Hx. rewrite <- (round_to_inject_Z prec n Hp Hn).
  apply round_to_mono; assumption.
Qed.

Lemma fmul_nonneg (x y : Q) : (0 <= x)%Q -> (0 <= y)%Q -> (0 <= fmul x y)%Q.
Proof.
  intros Hx Hy. unfold fmul, round64.
  apply (proj1 (round_to_sign 53 (x * y) ltac:(lia))). nra.
Qed.

(** ** Bit patterns *)

Module Bits.

Lemma land_shiftl_low a b n :
  0 <= n -> 0 <= b < 2 ^ n -> Z.land (Z.shiftl a n) b = 0.
Proof.
  intros Hn Hb. apply Z.bits_inj'. intros i Hi.
  rewrite Z.land_spec, Z.bits_0.
  destruct (Z.lt_ge_cases i n) as [Hlt | Hge].
  - rewrite Z.shiftl_spec_low by assumption. reflexivity.
  - destruct (Z.eq_dec b 0) as [-> | Hb0].
    + rewrite Z.bits_0. apply andb_false_r.
    + rewrite (Z.bits_above_log2 b i); [apply andb_false_r | lia |].
      apply Z.log2_lt_pow2; [lia |].
      apply Z.lt_le_trans with (2 ^ n); [lia |].
      apply Z.pow_le_mono_r; lia.
Qed.

Lemma lor_shiftl_add a b n :
  0 <= n -> 0 <= b < 2 ^ n -> Z.lor (Z.shiftl a n) b = a * 2 ^ n + b.
Proof.
  intros Hn Hb.
  rewrite <- Z.lxor_lor by (apply land_shiftl_low; assumption).
  rewrite <- Z.add_nocarry_lxor by (apply land_shiftl_low; assumption).
  rewrite Z.shiftl_mul_pow2 by assumption. reflexivity.
Qed.

Lemma land_255 x : Z.land x 255 = x mod 256.
Proof. change 255 with (Z.ones 8). rewrite Z.land_ones by lia. reflexivity. Qed.

Lemma land_mantissa x : Z.land x (2 ^ 23 - 1) = x mod 2 ^ 23.
Proof.
  change (2 ^ 23 - 1) with (Z.ones 23). rewrite Z.land_ones by lia.
  reflexivity.
Qed.

Lemma shiftr_div x n : 0 <= n -> Z.shiftr x n = x / 2 ^ n.
Proof. intros. apply Z.shiftr_div_pow2. assumption. Qed.

Lemma testbit_31_small w : 0 <= w < 2 ^ 31 -> Z.testbit w 31 = false.
Proof.
  intros Hw. destruct (Z.eq_dec w 0) as [-> | Hw0]; [apply Z.bits_0 |].
  apply Z.bits_above_log2; [lia |].
  apply Z.log2_lt_pow2; lia.
Qed.

End Bits.

Lemma assemble_synth_bits e r c0 c1 :
  0 <= e -> 0 <= r < 128 -> is_byte c0 -> is_byte c1 ->
  Z.lor (Z.lor (Z.shiftl 0 31) (Z.shiftl e 23))
        (Z.lor (Z.shiftl r 16) (Z.lor (Z.shiftl c0 8) c1))
  = synth_bits e r c0 c1.
Proof.
  unfold is_byte, synth_bits. intros He Hr H0 H1.
  rewrite Z.shiftl_0_l, Z.lor_0_l.
  rewrite (Bits.lor_shiftl_add c0 c1 8) by lia.
  rewrite (Bits.lor_shiftl_add r _ 16) by lia.
  rewrite (Bits.lor_shiftl_add e _ 23) by lia.
  lia.
Qed.

Lemma word_of_bytes_sum b0 b1 b2 b3 :
  is_byte b0 -> is_byte b1 -> is_byte b2 -> is_byte b3 ->
  word_of_bytes b0 b1 b2 b3 = b0 + b1 * 2 ^ 8 + b2 * 2 ^ 16 + b3 * 2 ^ 24.
Proof.
  unfold is_byte, word_of_bytes. intros H0 H1 H2 H3.
  rewrite (Z.lor_comm b0), (Bits.lor_shiftl_add b1 b0 8) by lia.
  rewrite (Z.lor_comm _ (Z.shiftl b2 16)), (Bits.lor_shiftl_add b2 _ 16) by lia.
  rewrite (Z.lor_comm _ (Z.shiftl b3 24)), (Bits.lor_shiftl_add b3 _ 24) by lia.
  lia.
Qed.

Lemma pack_unpack_word n :
  0 <= n < 2 ^ 32 ->
  exists b, pack_I n = Return b /\ unpack_f b = Return (float32_of_bits n).
Proof.
  intros Hn. unfold pack_I.
  replace ((0 <=? n) && (n <? 2 ^ 32)) with true
    by (symmetry; apply andb_true_iff; split; [apply Z.leb_le | apply Z.ltb_lt]; lia).
  eexists. split; [reflexivity |]. cbn [unpack_f]. do 2 f_equal.
  rewrite !Bits.land_255, !Bits.shiftr_div by lia.
  rewrite word_of_bytes_sum
    by (unfold is_byte; apply Z.mod_pos_bound; lia).
  change (2 ^ 8) with 256. change (2 ^ 16) with 65536.
  change (2 ^ 24) with 16777216. change (2 ^ 32) with 4294967296 in Hn.
  Z.div_mod_to_equations. lia.
Qed.

Section SynthFloat.

Variables e r c0 c1 : Z.
Hypothesis He : 1 <= e <= 254.
Hypothesis Hr : 0 <= r < 128.
Hypothesis H0 : is_byte c0.
Hypothesis H1 : is_byte c1.

Lemma synth_bits_range : 0 <= synth_bits e r c0 c1 < 2 ^ 31.
Proof using He Hr H0 H1. unfold synth_bits, is_byte in *. lia. Qed.

Lemma float32_of_synth :
  float32_of_bits (synth_bits e r c0 c1) = synth_float e r c0 c1.
Proof using He Hr H0 H1.
  pose proof synth_bits_range as Hw.
  unfold float32_of_bits, synth_float.
  rewrite Bits.testbit_31_small by assumption.
  rewrite Bits.land_255, Bits.land_mantissa, Bits.shiftr_div by lia.
  assert (Hq : synth_bits e r c0 c1 / 2 ^ 23 = e).
  { unfold synth_bits, is_byte in *. symmetry.
    apply (Z.div_unique _ _ _ (r * 2 ^ 16 + c0 * 2 ^ 8 + c1)); lia. }
  assert (Hm : synth_bits e r c0 c1 mod 2 ^ 23 = r * 2 ^ 16 + c0 * 2 ^ 8 + c1).
  { unfold synth_bits, is_byte in *. symmetry.
    apply (Z.mod_unique _ _ e); lia. }
  rewrite Hq, Hm, (Z.mod_small e 256) by lia.
  destruct (Z.eqb_spec e 0) as [? | _]; [lia |].
  destruct (Z.eqb_spec e 255) as [? | _]; [lia |].
  f_equal. f_equal.
  change (2 ^ 23) with (Z.shiftl 1 23) at 1.
  rewrite Z.lor_comm, Bits.lor_shiftl_add by (unfold is_byte in *; lia).
  lia.
Qed.

Lemma float32_bits_synth :
  float32_bits (synth_float e r c0 c1) = synth_bits e r c0 c1.
Proof using He Hr H0 H1.
  unfold float32_bits, synth_float, synth_bits, sign_bit, is_byte in *.
  rewrite Z2Pos.id by lia.
  destruct (Z.ltb_spec (2 ^ 23 + r * 2 ^ 16 + c0 * 2 ^ 8 + c1) (2 ^ 23));
    [lia |].
  rewrite Z.lor_0_l, Bits.lor_shiftl_add by lia. lia.
Qed.

Lemma carrier_bytes_synth : carrier_bytes (synth_float e r c0 c1) = [c0; c1].
Proof using He Hr H0 H1.
  unfold carrier_bytes. rewrite float32_bits_synth.
  rewrite !Bits.land_255, Bits.shiftr_div by lia.
  unfold synth_bits, is_byte in *.
  assert (Hlow : (e * 2 ^ 23 + r * 2 ^ 16 + c0 * 2 ^ 8 + c1) mod 256 = c1).
  { symmetry. apply (Z.mod_unique _ _ (e * 2 ^ 15 + r * 2 ^ 8 + c0)); lia. }
  assert (Hhigh : (e * 2 ^ 23 + r * 2 ^ 16 + c0 * 2 ^ 8 + c1) / 2 ^ 8
                  = e * 2 ^ 15 + r * 2 ^ 8 + c0).
  { symmetry. apply (Z.div_unique _ _ _ c1); lia. }
  rewrite Hlow, Hhigh. f_equal. f_equal.
  symmetry. apply (Z.mod_unique _ _ (e * 2 ^ 7 + r)); lia.
Qed.

Lemma float_value_synth :
  float_value (synth_float e r c0 c1)
  = (inject_Z (2 ^ 23 + r * 2 ^ 16 + c0 * 2 ^ 8 + c1) * Qpower 2 (e - 150))%Q.
Proof using He Hr H0 H1.
  unfold float_value, synth_float, is_byte in *.
  rewrite Z2Pos.id by lia. reflexivity.
Qed.

Lemma float_value_synth_lower :
  (Qpower 2 (e - 127) <= float_value (synth_float e r c0 c1))%Q.
Proof using He Hr H0 H1.
  rewrite float_value_synth.
  replace (e - 127) with (23 + (e - 150)) by lia.
  rewrite Qpower_plus by discriminate.
  apply Qmult_le_compat_r.
  - change (Qpower 2 23) with (inject_Z (2 ^ 23)).
    rewrite <- Zle_Qle. unfold is_byte in *. lia.
  - apply Qpower_0_le. discriminate.
Qed.

Lemma float_value_synth_upper :
  (float_value (synth_float e r c0 c1) < Qpower 2 (e - 126))%Q.
Proof using He Hr H0 H1.
  rewrite float_value_synth.
  replace (e - 126) with (24 + (e - 150)) by lia.
  rewrite Qpower_plus by discriminate.
  apply Qmult_lt_compat_r.
  - apply Qpower_0_lt. reflexivity.
  - change (Qpower 2 24) with (inject_Z (2 ^ 24)).
    rewrite <- Zlt_Qlt. unfold is_byte in *. lia.
Qed.

(** The lower bound is met only by the all-zero mantissa. *)
Lemma float_value_synth_lower_eq :
  (float_value (synth_float e r c0 c1) == Qpower 2 (e - 127))%Q ->
  r = 0 /\ c0 = 0 /\ c1 = 0.
Proof using He Hr H0 H1.
  rewrite float_value_synth.
  replace (e - 127) with (23 + (e - 150)) by lia.
  rewrite Qpower_plus by discriminate.
  intros Heq.
  assert (Hnz : ~ (Qpower 2 (e - 150) == 0)%Q)
    by (apply Qpower_not_0; discriminate).
  apply (proj1 (Qmult_inj_r _ _ _ Hnz)) in Heq.
  change (Qpower 2 23) with (inject_Z (2 ^ 23)) in Heq.
  apply (proj1 (inject_Z_injective _ _)) in Heq. unfold is_byte in *. lia.
Qed.

End SynthFloat.

(** ** Slices, ranges and loops *)

Lemma slice_nonneg {A} (l : list A) (lo hi : Z) :
  0 <= lo <= hi ->
  slice l lo hi = take (Z.to_nat hi - Z.to_nat lo) (drop (Z.to_nat lo) l).
Proof.
  intros Hb. unfold slice, clip, len.
  destruct (Z.ltb_spec lo 0) as [? | _]; [lia |].
  destruct (Z.ltb_spec hi 0) as [? | _]; [lia |].
  destruct (Z.le_gt_cases (Z.of_nat (length l)) lo) as [Hout | Hin].
  - rewrite !drop_ge by lia. rewrite !take_nil. reflexivity.
  - rewrite (Z.min_l lo) by lia.
    destruct (Z.le_gt_cases hi (Z.of_nat (length l))) as [Hhi | Hhi].
    + rewrite Z.min_l by lia. f_equal. lia.
    + rewrite Z.min_r by lia.
      rewrite !take_ge; [reflexivity | |]; rewrite length_drop; lia.
Qed.

Lemma length_slice_nonneg {A} (l : list A) (lo hi : Z) :
  0 <= lo <= hi ->
  length (slice l lo hi)
  = Nat.min (Z.to_nat hi - Z.to_nat lo) (length l - Z.to_nat lo).
Proof.
  intros Hb. rewrite slice_nonneg by assumption.
  rewrite length_take, length_drop. reflexivity.
Qed.

Lemma range3_unfold start stop step :
  0 < step ->
  range3 start stop step
  = map (fun j => start + Z.of_nat j * step)
      (seq 0 (Z.to_nat ((stop - start + step - 1) / step))).
Proof.
  intros Hs. unfold range3.
  destruct (Z.ltb_spec 0 step); [reflexivity | lia].
Qed.

Lemma range3_empty start stop step : stop <= start -> range3 start stop step = [].
Proof.
  intros Hle. unfold range3. destruct (Z.ltb_spec 0 step); [| reflexivity].
  replace (Z.to_nat ((stop - start + step - 1) / step)) with 0%nat;
    [reflexivity |].
  assert ((stop - start + step - 1) / step <= 0); [| lia].
  assert ((stop - start + step - 1) / step < 1); [| lia].
  apply Z.div_lt_upper_bound; lia.
Qed.

Lemma range1_unfold n : range1 n = map Z.of_nat (seq 0 (Z.to_nat n)).
Proof.
  unfold range1. rewrite range3_unfold by lia.
  replace ((n - 0 + 1 - 1) / 1) with n by (rewrite Z.div_1_r; lia).
  apply map_ext. intros j. lia.
Qed.

Lemma for_app {A S} (xs ys : list A) (body : A -> S -> M S) (s : S) (g : rng) :
  for_ (xs ++ ys) body s g
  = match for_ xs body s g with
    | Raise e => Raise e
    | Return (s', g') => for_ ys body s' g'
    end.
Proof.
  revert s g. induction xs as [| x xs IH]; intros s g; [reflexivity |].
  cbn [app for_]. unfold bind.
  destruct (body x s g) as [e | [s' g']]; [reflexivity | apply IH].
Qed.

Lemma ofor_app {A S} (xs ys : list A) (body : A -> S -> outcome S) (s : S) :
  ofor (xs ++ ys) body s
  = match ofor xs body s with
    | Raise e => Raise e
    | Return s' => ofor ys body s'
    end.
Proof.
  revert s. induction xs as [| x xs IH]; intros s; [reflexivity |].
  cbn [app ofor]. destruct (body x s) as [e | s']; [reflexivity | apply IH].
Qed.

Lemma advance_advance n m g : advance n (advance m g) = advance (m + n) g.
Proof. unfold advance. cbn. f_equal. lia. Qed.

Lemma advance_0 g : advance 0 g = g.
Proof. destruct g as [t c]. unfold advance. cbn. f_equal. lia. Qed.

Lemma randint_eval a b g :
  a <= b ->
  randint a b g = Return (a + draw g 0 mod (b - a + 1), advance 1 g).
Proof.
  intros Hab. unfold randint. destruct (Z.ltb_spec b a); [lia |].
  unfold bind, next_raw, ret, draw. rewrite Nat.add_0_r. reflexivity.
Qed.

Lemma randint_range a b g v g' :
  randint a b g = Return (v, g') -> a <= v <= b.
Proof.
  unfold randint. destruct (Z.ltb_spec b a); [discriminate |].
  unfold bind, next_raw, ret. intros [= <- _].
  pose proof (Z.mod_pos_bound (tape g (cursor g)) (b - a + 1)). lia.
Qed.

(** Every value of the range is delivered by some tape. *)
Lemma randint_onto a b v (c : nat) :
  a <= v <= b ->
  exists g, cursor g = c /\ randint a b g = Return (v, advance 1 g).
Proof.
  intros Hv. exists (mkRng (fun _ => v - a) c). split; [reflexivity |].
  rewrite randint_eval by lia. unfold draw. cbn [tape].
  rewrite Z.mod_small by lia. do 2 f_equal. lia.
Qed.

(** ** compress, chunk by chunk *)

Lemma nth_is_byte (s : list Z) (i : nat) : byte_string s -> is_byte (nth i s 0).
Proof.
  intros Hs. destruct (Nat.lt_ge_cases i (length s)) as [Hlt | Hge].
  - apply (proj1 (Forall_nth is_byte 0 s) Hs). assumption.
  - rewrite nth_overflow by assumption. unfold is_byte. lia.
Qed.

(** The two characters of the chunk at offset [i]: the second one is the
    padding when the string ends after the first. *)
Lemma chunk_chars (string : list Z) (i : nat) :
  (i < length string)%nat ->
  let chars := ljust 2 0 (slice string (Z.of_nat i) (Z.of_nat i + 2)) in
  ord chars 0 = Return (nth i string 0)
  /\ ord chars 1 = Return (nth (S i) string 0).
Proof.
  intros Hi. cbn zeta. rewrite slice_nonneg by lia.
  replace (Z.to_nat (Z.of_nat i + 2) - Z.to_nat (Z.of_nat i))%nat with 2%nat by lia.
  rewrite Nat2Z.id. unfold ord, ljust.
  assert (Hnth : forall k, nth (i + k) string 0 = nth k (drop i string) 0).
  { intros k. rewrite <- (take_drop i string) at 1.
    assert (Hlen : length (take i string) = i) by (rewrite length_take; lia).
    rewrite app_nth2 by lia. rewrite Hlen. f_equal. lia. }
  replace (nth i string 0) with (nth 0 (drop i string) 0)
    by (rewrite <- Hnth; f_equal; lia).
  replace (nth (S i) string 0) with (nth 1 (drop i string) 0)
    by (rewrite <- Hnth; f_equal; lia).
  clear Hnth.
  assert (Hd : (0 < length (drop i string))%nat) by (rewrite length_drop; lia).
  destruct (drop i string) as [| x [| y rest]]; cbn in Hd |- *; [lia | | ];
    split; reflexivity.
Qed.

Lemma exponent_draw_range raw : 80 <= exponent_draw raw <= 125.
Proof.
  unfold exponent_draw. pose proof (Z.mod_pos_bound raw (125 - 80 + 1)). lia.
Qed.

Lemma random_7bits_draw_range raw : 0 <= random_7bits_draw raw < 128.
Proof.
  unfold random_7bits_draw. pose proof (Z.mod_pos_bound raw (127 - 0 + 1)). lia.
Qed.

Lemma chunk_count_spec string j :
  (j < chunk_count string)%nat <-> (2 * j < length string)%nat.
Proof.
  unfold chunk_count, len.
  pose proof (Z.div_mod (Z.of_nat (length string) - 0 + 2 - 1) 2 ltac:(lia)).
  pose proof (Z.mod_pos_bound (Z.of_nat (length string) - 0 + 2 - 1) 2 ltac:(lia)).
  lia.
Qed.

Lemma compress_step_eval string (j : nat) floats g :
  byte_string string -> (2 * j < length string)%nat ->
  compress_step string (0 + Z.of_nat j * 2) floats g
  = Return (floats ++ [synth_float (exponent_draw (draw g 0))
                         (random_7bits_draw (draw g 1))
                         (nth (2 * j) string 0) (nth (2 * j + 1) string 0)],
            advance 2 g).
Proof.
  intros Hs Hj. unfold compress_step.
  replace (0 + Z.of_nat j * 2) with (Z.of_nat (2 * j)) by lia.
  destruct (chunk_chars string (2 * j) Hj) as [-> ->].
  unfold bind at 1. rewrite randint_eval by lia.
  unfold bind at 1. rewrite randint_eval by lia.
  unfold bind at 1. unfold lift at 1.
  unfold bind at 1. unfold lift at 1.
  fold (exponent_draw (draw g 0)).
  fold (random_7bits_draw (draw (advance 1 g) 0)).
  replace (draw (advance 1 g) 0) with (draw g 1)
    by (unfold draw, advance; cbn; f_equal; lia).
  pose proof (exponent_draw_range (draw g 0)) as He.
  pose proof (random_7bits_draw_range (draw g 1)) as Hr.
  pose proof (nth_is_byte string (2 * j) Hs) as H0.
  pose proof (nth_is_byte string (S (2 * j)) Hs) as H1.
  rewrite assemble_synth_bits by (assumption || lia).
  destruct (pack_unpack_word (synth_bits (exponent_draw (draw g 0))
              (random_7bits_draw (draw g 1)) (nth (2 * j) string 0)
              (nth (S (2 * j)) string 0))) as (b & Hp & Hu).
  { assert (He' : 1 <= exponent_draw (draw g 0) <= 254) by lia.
    pose proof (synth_bits_range _ _ _ _ He' Hr H0 H1). lia. }
  unfold bind, lift, ret. rewrite Hp, Hu.
  rewrite float32_of_synth by (assumption || lia).
  rewrite advance_advance. replace (2 * j + 1)%nat with (S (2 * j)) by lia.
  reflexivity.
Qed.

Lemma compress_loop string g0 (m a : nat) floats :
  byte_string string ->
  (forall j, (j < a + m)%nat -> (2 * j < length string)%nat) ->
  for_ (map (fun j => 0 + Z.of_nat j * 2) (seq a m)) (compress_step string)
    floats (advance (2 * a) g0)
  = Return (floats ++ map (chunk_float string g0) (seq a m),
            advance (2 * (a + m)) g0).
Proof.
  intros Hs. revert a floats.
  induction m as [| m IH]; intros a floats Hj.
  - cbn [seq map for_]. unfold ret. rewrite app_nil_r, Nat.add_0_r. reflexivity.
  - cbn [seq map for_]. unfold bind.
    rewrite compress_step_eval by (assumption || (apply Hj; lia)).
    rewrite advance_advance.
    replace (2 * a + 2)%nat with (2 * S a)%nat by lia.
    rewrite IH by (intros j Hlt; apply Hj; lia).
    rewrite <- app_assoc. cbn [app]. do 2 f_equal.
    + do 2 f_equal. unfold chunk_float, draw, advance. cbn [tape cursor].
      rewrite Nat.add_0_r. do 2 f_equal; f_equal; lia.
    + f_equal. lia.
Qed.

(** [compress] never raises on a byte string; it draws twice per chunk. *)
Lemma compress_eval string g :
  byte_string string ->
  compress string g
  = Return (map (chunk_float string g) (seq 0 (chunk_count string)),
            advance (2 * chunk_count string) g).
Proof.
  intros Hs. unfold compress. rewrite range3_unfold by lia.
  fold (chunk_count string).
  pose proof (compress_loop string g (chunk_count string) 0 [] Hs) as Hloop.
  change (2 * 0)%nat with 0%nat in Hloop. rewrite advance_0 in Hloop.
  apply Hloop. intros j Hj. apply chunk_count_spec. lia.
Qed.

(** ** Reading the payload back *)

Lemma list_pair_ind {A} (P : list A -> Prop) :
  P [] -> (forall a, P [a]) -> (forall a b l, P l -> P (a :: b :: l)) ->
  forall l, P l.
Proof.
  intros Hnil Hone Hstep. fix IH 1.
  intros [| a [| b l]]; [exact Hnil | apply Hone | apply Hstep, IH].
Qed.

Lemma chunk_count_cons2 a b (l : list Z) :
  chunk_count (a :: b :: l) = S (chunk_count l).
Proof.
  unfold chunk_count, len. cbn [length].
  replace (Z.of_nat (S (S (length l))) - 0 + 2 - 1)
    with (1 * 2 + (Z.of_nat (length l) - 0 + 2 - 1)) by lia.
  rewrite Z.div_add_l by lia.
  assert (0 <= (Z.of_nat (length l) - 0 + 2 - 1) / 2)
    by (apply Z.div_pos; lia).
  lia.
Qed.

Lemma carried_pairs (B : list Z) :
  concat (map (fun j => [nth (2 * j) B 0; nth (2 * j + 1) B 0])
            (seq 0 (chunk_count B)))
  = padded B.
Proof.
  induction B as [| a | a b l IH] using list_pair_ind.
  - reflexivity.
  - reflexivity.
  - assert (Hp : padded (a :: b :: l) = a :: b :: padded l).
    { unfold padded. cbn [length].
      change (Nat.odd (S (S (length l)))) with (Nat.odd (length l)).
      destruct (Nat.odd (length l)); reflexivity. }
    rewrite Hp, <- IH, chunk_count_cons2.
    change (seq 0 (S (chunk_count l))) with (0%nat :: seq 1 (chunk_count l)).
    rewrite <- seq_shift, map_cons, map_map.
    change (concat (?x :: ?xs)) with (x ++ concat xs).
    change (a :: b :: ?t) with ([a; b] ++ t).
    f_equal. f_equal. apply map_ext. intros j.
    replace (2 * S j)%nat with (S (S (2 * j))) by lia. reflexivity.
Qed.

Lemma chunk_float_carrier B g j :
  byte_string B ->
  carrier_bytes (chunk_float B g j) = [nth (2 * j) B 0; nth (2 * j + 1) B 0].
Proof.
  intros HB. unfold chunk_float.
  pose proof (exponent_draw_range (draw g (2 * j))).
  apply carrier_bytes_synth;
    [lia | apply random_7bits_draw_range | apply nth_is_byte, HB
     | apply nth_is_byte, HB].
Qed.

(** C1. Round trip of byte carriage: on every byte string and in every
    state of the generator (hence for every draw of the exponent field in
    [80, 125] and of the seven high mantissa bits in [0, 127]), [compress]
    returns floats whose low 16 pattern bits, read as a high and a low
    byte, are the input followed by one null byte when its length is odd. *)
Theorem compress_round_trip (B : list Z) (g : rng) :
  byte_string B ->
  exists floats g',
    compress B g = Return (floats, g') /\ read_carrier floats = padded B.
Proof.
  intros HB. rewrite compress_eval by assumption.
  eexists _, _. split; [reflexivity |].
  unfold read_carrier. rewrite map_map.
  rewrite <- carried_pairs. f_equal.
  apply map_ext. intros j. apply chunk_float_carrier, HB.
Qed.

Lemma compress_round_trip_witness :
  byte_string [72; 105; 33] /\
  exists floats g',
    compress [72; 105; 33] zero_tape = Return (floats, g')
    /\ read_carrier floats = padded [72; 105; 33].
Proof.
  assert (HB : byte_string [72; 105; 33])
    by (repeat constructor; unfold is_byte; lia).
  split; [exact HB | exact (compress_round_trip [72; 105; 33] zero_tape HB)].
Defined.

(** ** Magnitude of the synthesized floats *)

(** C3, counterexample. The two-null-byte string with exponent draw 80 and
    random bits 0 yields exactly [2^(80-127)], which is not strictly above
    the lower end of the band. *)
Lemma magnitude_lower_end_reached :
  compress [0; 0] zero_tape
  = Return ([S754_finite false 8388608 (-70)], advance 2 zero_tape)
  /\ ~ in_open_band (S754_finite false 8388608 (-70)).
Proof.
  split; [reflexivity |].
  intros [Hlow _]. vm_compute in Hlow. discriminate Hlow.
Qed.

Lemma chunk_float_in_band B g j :
  byte_string B ->
  is_finite (chunk_float B g j) = true
  /\ in_band (chunk_float B g j)
  /\ ((Qabs (float_value (chunk_float B g j)) == Qpower 2 (80 - 127))%Q ->
      float32_bits (chunk_float B g j) = 80 * 2 ^ 23).
Proof.
  intros HB. unfold chunk_float.
  set (e := exponent_draw (draw g (2 * j))).
  set (r := random_7bits_draw (draw g (2 * j + 1))).
  set (c0 := nth (2 * j) B 0). set (c1 := nth (2 * j + 1) B 0).
  pose proof (exponent_draw_range (draw g (2 * j))) as He. fold e in He.
  pose proof (random_7bits_draw_range (draw g (2 * j + 1))) as Hr. fold r in Hr.
  assert (H0 : is_byte c0) by (apply nth_is_byte, HB).
  assert (H1 : is_byte c1) by (apply nth_is_byte, HB).
  assert (He' : 1 <= e <= 254) by lia.
  pose proof (float_value_synth_lower e r c0 c1 He' Hr H0 H1) as Hlo.
  pose proof (float_value_synth_upper e r c0 c1 He' Hr H0 H1) as Hup.
  assert (Hpos : (0 <= float_value (synth_float e r c0 c1))%Q).
  { eapply Qle_trans; [| exact Hlo]. apply Qpower_0_le. discriminate. }
  split; [reflexivity |].
  unfold in_band. rewrite (Qabs_pos _ Hpos).
  split; [split |].
  - eapply Qle_trans; [| exact Hlo].
    apply Qpower_le_compat_l; [lia | discriminate].
  - eapply Qlt_le_trans; [exact Hup |].
    apply Qpower_le_compat_l; [lia | discriminate].
  - intros Heq.
    assert (He80 : e = 80).
    { destruct (Z.eq_dec e 80) as [? | Hne]; [assumption | exfalso].
      apply (Qlt_irrefl (Qpower 2 (80 - 127))).
      rewrite <- Heq at 2.
      eapply Qlt_le_trans; [| exact Hlo].
      apply Qpower_lt_compat_l; [lia | reflexivity]. }
    rewrite He80 in Heq |- *.
    destruct (float_value_synth_lower_eq 80 r c0 c1 ltac:(lia) Hr H0 H1 Heq)
      as (-> & -> & ->).
    reflexivity.
Qed.

(** C3, as the code has it. On every byte string and in every state of the
    generator, every float [compress] returns is finite and its absolute
    value is at least [2^(80-127)] and strictly below [2^(125-127+1)]; the
    lower end is reached only by the pattern with exponent field 80 and an
    all-zero mantissa (random bits 0, both bytes null). *)
Theorem compress_magnitude_band (B : list Z) (g : rng) :
  byte_string B ->
  exists floats g',
    compress B g = Return (floats, g')
    /\ Forall (fun x =>
         is_finite x = true /\ in_band x
         /\ ((Qabs (float_value x) == Qpower 2 (80 - 127))%Q ->
             float32_bits x = 80 * 2 ^ 23)) floats.
Proof.
  intros HB. rewrite compress_eval by assumption.
  eexists _, _. split; [reflexivity |].
  apply Forall_map, Forall_forall. intros j _.
  apply chunk_float_in_band, HB.
Qed.

Lemma compress_magnitude_band_witness :
  byte_string [72; 105] /\
  exists floats g',
    compress [72; 105] zero_tape = Return (floats, g')
    /\ Forall (fun x =>
         is_finite x = true /\ in_band x
         /\ ((Qabs (float_value x) == Qpower 2 (80 - 127))%Q ->
             float32_bits x = 80 * 2 ^ 23)) floats.
Proof.
  assert (HB : byte_string [72; 105])
    by (repeat constructor; unfold is_byte; lia).
  split; [exact HB | exact (compress_magnitude_band [72; 105] zero_tape HB)].
Defined.

(** ** Padding of an odd-length string *)

(** C4, counterexample. For the one-character string "A" the carrier holds
    the character in its high byte and the padding in its low byte, not the
    other way round. *)
Lemma padding_is_low_byte :
  exists x g',
    compress [65] zero_tape = Return ([x], g')
    /\ carrier_bytes x = [65; 0]
    /\ carrier_bytes x <> [0; 65].
Proof.
  eexists _, _. split; [reflexivity |]. split; [reflexivity | discriminate].
Qed.

(** C4, as the code has it. When the input has odd length, the last float
    carries the final input byte in the high 8 of its 16 carrier bits and
    the null padding byte in the low 8. *)
Theorem compress_pads_low_byte (B : list Z) (g : rng) (b : Z) :
  byte_string B -> Nat.odd (length B) = true -> last B = Some b ->
  exists floats g' x,
    compress B g = Return (floats, g')
    /\ last floats = Some x
    /\ carrier_bytes x = [b; 0].
Proof.
  intros HB Hodd Hlast. rewrite compress_eval by assumption.
  apply Nat.odd_spec in Hodd. destruct Hodd as [n Hlen].
  assert (Hn : chunk_count B = S n).
  { apply Nat.le_antisymm.
    - apply Nat.nlt_ge. intros Hlt.
      apply (proj1 (chunk_count_spec B (S n))) in Hlt. lia.
    - apply Nat.le_succ_l, chunk_count_spec. lia. }
  eexists _, _, (chunk_float B g n). split; [reflexivity |].
  rewrite Hn, seq_S, map_app. cbn [map Nat.add]. split; [apply last_snoc |].
  rewrite chunk_float_carrier by assumption.
  rewrite last_lookup, Hlen in Hlast.
  replace (Nat.pred (2 * n + 1)) with (2 * n)%nat in Hlast by lia.
  rewrite (nth_lookup_Some _ _ 0 _ Hlast).
  rewrite nth_overflow by lia. reflexivity.
Qed.

Lemma compress_pads_low_byte_witness :
  exists floats g' x,
    compress [72; 105; 33] zero_tape = Return (floats, g')
    /\ last floats = Some x
    /\ carrier_bytes x = [33; 0].
Proof.
  apply (compress_pads_low_byte [72; 105; 33] zero_tape 33).
  - repeat constructor; unfold is_byte; lia.
  - reflexivity.
  - reflexivity.
Defined.

(** ** The Bin Selector *)

Lemma floordiv_int_eval n k :
  ~ (k == 0)%Q -> floordiv_int n k = Return (Qfloor (inject_Z n / k)).
Proof.
  intros Hk. unfold floordiv_int.
  destruct (Qeq_bool k 0) eqn:E; [| reflexivity].
  apply Qeq_bool_iff in E. contradiction.
Qed.

Lemma floordiv_int_returns n k v :
  floordiv_int n k = Return v -> ~ (k == 0)%Q /\ v = Qfloor (inject_Z n / k).
Proof.
  unfold floordiv_int. destruct (Qeq_bool k 0) eqn:E; [discriminate |].
  intros [= <-]. split; [| reflexivity].
  intros Hk. apply Qeq_bool_iff in Hk. congruence.
Qed.

Lemma usable_bins_nonneg fft_data k : (0 < k)%Q -> 0 <= usable_bins fft_data k.
Proof.
  intros Hk. unfold usable_bins.
  change 0 with (Qfloor (inject_Z 0)) at 1.
  apply Qfloor_resp_le. apply Qle_shift_div_l; [assumption |].
  rewrite Qmult_0_l. change 0%Q with (inject_Z 0). rewrite <- Zle_Qle.
  unfold len. lia.
Qed.

Lemma Qlt_not_0 k : (0 < k)%Q -> ~ (k == 0)%Q.
Proof. intros Hk Heq. rewrite Heq in Hk. discriminate Hk. Qed.

Lemma select_step_eval fft_data k index positions g :
  ~ (k == 0)%Q -> 0 <= usable_bins fft_data k ->
  select_step fft_data k index positions g
  = Return (keep_new positions
              (position_draw (usable_bins fft_data k) (draw g 0)),
            advance 1 g).
Proof.
  intros Hk Hu. unfold select_step, bind at 1, lift.
  rewrite floordiv_int_eval by assumption. fold (usable_bins fft_data k).
  unfold bind. rewrite randint_eval by assumption.
  fold (position_draw (usable_bins fft_data k) (draw g 0)).
  unfold keep_new. destruct (bool_decide _); reflexivity.
Qed.

Lemma for_invariant {A S} (I : S -> Prop) (body : A -> S -> M S) :
  (forall x s g s' g', I s -> body x s g = Return (s', g') -> I s') ->
  forall xs s g s' g',
    I s -> for_ xs body s g = Return (s', g') -> I s'.
Proof.
  intros Hbody xs. induction xs as [| x xs IH]; intros s g s' g' Hs.
  - cbn. unfold ret. intros [= <- _]. exact Hs.
  - cbn [for_]. unfold bind.
    destruct (body x s g) as [e | [s1 g1]] eqn:E; [discriminate |].
    apply IH. eapply Hbody; eassumption.
Qed.

Lemma ofor_invariant {A S} (I : S -> Prop) (body : A -> S -> outcome S) :
  (forall x s s', I s -> body x s = Return s' -> I s') ->
  forall xs s s', I s -> ofor xs body s = Return s' -> I s'.
Proof.
  intros Hbody xs. induction xs as [| x xs IH]; intros s s' Hs.
  - cbn. intros [= <-]. exact Hs.
  - cbn [ofor]. destruct (body x s) as [e | s1] eqn:E; [discriminate |].
    apply IH. eapply Hbody; eassumption.
Qed.

Lemma select_step_ok fft_data k index positions g positions' g' :
  positions_ok (usable_bins fft_data k) positions ->
  select_step fft_data k index positions g = Return (positions', g') ->
  positions_ok (usable_bins fft_data k) positions'.
Proof.
  intros [Hr Hn]. unfold select_step, bind at 1, lift.
  destruct (floordiv_int (len fft_data) k) as [e | n] eqn:En; [discriminate |].
  apply floordiv_int_returns in En. destruct En as [_ ->].
  fold (usable_bins fft_data k). unfold bind.
  destruct (randint 0 (usable_bins fft_data k) g) as [e | [p g1]] eqn:Ep;
    [discriminate |].
  apply randint_range in Ep.
  case_bool_decide as Hin; unfold ret; intros [= <- _].
  - split; assumption.
  - split.
    + apply Forall_app. split; [assumption |]. repeat constructor; lia.
    + apply NoDup_app. split; [assumption |]. split.
      * intros x Hx Hx'. apply list_elem_of_singleton in Hx'. congruence.
      * apply NoDup_singleton.
Qed.

Lemma select_positions_ok fft_data k count g positions g' :
  select_positions fft_data k count g = Return (positions, g') ->
  positions_ok (usable_bins fft_data k) positions.
Proof.
  unfold select_positions. intros Hrun.
  eapply (for_invariant (positions_ok (usable_bins fft_data k)));
    [| | exact Hrun].
  - intros x s g0 s' g0'. apply select_step_ok.
  - split; constructor.
Qed.

(** C7. Every index the Bin Selector returns lies in the closed interval
    [0, usable bin count], with usable bin count the floor of the frame
    length over the K-factor, and the returned positions hold no
    duplicate. *)
Theorem select_positions_in_range_no_dup
    (fft_data : list C) (k_factor : Q) (count : Z) (g : rng)
    (positions : list Z) (g' : rng) :
  select_positions fft_data k_factor count g = Return (positions, g') ->
  Forall (fun p => 0 <= p <= usable_bins fft_data k_factor) positions
  /\ NoDup positions.
Proof.
  intros Hrun. unfold select_positions in Hrun.
  change (positions_ok (usable_bins fft_data k_factor) positions).
  revert Hrun.
  apply (for_invariant (positions_ok (usable_bins fft_data k_factor))).
  - intros index kept g0 kept' g0' Hkept Hstep.
    exact (select_step_ok _ _ _ _ _ _ _ Hkept Hstep).
  - split; [apply Forall_nil_2 | apply NoDup_nil_2].
Qed.

Lemma select_loop fft_data k g0 (m a : nat) positions :
  ~ (k == 0)%Q -> 0 <= usable_bins fft_data k ->
  for_ (map Z.of_nat (seq a m)) (select_step fft_data k) positions
    (advance a g0)
  = Return (foldl keep_new positions
              (map (fun i => position_draw (usable_bins fft_data k) (draw g0 i))
                 (seq a m)),
            advance (a + m) g0).
Proof.
  intros Hk Hu. revert a positions.
  induction m as [| m IH]; intros a positions.
  - cbn [seq map for_ foldl]. unfold ret. rewrite Nat.add_0_r. reflexivity.
  - cbn [seq map for_ foldl]. unfold bind.
    rewrite select_step_eval by assumption.
    rewrite advance_advance, Nat.add_1_r, IH.
    replace (draw (advance a g0) 0) with (draw g0 a)
      by (unfold draw, advance; cbn [tape cursor]; f_equal; lia).
    replace (S a + m)%nat with (a + S m)%nat by lia.
    reflexivity.
Qed.

Lemma select_positions_eval fft_data k (count : nat) g :
  (0 < k)%Q ->
  select_positions fft_data k (Z.of_nat count) g
  = Return (foldl keep_new []
              (drawn_positions (usable_bins fft_data k) g count),
            advance count g).
Proof.
  intros Hk. unfold select_positions.
  change (range3 0 (Z.of_nat count) 1) with (range1 (Z.of_nat count)).
  rewrite range1_unfold, Nat2Z.id.
  pose proof (select_loop fft_data k g count 0 [] (Qlt_not_0 k Hk)
                (usable_bins_nonneg fft_data k Hk)) as Hloop.
  rewrite advance_0 in Hloop. exact Hloop.
Qed.

Lemma keep_new_nil p : keep_new [] p = [p].
Proof.
  unfold keep_new. case_bool_decide as Hin; [| reflexivity].
  apply elem_of_nil in Hin. contradiction.
Qed.

Lemma keep_new_length positions p :
  (length (keep_new positions p) <= S (length positions))%nat
  /\ (length positions <= length (keep_new positions p))%nat.
Proof.
  unfold keep_new. case_bool_decide; rewrite ?length_app; cbn; lia.
Qed.

Lemma foldl_keep_new_length ds : forall positions,
  (length positions <= length (foldl keep_new positions ds)
   <= length positions + length ds)%nat.
Proof.
  induction ds as [| d ds IH]; intros positions; cbn [foldl length]; [lia |].
  specialize (IH (keep_new positions d)).
  pose proof (keep_new_length positions d). lia.
Qed.

(** The selection keeps as many positions as draws exactly when no draw
    repeats an earlier one. *)
Lemma foldl_keep_new_full ds : forall positions,
  length (foldl keep_new positions ds) = (length positions + length ds)%nat
  <-> NoDup ds /\ (forall x, x ∈ ds -> x ∉ positions).
Proof.
  induction ds as [| d ds IH]; intros positions; cbn [foldl length].
  - split; [intros _ | lia]. split; [constructor |].
    intros x Hx. apply elem_of_nil in Hx. contradiction.
  - pose proof (foldl_keep_new_length ds (keep_new positions d)) as Hlen.
    specialize (IH (keep_new positions d)).
    unfold keep_new in *. case_bool_decide as Hin.
    + split.
      * intros Heq. lia.
      * intros [_ Hfresh]. exfalso. apply (Hfresh d); [left | assumption].
    + rewrite length_app in *. cbn [length] in *.
      rewrite NoDup_cons.
      split.
      * intros Heq. destruct (proj1 IH ltac:(lia)) as [Hnd Hfresh].
        split; [split; [| assumption] |].
        -- intros Hd. apply (Hfresh d Hd). apply elem_of_app. right. left.
        -- intros x Hx. apply elem_of_cons in Hx. destruct Hx as [-> | Hx];
             [assumption |].
           intros Hp. apply (Hfresh x Hx). apply elem_of_app. left. exact Hp.
      * intros [[Hd Hnd] Hfresh].
        assert (Hall : forall x, x ∈ ds -> x ∉ positions ++ [d]).
        { intros x Hx Hp. apply elem_of_app in Hp. destruct Hp as [Hp | Hp].
          - apply (Hfresh x); [right; assumption | assumption].
          - apply list_elem_of_singleton in Hp. subst x. contradiction. }
        pose proof (proj2 IH (conj Hnd Hall)). lia.
Qed.

(** C2, counterexample. On a 513-bin frame with K-factor 2 (257 usable
    values) and six floats to place, a generator that repeats its draw
    yields a single position: a collision is skipped, not retried. *)
Lemma selector_does_not_retry :
  select_positions (replicate 513 (0, 0)%Q) 2 6 zero_tape
  = Return ([0], advance 6 zero_tape)
  /\ length [0] <> 6%nat.
Proof. split; [vm_compute; reflexivity | discriminate]. Qed.

(** C2, as the code has it. For every frame and positive K-factor, the Bin
    Selector makes exactly N draws, each in [0, usable bin count], and keeps
    a drawn value only if it was not drawn before.  The positions returned
    are distinct, lie in [0, usable bin count] and number at most N (at
    least one when N > 0); their number is N exactly when the N draws are
    pairwise distinct. *)
Theorem select_positions_at_most_count
    (fft_data : list C) (k_factor : Q) (count : nat) (g : rng) :
  (0 < k_factor)%Q ->
  let draws := drawn_positions (usable_bins fft_data k_factor) g count in
  exists positions,
    select_positions fft_data k_factor (Z.of_nat count) g
    = Return (positions, advance count g)
    /\ positions = foldl keep_new [] draws
    /\ Forall (fun p => 0 <= p <= usable_bins fft_data k_factor) positions
    /\ NoDup positions
    /\ (length positions <= count)%nat
    /\ (0 < count -> 0 < length positions)%nat
    /\ (length positions = count <-> NoDup draws).
Proof.
  intros Hk draws. pose proof (select_positions_eval fft_data k_factor count g Hk) as Hrun.
  fold draws in Hrun. exists (foldl keep_new [] draws).
  split; [exact Hrun |]. split; [reflexivity |].
  destruct (select_positions_ok _ _ _ _ _ _ Hrun) as [Hr Hn].
  assert (Hd : length draws = count)
    by (unfold draws, drawn_positions; rewrite length_map, length_seq; reflexivity).
  split; [exact Hr |]. split; [exact Hn |].
  pose proof (foldl_keep_new_length draws []) as Hlen. cbn [length] in Hlen.
  split; [lia |]. split.
  - intros Hpos. destruct draws as [| d ds]; cbn [length] in Hd; [lia |].
    cbn [foldl].
    pose proof (foldl_keep_new_length ds (keep_new [] d)) as Hl.
    rewrite keep_new_nil in *. cbn [length] in Hl. lia.
  - pose proof (foldl_keep_new_full draws []) as Hfull. cbn [length] in Hfull.
    rewrite Hd in Hfull. cbn [Nat.add] in Hfull. rewrite Hfull.
    split; [intros [H _]; exact H |].
    intros H. split; [exact H |]. intros x _ Hx.
    apply elem_of_nil in Hx. contradiction.
Qed.

Lemma select_positions_in_range_no_dup_witness :
  Forall (fun p => 0 <= p <= usable_bins frame9 (3 # 2)) [0; 1; 2; 3; 4; 5]
  /\ NoDup [0; 1; 2; 3; 4; 5].
Proof.
  apply (select_positions_in_range_no_dup frame9 (3 # 2) 6 counting_tape
           [0; 1; 2; 3; 4; 5] (advance 6 counting_tape)).
  vm_compute. reflexivity.
Defined.

Lemma select_positions_at_most_count_witness :
  (0 < 3 # 2)%Q /\
  (let draws := drawn_positions (usable_bins frame9 (3 # 2)) counting_tape 6 in
   exists positions,
     select_positions frame9 (3 # 2) (Z.of_nat 6) counting_tape
     = Return (positions, advance 6 counting_tape)
     /\ positions = foldl keep_new [] draws
     /\ Forall (fun p => 0 <= p <= usable_bins frame9 (3 # 2)) positions
     /\ NoDup positions
     /\ (length positions <= 6)%nat
     /\ (0 < 6 -> 0 < length positions)%nat
     /\ (length positions = 6%nat <-> NoDup draws)).
Proof.
  split; [reflexivity |].
  apply (select_positions_at_most_count frame9 (3 # 2) 6 counting_tape).
  reflexivity.
Defined.

(** ** The data phase *)

Lemma apply_data_loop k floats positions : forall (i : nat) fft_data,
  ofor (enumerate_from (Z.of_nat i) positions) (data_step k floats) fft_data
  = ofor (zip positions (drop i floats)) (add_float k) fft_data.
Proof.
  induction positions as [| p positions IH]; intros i fft_data; [reflexivity |].
  cbn [enumerate_from ofor data_step].
  replace (Z.of_nat i + 1) with (Z.of_nat (S i)) by lia.
  unfold len. destruct (Z.ltb_spec (Z.of_nat i) (Z.of_nat (length floats)))
    as [Hlt | Hge].
  - assert (Hd : drop i floats = float_at floats (Z.of_nat i) :: drop (S i) floats).
    { unfold float_at. rewrite Nat2Z.id.
      destruct (lookup_lt_is_Some_2 floats i ltac:(lia)) as [x Hx].
      rewrite (nth_lookup_Some _ _ _ _ Hx).
      apply drop_S. exact Hx. }
    rewrite Hd. cbn [zip zip_with ofor]. unfold add_float at 1. cbn [fst snd].
    destruct (iadd_at _ _ _) as [e | f1]; [reflexivity | apply IH].
  - rewrite IH. rewrite !drop_ge by lia. rewrite !zip_with_nil_r. reflexivity.
Qed.

(** The data phase is one addition per pair of a position and the float
    of the same rank. *)
Lemma apply_data_zip fft_data k floats positions :
  apply_data fft_data k floats positions
  = ofor (zip positions floats) (add_float k) fft_data.
Proof.
  unfold apply_data, enumerate.
  exact (apply_data_loop k floats positions 0 fft_data).
Qed.

Lemma bin_eqb_refl b : bin_eqb b b = true.
Proof.
  unfold bin_eqb. apply andb_true_iff.
  split; apply Qeq_bool_iff; reflexivity.
Qed.

Lemma count_modified_refl fft_data : count_modified fft_data fft_data = 0%nat.
Proof.
  induction fft_data as [| b l IH]; [reflexivity |].
  cbn [count_modified]. rewrite bin_eqb_refl, IH. reflexivity.
Qed.

Lemma count_modified_alter_le (g : C -> C) before : forall after j,
  (count_modified before (alter g j after)
   <= S (count_modified before after))%nat.
Proof.
  induction before as [| b before IH]; intros after j.
  - cbn. lia.
  - destruct after as [| a after]; [destruct j; cbn; lia |].
    destruct j as [| j]; cbn.
    + destruct (bin_eqb b (g a)), (bin_eqb b a); lia.
    + specialize (IH after j). destruct (bin_eqb b a); lia.
Qed.

Lemma count_modified_alter (g : C -> C) before : forall after j b,
  before !! j = Some b -> after !! j = Some b -> bin_eqb b (g b) = false ->
  count_modified before (alter g j after) = S (count_modified before after).
Proof.
  induction before as [| b0 before IH]; intros [| a after] j b Hb Ha Hg;
    try discriminate.
  destruct j as [| j]; cbn in Hb, Ha |- *.
  - injection Hb as ->. injection Ha as ->.
    rewrite Hg, bin_eqb_refl. reflexivity.
  - rewrite (IH after j b Hb Ha Hg). destruct (bin_eqb b0 a); lia.
Qed.

(** *** Bin indices *)

Lemma resolve_index_lt n i j : resolve_index n i = Return j -> (j < n)%nat.
Proof.
  unfold resolve_index.
  destruct (Z.leb_spec 0 i), (Z.ltb_spec i (Z.of_nat n)); cbn [andb];
    try (intros [= <-]; lia).
  all: destruct (Z.ltb_spec i 0), (Z.leb_spec (- Z.of_nat n) i); cbn [andb];
    try discriminate; intros [= <-]; lia.
Qed.

Lemma resolve_index_nonneg n i j :
  0 <= i -> resolve_index n i = Return j -> j = Z.to_nat i.
Proof.
  intros Hi. unfold resolve_index.
  destruct (Z.leb_spec 0 i); [| lia].
  destruct (Z.ltb_spec i (Z.of_nat n)); cbn [andb]; [intros [= <-]; reflexivity |].
  destruct (Z.ltb_spec i 0); [lia | discriminate].
Qed.

Lemma resolve_index_in_range n i :
  0 <= i < Z.of_nat n -> resolve_index n i = Return (Z.to_nat i).
Proof.
  intros Hi. unfold resolve_index.
  destruct (Z.leb_spec 0 i); [| lia].
  destruct (Z.ltb_spec i (Z.of_nat n)); [reflexivity | lia].
Qed.

Lemma resolve_index_minus_one n :
  (0 < n)%nat -> resolve_index n (-1) = Return (n - 1)%nat.
Proof.
  intros Hn. unfold resolve_index. cbn [Z.leb andb Z.ltb Z.compare].
  destruct (Z.leb_spec (- Z.of_nat n) (-1)); [| lia].
  f_equal. lia.
Qed.

Lemma iadd_at_returns fft_data i x fft_data' :
  iadd_at fft_data i x = Return fft_data' ->
  exists j, resolve_index (length fft_data) i = Return j
            /\ fft_data' = alter (fun b => cadd_real b x) j fft_data.
Proof.
  unfold iadd_at.
  destruct (resolve_index (length fft_data) i) as [e | j]; [discriminate |].
  intros [= <-]. exists j. split; reflexivity.
Qed.

Lemma py_int_nonneg x : (0 <= x)%Q -> py_int x = Qfloor x /\ 0 <= Qfloor x.
Proof.
  intros Hx. unfold py_int.
  rewrite (proj2 (Qle_bool_iff 0 x) Hx). split; [reflexivity |].
  change 0 with (Qfloor (inject_Z 0)). apply Qfloor_resp_le. exact Hx.
Qed.

Lemma bin_of_nonneg k p : 0 <= p -> (0 <= k)%Q -> 0 <= bin_of k p.
Proof.
  intros Hp Hk. unfold bin_of.
  assert (H0 : (0 <= inject_Z p)%Q)
    by (change 0%Q with (inject_Z 0); rewrite <- Zle_Qle; exact Hp).
  destruct (py_int_nonneg _ (fmul_nonneg _ _ H0 Hk)) as [-> H]. exact H.
Qed.

(** *** A run of additions *)

Lemma add_floats_spec k (ws : list (Z * spec_float)) :
  forall fft_data fft_data',
    ofor ws (add_float k) fft_data = Return fft_data' ->
    length fft_data' = length fft_data
    /\ (count_modified fft_data fft_data' <= length ws)%nat
    /\ (forall j,
          (forall w, w ∈ ws ->
             resolve_index (length fft_data) (bin_of k (fst w)) <> Return j) ->
          fft_data' !! j = fft_data !! j)
    /\ (Forall (fun w => 0 <= bin_of k (fst w)) ws ->
        NoDup (map (fun w => bin_of k (fst w)) ws) ->
        Forall (fun w => forall b,
                  fft_data !! Z.to_nat (bin_of k (fst w)) = Some b ->
                  bin_eqb b (cadd_real b (float_value (snd w))) = false) ws ->
        count_modified fft_data fft_data' = length ws).
Proof.
  induction ws as [| w ws IH] using rev_ind; intros fft_data fft_data' Hrun.
  - cbn in Hrun. injection Hrun as <-.
    rewrite count_modified_refl. cbn [length].
    split; [reflexivity |]. split; [lia |]. split; reflexivity.
  - rewrite ofor_app in Hrun.
    destruct (ofor ws (add_float k) fft_data) as [e | f1] eqn:E1;
      [discriminate |].
    destruct (IH fft_data f1 E1) as (Hlen & Hle & Hsame & Hfull).
    cbn [ofor] in Hrun.
    destruct (add_float k w f1) as [e | f2] eqn:E2; [discriminate |].
    injection Hrun as <-.
    unfold add_float in E2. fold (bin_of k (fst w)) in E2.
    apply iadd_at_returns in E2. destruct E2 as (j & Hj & ->).
    rewrite Hlen in Hj.
    rewrite length_alter, length_app. cbn [length].
    split; [exact Hlen |]. split; [| split].
    + pose proof (count_modified_alter_le
                    (fun b => cadd_real b (float_value (snd w)))
                    fft_data f1 j). lia.
    + intros j' Hj'.
      assert (j <> j').
      { intros <-. apply (Hj' w); [| exact Hj].
        apply elem_of_app. right. left. }
      rewrite list_lookup_alter_ne by assumption.
      apply Hsame. intros w' Hw'. apply Hj'. apply elem_of_app. left. exact Hw'.
    + intros Hnn Hnd Hnz.
      apply Forall_app in Hnn. destruct Hnn as [Hnn Hnnw].
      apply Forall_app in Hnz. destruct Hnz as [Hnz Hnzw].
      rewrite map_app in Hnd. apply NoDup_app in Hnd.
      destruct Hnd as (Hnd & Hdisj & _).
      rewrite Forall_singleton in Hnnw. rewrite Forall_singleton in Hnzw.
      pose proof (resolve_index_lt _ _ _ Hj) as Hlt.
      destruct (lookup_lt_is_Some_2 fft_data j Hlt) as [b Hb].
      assert (Hsamej : f1 !! j = Some b).
      { rewrite <- Hb. apply Hsame. intros w' Hw' Hrj.
        apply (Hdisj (bin_of k (fst w'))).
        - change (bin_of k w'.1 ∈ (fun w => bin_of k w.1) <$> ws).
          apply list_elem_of_fmap. exists w'. split; [reflexivity | exact Hw'].
        - pose proof (proj1 (Forall_forall _ _) Hnn w' Hw') as Hw0.
          cbn beta in Hw0.
          pose proof (resolve_index_nonneg _ _ _ Hw0 Hrj).
          pose proof (resolve_index_nonneg _ _ _ Hnnw Hj).
          assert (bin_of k (fst w') = bin_of k (fst w)) as -> by lia.
          left. }
      assert (Hchange : bin_eqb b (cadd_real b (float_value (snd w))) = false).
      { apply Hnzw. rewrite <- (resolve_index_nonneg _ _ _ Hnnw Hj). exact Hb. }
      rewrite (count_modified_alter _ fft_data f1 j b Hb Hsamej Hchange).
      rewrite (Hfull Hnn Hnd Hnz). lia.
Qed.

(** C6, counterexample. With K-factor 1/2 the positions 0 and 1 both
    address bin 0: two floats are added and one bin is modified, not
    min(2, 2) = 2. *)
Lemma data_phase_positions_share_a_bin :
  exists fft_data',
    apply_data silent4 (1 # 2) [float_Hi; float_Hi] [0; 1] = Return fft_data'
    /\ count_modified silent4 fft_data' = 1%nat
    /\ count_modified silent4 fft_data'
       <> Nat.min (length [0; 1]) (length [float_Hi; float_Hi]).
Proof.
  eexists. split; [vm_compute; reflexivity |].
  split; [reflexivity | discriminate].
Qed.

(** A second way to modify fewer bins: the float64 sum of a bin of
    magnitude 128 and a float of about [2^-47] is the bin itself, so the one
    addition made leaves the frame as it was. *)
Lemma data_phase_addition_absorbed :
  exists fft_data',
    apply_data (replicate 4 (128, 0)%Q) 1 [float_Hi] [0] = Return fft_data'
    /\ count_modified (replicate 4 (128, 0)%Q) fft_data' = 0%nat.
Proof.
  eexists. split; [vm_compute; reflexivity | reflexivity].
Qed.

Lemma zip_positions_targets k (positions : list Z) (floats : list spec_float) :
  map (fun w => bin_of k (fst w)) (zip positions floats)
  = map (bin_of k) (take (length floats) positions).
Proof.
  rewrite <- (zip_with_take_l pair positions floats).
  rewrite <- (fst_zip (take (length floats) positions) floats) at 2
    by (rewrite length_take; lia).
  change (map (bin_of k) ((zip (take (length floats) positions) floats).*1))
    with (bin_of k <$> (fst <$> zip (take (length floats) positions) floats)).
  rewrite <- list_fmap_compose. reflexivity.
Qed.

(** C6, as the code has it. The data phase performs exactly
    min(|positions|, |floats|) additions: the position of rank [r] below the
    float count receives the float of rank [r] at bin [int(position * K)],
    the product being a float64 product, and positions of rank at or above
    the float count are not used.  The frame keeps its length and at most
    that many bins are modified; exactly that many when the bins of the used
    positions are non-negative and pairwise distinct and every float changes
    the value of the input bin it is added to. *)
Theorem apply_data_additions
    (fft_data : list C) (k_factor : Q) (floats : list spec_float)
    (positions : list Z) :
  let n := Nat.min (length positions) (length floats) in
  apply_data fft_data k_factor floats positions
  = ofor (zip positions floats)
      (fun w fft_data =>
         iadd_at fft_data (bin_of k_factor (fst w)) (float_value (snd w)))
      fft_data
  /\ length (zip positions floats) = n
  /\ apply_data fft_data k_factor floats positions
     = apply_data fft_data k_factor floats (take (length floats) positions)
  /\ forall fft_data',
       apply_data fft_data k_factor floats positions = Return fft_data' ->
       length fft_data' = length fft_data
       /\ (count_modified fft_data fft_data' <= n)%nat
       /\ (Forall (fun p => 0 <= bin_of k_factor p)
             (take (length floats) positions) ->
           NoDup (map (bin_of k_factor) (take (length floats) positions)) ->
           Forall (fun w => forall b,
                     fft_data !! Z.to_nat (bin_of k_factor (fst w)) = Some b ->
                     bin_eqb b (cadd_real b (float_value (snd w))) = false)
             (zip positions floats) ->
           count_modified fft_data fft_data' = n).
Proof.
  intros n.
  assert (Hn : length (zip positions floats) = n) by apply length_zip_with.
  split; [apply apply_data_zip |]. split; [exact Hn |]. split.
  - rewrite !apply_data_zip, zip_with_take_l. reflexivity.
  - intros fft_data' Hrun. rewrite apply_data_zip in Hrun.
    destruct (add_floats_spec k_factor _ _ _ Hrun) as (Hlen & Hle & _ & Hfull).
    rewrite Hn in Hle, Hfull.
    split; [exact Hlen |]. split; [exact Hle |].
    intros Hpos Hnd Hch. apply Hfull.
    + apply Forall_forall. intros [p x] Hw. cbn [fst].
      rewrite <- (zip_with_take_l pair positions floats) in Hw.
      apply elem_of_zip_l in Hw.
      exact (proj1 (Forall_forall _ _) Hpos p Hw).
    + rewrite zip_positions_targets. exact Hnd.
    + exact Hch.
Qed.

Lemma apply_data_additions_witness :
  exists fft_data',
    apply_data silent4 1 [float_Hi; float_Hi] [0; 1; 2] = Return fft_data'
    /\ count_modified silent4 fft_data' = 2%nat.
Proof.
  destruct (apply_data_additions silent4 1 [float_Hi; float_Hi] [0; 1; 2])
    as (_ & _ & _ & H).
  eexists. split; [vm_compute; reflexivity |].
  apply H.
  - vm_compute. reflexivity.
  - repeat constructor; vm_compute; discriminate.
  - apply (bool_decide_unpack (NoDup [0; 1])). vm_compute. exact I.
  - repeat constructor; intros b Hb; vm_compute in Hb;
      injection Hb as <-; reflexivity.
Defined.

(** ** The randomization phase *)

Lemma random_unit_range r : (0 <= random_unit r)%Q /\ (random_unit r < 1)%Q.
Proof.
  unfold random_unit. pose proof (Z.mod_pos_bound r (2 ^ 53) ltac:(lia)) as Hm.
  unfold Qle, Qlt. cbn [Qnum Qden]. lia.
Qed.

(** The rounded sum and product of [uniform(-5, 5)] stay in the closed
    range: rounding is monotone and the ends are float64 numbers. *)
Lemma jitter_range raw : (-5 <= jitter raw)%Q /\ (jitter raw <= 5)%Q.
Proof.
  unfold jitter. destruct (random_unit_range raw) as [H0 H1].
  assert (E10 : (fsub 5 (-5) == 10)%Q) by (vm_compute; reflexivity).
  set (c := fsub 5 (-5)) in *. set (u := random_unit raw) in *.
  assert (Hp : (0 <= fmul c u /\ fmul c u <= 10)%Q).
  { unfold fmul, round64. split.
    - apply (round_to_ge_Z 53 _ 0); [lia | split; [lia | reflexivity] |].
      change (inject_Z 0) with 0%Q. rewrite E10. lra.
    - apply (round_to_le_Z 53 _ 10); [lia | split; [lia | reflexivity] |].
      change (inject_Z 10) with 10%Q. rewrite E10. lra. }
  destruct Hp as [Hp0 Hp1]. unfold fadd, round64. split.
  - assert (E : (-5 <= round_to 53 (-5))%Q) by (vm_compute; discriminate).
    apply Qle_trans with (round_to 53 (-5)); [exact E |].
    apply round_to_mono; [lia | lra].
  - apply (round_to_le_Z 53 _ 5); [lia | split; [lia | reflexivity] |].
    change (inject_Z 5) with 5%Q. lra.
Qed.

Lemma uniform_eval g :
  uniform (-5) 5 g = Return (jitter (draw g 0), advance 1 g).
Proof.
  unfold uniform, bind, next_raw, ret, jitter, draw.
  rewrite Nat.add_0_r. reflexivity.
Qed.

Lemma range3_from_cons start stop :
  start < stop -> range3 start stop 1 = start :: range3 (start + 1) stop 1.
Proof.
  intros Hlt. rewrite !range3_unfold by lia.
  rewrite !Z.div_1_r.
  replace (Z.to_nat (stop - start + 1 - 1))
    with (S (Z.to_nat (stop - (start + 1) + 1 - 1))) by lia.
  cbn [seq map]. rewrite <- seq_shift, map_map.
  f_equal; [lia |]. apply map_ext. intros j. lia.
Qed.

Lemma usable_bins_positive fft_data k :
  1 <= usable_bins fft_data k -> ~ (k == 0)%Q /\ (0 < length fft_data)%nat.
Proof.
  unfold usable_bins, len. intros Hu. split.
  - intros Hk. rewrite Hk in Hu. unfold Qdiv in Hu. 
    change (/ 0)%Q with 0%Q in Hu. rewrite Qmult_0_r in Hu.
    change (Qfloor 0) with 0 in Hu. lia.
  - destruct (length fft_data) eqn:E; [| lia].
    change (inject_Z (Z.of_nat 0)) with 0%Q in Hu.
    unfold Qdiv in Hu. rewrite Qmult_0_l in Hu.
    change (Qfloor 0) with 0 in Hu. lia.
Qed.

Lemma fmul_zero_l k : fmul (inject_Z 0) k = 0%Q.
Proof. destruct k as [n d]. reflexivity. Qed.

Lemma py_int_zero_times k : py_int (fmul (inject_Z 0) k) - 1 = -1.
Proof. rewrite fmul_zero_l. reflexivity. Qed.

(** C10. In the randomization phase, when index 0 is in the loop (the
    usable bin count is at least 1) and is not a selected position, its
    target index is [int(0 * K) - 1 = -1], which numpy resolves to the last
    bin of the frame: the first turn of the loop adds a draw [r] of
    [uniform(-5, 5)] to the last bin, whose real part becomes the float64
    sum of its old value and [r] while its imaginary part and every other
    bin stay as they were, and the loop goes on from index 1 on the frame so
    modified. *)
Theorem randomness_index_zero_hits_last_bin
    (fft_data : list C) (k_factor : Q) (positions : list Z) (g : rng) :
  1 <= usable_bins fft_data k_factor -> 0 ∉ positions ->
  let r := jitter (draw g 0) in
  let last_bin := (length fft_data - 1)%nat in
  py_int (fmul (inject_Z 0) k_factor) - 1 = -1
  /\ resolve_index (length fft_data) (-1) = Return last_bin
  /\ (-5 <= r)%Q /\ (r <= 5)%Q
  /\ exists fft_data',
       randomness_step k_factor positions 0 fft_data g
       = Return (fft_data', advance 1 g)
       /\ length fft_data' = length fft_data
       /\ (exists re im,
             fft_data !! last_bin = Some (re, im)
             /\ fft_data' !! last_bin = Some (round64 (re + r), im))
       /\ (forall j, j <> last_bin -> fft_data' !! j = fft_data !! j)
       /\ apply_randomness fft_data k_factor positions g
          = for_ (range3 1 (usable_bins fft_data k_factor) 1)
              (randomness_step k_factor positions) fft_data' (advance 1 g).
Proof.
  intros Hu H0 r last_bin.
  destruct (usable_bins_positive fft_data k_factor Hu) as [Hk Hlen].
  pose proof (py_int_zero_times k_factor) as Hidx.
  pose proof (resolve_index_minus_one (length fft_data) Hlen) as Hres.
  destruct (jitter_range (draw g 0)) as [Hlo Hhi].
  assert (Hstep : randomness_step k_factor positions 0 fft_data g
            = Return (alter (fun b => cadd_real b r) last_bin fft_data,
                      advance 1 g)).
  { unfold randomness_step. rewrite bool_decide_eq_false_2 by assumption.
    unfold bind. rewrite uniform_eval. rewrite Hidx.
    unfold lift, iadd_at. rewrite Hres. reflexivity. }
  split; [exact Hidx |]. split; [exact Hres |].
  split; [exact Hlo |]. split; [exact Hhi |].
  exists (alter (fun b => cadd_real b r) last_bin fft_data).
  split; [exact Hstep |]. split; [apply length_alter |]. split; [| split].
  - destruct (lookup_lt_is_Some_2 fft_data last_bin ltac:(unfold last_bin; lia))
      as [[re im] Hb].
    exists re, im. split; [exact Hb |].
    rewrite list_lookup_alter_eq. unfold C in *. rewrite Hb. reflexivity.
  - intros j Hj. apply list_lookup_alter_ne. congruence.
  - unfold apply_randomness, bind at 1, lift.
    rewrite floordiv_int_eval by assumption.
    fold (usable_bins fft_data k_factor).
    unfold range1. rewrite range3_from_cons by lia.
    cbn [for_ Z.add]. unfold bind. rewrite Hstep. reflexivity.
Qed.

Lemma randomness_index_zero_hits_last_bin_witness :
  1 <= usable_bins frame9 (3 # 2) /\ (0 ∉ [2; 4]) /\
  (let r := jitter (draw counting_tape 0) in
   let last_bin := (length frame9 - 1)%nat in
   py_int (fmul (inject_Z 0) (3 # 2)) - 1 = -1
   /\ resolve_index (length frame9) (-1) = Return last_bin
   /\ (-5 <= r)%Q /\ (r <= 5)%Q
   /\ exists fft_data',
        randomness_step (3 # 2) [2; 4] 0 frame9 counting_tape
        = Return (fft_data', advance 1 counting_tape)
        /\ length fft_data' = length frame9
        /\ (exists re im,
              frame9 !! last_bin = Some (re, im)
              /\ fft_data' !! last_bin = Some (round64 (re + r), im))
        /\ (forall j, j <> last_bin -> fft_data' !! j = frame9 !! j)
        /\ apply_randomness frame9 (3 # 2) [2; 4] counting_tape
           = for_ (range3 1 (usable_bins frame9 (3 # 2)) 1)
               (randomness_step (3 # 2) [2; 4]) fft_data'
               (advance 1 counting_tape)).
Proof.
  assert (Hu : 1 <= usable_bins frame9 (3 # 2)) by (vm_compute; discriminate).
  assert (H0 : 0 ∉ [2; 4]).
  { intros H. apply elem_of_cons in H. destruct H as [H | H]; [lia |].
    apply elem_of_cons in H. destruct H as [H | H]; [lia |].
    apply elem_of_nil in H. exact H. }
  split; [exact Hu |]. split; [exact H0 |].
  exact (randomness_index_zero_hits_last_bin frame9 (3 # 2) [2; 4]
           counting_tape Hu H0).
Defined.

(** In a frame of [process_fft], an unselected 0 means some other position
    was selected, so the usable bin count is at least 1 and index 0 is in
    the randomization loop. *)
Lemma select_step_nonempty fft_data k index positions g positions' g' :
  select_step fft_data k index positions g = Return (positions', g') ->
  positions' <> [].
Proof.
  unfold select_step, bind at 1, lift.
  destruct (floordiv_int (len fft_data) k) as [e | n]; [discriminate |].
  unfold bind.
  destruct (randint 0 n g) as [e | [p g1]]; [discriminate |].
  case_bool_decide as Hin; unfold ret; intros [= <- _].
  - intros ->. apply elem_of_nil in Hin. exact Hin.
  - intros Happ. apply app_eq_nil in Happ. destruct Happ as [_ Hp].
    discriminate Hp.
Qed.

Lemma select_positions_nonempty fft_data k count g positions g' :
  0 < count ->
  select_positions fft_data k count g = Return (positions, g') ->
  positions <> [].
Proof.
  intros Hc. unfold select_positions.
  rewrite range3_from_cons by lia. cbn [for_]. unfold bind.
  destruct (select_step fft_data k 0 [] g) as [e | [p1 g1]] eqn:E1;
    [discriminate |].
  apply select_step_nonempty in E1.
  apply (for_invariant (fun ps => ps <> [])); [| exact E1].
  intros x s g0 s' g0' _. apply select_step_nonempty.
Qed.

Lemma unselected_zero_in_loop fft_data k count g positions g' :
  0 < count ->
  select_positions fft_data k count g = Return (positions, g') ->
  0 ∉ positions ->
  1 <= usable_bins fft_data k.
Proof.
  intros Hc Hrun H0.
  pose proof (select_positions_nonempty _ _ _ _ _ _ Hc Hrun) as Hne.
  destruct (select_positions_ok _ _ _ _ _ _ Hrun) as [Hr _].
  destruct positions as [| p ps]; [congruence |].
  apply Forall_cons in Hr. destruct Hr as [Hp _].
  assert (p <> 0) by (intros ->; apply H0; left).
  lia.
Qed.

(** ** The frame embedding keeps the frame's shape *)

Lemma alter_cadd_real_imag x j (fft_data : list C) :
  map snd (alter (fun b => cadd_real b x) j fft_data) = map snd fft_data.
Proof.
  revert j. induction fft_data as [| b l IH]; intros [| j]; cbn;
    try reflexivity.
  f_equal. apply IH.
Qed.

Lemma iadd_at_shape fft_data i x fft_data' :
  iadd_at fft_data i x = Return fft_data' ->
  map snd fft_data' = map snd fft_data.
Proof.
  intros H. apply iadd_at_returns in H. destruct H as (j & _ & ->).
  apply alter_cadd_real_imag.
Qed.

Lemma apply_randomness_shape fft_data k positions g fft_data' g' :
  apply_randomness fft_data k positions g = Return (fft_data', g') ->
  map snd fft_data' = map snd fft_data.
Proof.
  unfold apply_randomness, bind at 1, lift.
  destruct (floordiv_int (len fft_data) k) as [e | n]; [discriminate |].
  apply (for_invariant (fun f1 => map snd f1 = map snd fft_data));
    [| reflexivity].
  intros x s g0 s' g0' Hs. unfold randomness_step.
  case_bool_decide.
  - unfold ret. intros [= <- _]. exact Hs.
  - unfold bind. rewrite uniform_eval. unfold lift.
    destruct (iadd_at s _ _) as [e | s1] eqn:E; [discriminate |].
    intros [= <- _]. rewrite (iadd_at_shape _ _ _ _ E). exact Hs.
Qed.

Lemma apply_data_shape fft_data k floats positions fft_data' :
  apply_data fft_data k floats positions = Return fft_data' ->
  map snd fft_data' = map snd fft_data.
Proof.
  rewrite apply_data_zip.
  apply (ofor_invariant (fun f1 => map snd f1 = map snd fft_data));
    [| reflexivity].
  intros w s s' Hs Hw. unfold add_float in Hw.
  rewrite (iadd_at_shape _ _ _ _ Hw). exact Hs.
Qed.

(** C8. Embedding keeps the frame's length. For every frame, K-factor,
    positions, floats and random draws, the frame returned by the
    randomization phase followed by the data phase has as many bins as the
    input frame and the same imaginary part in every bin: bins change only
    by real amounts added to them. The same holds of the frame
    [process_fft] returns, which runs the two phases on the positions it
    selects and the floats it synthesizes. *)
Theorem embedding_preserves_shape
    (fft_data : list C) (k_factor : Q) (positions : list Z)
    (floats : list spec_float) (g : rng) :
  (forall masked g' embedded,
     apply_randomness fft_data k_factor positions g = Return (masked, g') ->
     apply_data masked k_factor floats positions = Return embedded ->
     length embedded = length fft_data
     /\ map snd embedded = map snd fft_data)
  /\ (forall fft_data' g',
        process_fft fft_data k_factor g = Return (fft_data', g') ->
        length fft_data' = length fft_data
        /\ map snd fft_data' = map snd fft_data).
Proof.
  assert (Hphases : forall ps fs g0 masked g' embedded,
            apply_randomness fft_data k_factor ps g0 = Return (masked, g') ->
            apply_data masked k_factor fs ps = Return embedded ->
            length embedded = length fft_data
            /\ map snd embedded = map snd fft_data).
  { intros ps fs g0 masked g' embedded E1 E2.
    apply apply_randomness_shape in E1. apply apply_data_shape in E2.
    assert (Hs : map snd embedded = map snd fft_data)
      by (exact (eq_trans E2 E1)).
    split; [| exact Hs].
    apply (f_equal length) in Hs. rewrite !length_map in Hs. exact Hs. }
  split; [apply Hphases |].
  intros fft_data' g'. unfold process_fft, bind.
  destruct (compress hello_world g) as [e | [fs g1]]; [discriminate |].
  destruct (select_positions fft_data k_factor (len fs) g1)
    as [e | [ps g2]]; [discriminate |].
  destruct (apply_randomness fft_data k_factor ps g2)
    as [e | [masked g3]] eqn:E1; [discriminate |].
  unfold lift.
  destruct (apply_data masked k_factor fs ps) as [e | embedded] eqn:E2;
    [discriminate |].
  unfold ret. intros Heq. injection Heq as Hf _. subst fft_data'.
  exact (Hphases ps fs g2 masked g3 embedded E1 E2).
Qed.

Lemma embedding_preserves_shape_witness :
  exists fft_data' g',
    process_fft frame9 (5 # 2) zero_tape = Return (fft_data', g')
    /\ length fft_data' = length frame9
    /\ map snd fft_data' = map snd frame9.
Proof.
  destruct (process_fft frame9 (5 # 2) zero_tape) as [e | [f' g']] eqn:E;
    [vm_compute in E; discriminate E |].
  exists f', g'. split; [reflexivity |].
  exact (proj2 (embedding_preserves_shape frame9 (5 # 2) [] [] zero_tape)
           f' g' E).
Defined.

(** ** When the frame embedding returns *)

Lemma for_returns {A S} (I : S -> Prop) (body : A -> S -> M S) (xs : list A) :
  (forall x, x ∈ xs -> forall s g, I s ->
     exists s' g', body x s g = Return (s', g') /\ I s') ->
  forall s g, I s -> exists s' g', for_ xs body s g = Return (s', g') /\ I s'.
Proof.
  induction xs as [| x xs IH]; intros Hbody s g Hs.
  - exists s, g. split; [reflexivity | exact Hs].
  - destruct (Hbody x ltac:(left) s g Hs) as (s1 & g1 & E1 & Hs1).
    destruct (IH (fun y Hy => Hbody y ltac:(right; exact Hy)) s1 g1 Hs1)
      as (s2 & g2 & E2 & Hs2).
    exists s2, g2. split; [| exact Hs2].
    cbn [for_]. unfold bind. rewrite E1. exact E2.
Qed.

Lemma ofor_returns {A S} (I : S -> Prop) (body : A -> S -> outcome S)
    (xs : list A) :
  (forall x, x ∈ xs -> forall s, I s ->
     exists s', body x s = Return s' /\ I s') ->
  forall s, I s -> exists s', ofor xs body s = Return s' /\ I s'.
Proof.
  induction xs as [| x xs IH]; intros Hbody s Hs.
  - exists s. split; [reflexivity | exact Hs].
  - destruct (Hbody x ltac:(left) s Hs) as (s1 & E1 & Hs1).
    destruct (IH (fun y Hy => Hbody y ltac:(right; exact Hy)) s1 Hs1)
      as (s2 & E2 & Hs2).
    exists s2. split; [| exact Hs2].
    cbn [ofor]. rewrite E1. exact E2.
Qed.

Lemma elem_of_range1 i n : i ∈ range1 n -> 0 <= i < n.
Proof.
  rewrite range1_unfold. intros Hi.
  change (i ∈ Z.of_nat <$> seq 0 (Z.to_nat n)) in Hi.
  apply list_elem_of_fmap in Hi. destruct Hi as (j & -> & Hj).
  apply elem_of_seq in Hj. lia.
Qed.

(** The usable bin count times the K-factor does not exceed the frame. *)
Lemma usable_bins_scaled fft_data k :
  (0 < k)%Q ->
  (inject_Z (usable_bins fft_data k) * k <= inject_Z (len fft_data))%Q.
Proof.
  intros Hk. unfold usable_bins.
  pose proof (Qfloor_le (inject_Z (len fft_data) / k)) as Hfl.
  apply (Qmult_le_compat_r _ _ k) in Hfl; [| lra].
  assert (Hd : (inject_Z (len fft_data) / k * k == inject_Z (len fft_data))%Q)
    by (field; apply Qlt_not_0; exact Hk).
  rewrite Hd in Hfl. exact Hfl.
Qed.

Lemma bin_of_monotone k p q :
  (0 <= k)%Q -> 0 <= p <= q -> 0 <= bin_of k p <= bin_of k q.
Proof.
  intros Hk Hpq. split; [apply bin_of_nonneg; [lia | exact Hk] |].
  unfold bin_of.
  assert (Hp0 : (0 <= inject_Z p)%Q)
    by (change 0%Q with (inject_Z 0); rewrite <- Zle_Qle; lia).
  assert (Hq0 : (0 <= inject_Z q)%Q)
    by (change 0%Q with (inject_Z 0); rewrite <- Zle_Qle; lia).
  destruct (py_int_nonneg _ (fmul_nonneg _ _ Hp0 Hk)) as [-> _].
  destruct (py_int_nonneg _ (fmul_nonneg _ _ Hq0 Hk)) as [-> _].
  apply Qfloor_resp_le. unfold fmul, round64.
  apply round_to_mono; [lia |].
  apply Qmult_le_compat_r; [| exact Hk].
  rewrite <- Zle_Qle. lia.
Qed.

(** Every index of the randomization loop addresses a bin: the exact
    product stays below the frame length, a float64 number, and rounding
    does not cross it. *)
Lemma randomness_target_in_range fft_data k i :
  (0 < k)%Q -> len fft_data < 2 ^ 53 -> 0 <= i < usable_bins fft_data k ->
  - len fft_data <= bin_of k i - 1 < len fft_data.
Proof.
  intros Hk Hrep Hi.
  pose proof (bin_of_nonneg k i ltac:(lia) ltac:(lra)) as Hnn.
  destruct (usable_bins_positive fft_data k ltac:(lia)) as [_ Hlen].
  split; [unfold len; lia |].
  assert (Hle : bin_of k i <= len fft_data); [| lia].
  unfold bin_of.
  assert (Hi0 : (0 <= inject_Z i)%Q)
    by (change 0%Q with (inject_Z 0); rewrite <- Zle_Qle; lia).
  assert (Hk0 : (0 <= k)%Q) by lra.
  destruct (py_int_nonneg _ (fmul_nonneg _ _ Hi0 Hk0)) as [-> _].
  rewrite <- (Qfloor_Z (len fft_data)). apply Qfloor_resp_le.
  unfold fmul, round64.
  apply round_to_le_Z; [lia | split; [unfold len; lia | exact Hrep] |].
  pose proof (usable_bins_scaled fft_data k Hk) as Hu.
  assert (Hi1 : (inject_Z i + 1 <= inject_Z (usable_bins fft_data k))%Q).
  { change 1%Q with (inject_Z 1). rewrite <- inject_Z_plus, <- Zle_Qle. lia. }
  apply (Qmult_le_compat_r _ _ k) in Hi1; [| lra].
  lra.
Qed.

Lemma iadd_at_in_range fft_data i x :
  - len fft_data <= i < len fft_data ->
  exists fft_data',
    iadd_at fft_data i x = Return fft_data'
    /\ length fft_data' = length fft_data.
Proof.
  intros Hi. unfold iadd_at, resolve_index, len in *.
  destruct (Z.leb_spec 0 i), (Z.ltb_spec i (Z.of_nat (length fft_data)));
    cbn [andb]; try lia.
  - eexists. split; [reflexivity | apply length_alter].
  - destruct (Z.ltb_spec i 0), (Z.leb_spec (- Z.of_nat (length fft_data)) i);
      cbn [andb]; try lia.
    eexists. split; [reflexivity | apply length_alter].
Qed.

(** The randomization phase returns for every positive K-factor. *)
Lemma apply_randomness_returns fft_data k positions g :
  (0 < k)%Q -> len fft_data < 2 ^ 53 ->
  exists fft_data' g',
    apply_randomness fft_data k positions g = Return (fft_data', g')
    /\ length fft_data' = length fft_data.
Proof.
  intros Hk Hrep. unfold apply_randomness, bind at 1, lift.
  rewrite floordiv_int_eval by (apply Qlt_not_0; exact Hk).
  fold (usable_bins fft_data k).
  apply (for_returns (fun f1 => length f1 = length fft_data));
    [| reflexivity].
  intros i Hi s g0 Hs. apply elem_of_range1 in Hi.
  unfold randomness_step. case_bool_decide.
  - exists s, g0. split; [reflexivity | exact Hs].
  - unfold bind. rewrite uniform_eval. unfold lift.
    pose proof (randomness_target_in_range fft_data k i Hk Hrep Hi) as Ht.
    unfold bin_of in Ht.
    destruct (iadd_at_in_range s (py_int (fmul (inject_Z i) k) - 1)
                (jitter (draw g0 0))) as (s' & -> & Hlen).
    { unfold len in *. rewrite Hs. lia. }
    exists s', (advance 1 g0). split; [reflexivity | congruence].
Qed.

(** The data phase returns when every position addresses a bin. *)
Lemma apply_data_returns fft_data k floats positions :
  (0 < k)%Q ->
  Forall (fun p => 0 <= p <= usable_bins fft_data k) positions ->
  bin_of k (usable_bins fft_data k) < len fft_data ->
  exists fft_data',
    apply_data fft_data k floats positions = Return fft_data'.
Proof.
  intros Hk Hpos Hsafe. rewrite apply_data_zip.
  destruct (ofor_returns (fun f1 => length f1 = length fft_data)
              (add_float k) (zip positions floats)) with (s := fft_data)
    as (f' & Hf' & _); [| reflexivity | exists f'; exact Hf'].
  intros [p x] Hw s Hs. apply elem_of_zip_l in Hw.
  pose proof (proj1 (Forall_forall _ _) Hpos p Hw) as Hp. cbn beta in Hp.
  pose proof (bin_of_monotone k p (usable_bins fft_data k) ltac:(lra) Hp).
  unfold add_float. cbn [fst snd]. fold (bin_of k p).
  destruct (iadd_at_in_range s (bin_of k p) (float_value x))
    as (s' & -> & Hlen).
  { unfold len in *. rewrite Hs. lia. }
  exists s'. split; [reflexivity | congruence].
Qed.

Lemma hello_world_bytes : byte_string hello_world.
Proof. repeat constructor; unfold is_byte; lia. Qed.

(** In every frame the payload gives six floats, drawn from twelve raw
    draws, and the selection loop runs for six turns. *)
Lemma process_fft_eval fft_data k g :
  process_fft fft_data k g
  = (positions <- select_positions fft_data k 6 ;;
     masked <- apply_randomness fft_data k positions ;;
     embedded <- lift (apply_data masked k
                         (map (chunk_float hello_world g) (seq 0 6))
                         positions) ;;
     ret embedded) (advance 12 g).
Proof.
  unfold process_fft, bind at 1.
  rewrite compress_eval by apply hello_world_bytes. reflexivity.
Qed.

(** The frame embedding returns whenever the K-factor is positive and the
    largest selectable position addresses a bin of the frame. *)
Lemma process_fft_returns fft_data k g :
  (0 < k)%Q -> len fft_data < 2 ^ 53 ->
  bin_of k (usable_bins fft_data k) < len fft_data ->
  exists fft_data' g',
    process_fft fft_data k g = Return (fft_data', g')
    /\ length fft_data' = length fft_data.
Proof.
  intros Hk Hrep Hsafe. unfold process_fft, bind at 1.
  rewrite compress_eval by apply hello_world_bytes.
  unfold bind at 1. unfold len at 1.
  rewrite select_positions_eval by exact Hk.
  match goal with
  | |- context [foldl keep_new [] ?d] => set (positions := foldl keep_new [] d)
  end.
  assert (Hpos : Forall (fun p => 0 <= p <= usable_bins fft_data k) positions).
  { eapply select_positions_ok.
    apply (select_positions_eval fft_data k _ _ Hk). }
  unfold bind at 1.
  destruct (apply_randomness_returns fft_data k positions
              (advance (length (map (chunk_float hello_world g)
                                  (seq 0 (chunk_count hello_world))))
                 (advance (2 * chunk_count hello_world) g)) Hk Hrep)
    as (f1 & g1 & -> & Hlen1).
  assert (Hu : usable_bins f1 k = usable_bins fft_data k)
    by (unfold usable_bins, len; rewrite Hlen1; reflexivity).
  destruct (apply_data_returns f1 k
              (map (chunk_float hello_world g) (seq 0 (chunk_count hello_world)))
              positions Hk) as (f2 & Hf2).
  { rewrite Hu. exact Hpos. }
  { rewrite Hu. unfold len in *. rewrite Hlen1. exact Hsafe. }
  unfold bind, lift. rewrite Hf2. unfold ret.
  exists f2, g1. split; [reflexivity |].
  apply apply_data_shape in Hf2. apply (f_equal length) in Hf2.
  rewrite !length_map in Hf2. exact (eq_trans Hf2 Hlen1).
Qed.

(** ** The Overlap-Add Engine *)

Lemma clip_range n i : 0 <= n -> 0 <= clip n i <= n.
Proof. intros Hn. unfold clip. destruct (Z.ltb_spec i 0); lia. Qed.

Lemma slice_iadd_length target lo hi v target' :
  slice_iadd target lo hi v = Return target' ->
  length target' = length target.
Proof.
  unfold slice_iadd.
  pose proof (clip_range (len target) lo ltac:(unfold len; lia)) as Hlo.
  pose proof (clip_range (len target) hi ltac:(unfold len; lia)) as Hhi.
  set (a := Z.to_nat (clip (len target) lo)).
  set (n := Z.to_nat (clip (len target) hi - clip (len target) lo)).
  assert (Han : (a + n <= length target)%nat) by (unfold a, n, len in *; lia).
  destruct (decide (length v = n)) as [Hv | Hv].
  - intros [= <-]. rewrite !length_app, length_zip_with, !length_take,
      !length_drop. lia.
  - destruct (decide (length v = 1%nat)); [| discriminate].
    intros [= <-]. rewrite !length_app, length_map, !length_take,
      !length_drop. lia.
Qed.

Lemma broadcast_same_length {B} (f : Q -> Q -> B) a b :
  length a = length b ->
  broadcast f a b = Return (zip_with f a b).
Proof.
  intros Hl. unfold broadcast. destruct (decide (length a = length b));
    [reflexivity | contradiction].
Qed.

(** The floor keeps every divisor positive, so the division of the
    engine yields a number. *)
Lemma floor_eps_positive x : (0 < floor_eps x)%Q.
Proof.
  assert (He : (0 < float_1e_8)%Q) by (vm_compute; reflexivity).
  unfold floor_eps. destruct (Qle_bool x float_1e_8) eqn:E; [exact He |].
  apply Qnot_le_lt. intros H.
  assert (Hx : (x <= float_1e_8)%Q) by lra.
  apply Qle_bool_iff in Hx. congruence.
Qed.

Lemma np_true_divide_floor x y :
  np_true_divide x (floor_eps y) = Fin (fdiv x (floor_eps y)).
Proof.
  unfold np_true_divide.
  destruct (Qeq_bool (floor_eps y) 0) eqn:E; [| reflexivity].
  apply Qeq_bool_iff in E. pose proof (floor_eps_positive y). lra.
Qed.

(** A zero accumulator over its floored weight is zero. *)
Lemma zero_over_floor : np_true_divide 0 (floor_eps 0) = Fin 0%Q.
Proof. vm_compute. reflexivity. Qed.

(** Zeros divided by the floored normalisation buffer are zeros. *)
Lemma normalised_zeros (n m : nat) :
  take n (zip_with np_true_divide (replicate (n + m) 0%Q)
            (map floor_eps (replicate (n + m) 0%Q)))
  = replicate n (Fin 0%Q).
Proof.
  induction n as [| n IH]; [reflexivity |].
  cbn [Nat.add replicate map zip_with take].
  rewrite zero_over_floor. f_equal. exact IH.
Qed.

Section EngineFacts.

Variable hanning : nat -> list Q.
Variable rfft : list Q -> outcome (list C).
Variable irfft : list C -> outcome (list Q).

Lemma frame_step_lengths audio window fft_size k start output norm g
    output' norm' g' :
  frame_step rfft irfft audio window fft_size k start (output, norm) g
  = Return ((output', norm'), g') ->
  length output' = length output /\ length norm' = length norm.
Proof.
  unfold frame_step, bind, lift.
  destruct (broadcast fmul _ window) as [e | segment]; [discriminate |].
  destruct (rfft segment) as [e | X]; [discriminate |].
  destruct (process_fft X k g) as [e | [X' g1]]; [discriminate |].
  destruct (irfft X') as [e | processed]; [discriminate |].
  destruct (broadcast fmul processed window) as [e | weighted];
    [discriminate |].
  destruct (slice_iadd output _ _ weighted) as [e | o1] eqn:Eo;
    [discriminate |].
  destruct (slice_iadd norm _ _ _) as [e | n1] eqn:En; [discriminate |].
  unfold ret. intros [= <- <- _].
  split; eapply slice_iadd_length; eassumption.
Qed.

Lemma frames_lengths audio window fft_size k starts :
  forall output norm g output' norm' g',
    for_ starts (frame_step rfft irfft audio window fft_size k)
      (output, norm) g
    = Return ((output', norm'), g') ->
    length output' = length output /\ length norm' = length norm.
Proof.
  intros output norm g output' norm' g' Hrun.
  apply (for_invariant
           (fun acc => length (fst acc) = length output
                       /\ length (snd acc) = length norm)
           (frame_step rfft irfft audio window fft_size k)) in Hrun.
  - exact Hrun.
  - intros x [o n] g0 [o1 n1] g1 [Ho Hn] Hstep. cbn [fst snd] in *.
    apply frame_step_lengths in Hstep. destruct Hstep as [-> ->].
    split; assumption.
  - split; reflexivity.
Qed.

(** What the engine returns: the first [len(audio)] quotients of two
    accumulators that still have their initial length. *)
Lemma overlap_add_result audio fft_size hop_size k g output g' :
  overlap_add_process hanning rfft irfft audio fft_size hop_size k g
  = Return (output, g') ->
  exists acc_out acc_norm,
    length acc_out = (length audio + fft_size)%nat
    /\ length acc_norm = (length audio + fft_size)%nat
    /\ output = slice (zip_with np_true_divide acc_out
                         (map floor_eps acc_norm))
                  0 (len audio).
Proof.
  unfold overlap_add_process.
  destruct (hop_size =? 0)%nat; [discriminate |].
  unfold bind.
  destruct (for_ _ _ _ g) as [e | [[o n] g1]] eqn:Eloop; [discriminate |].
  apply frames_lengths in Eloop. destruct Eloop as [Ho Hn].
  rewrite length_replicate in Ho, Hn.
  rewrite broadcast_same_length by (rewrite length_map; lia).
  unfold lift, ret. intros [= <- _].
  exists o, n. split; [exact Ho |]. split; [exact Hn | reflexivity].
Qed.

(** C5. For every signal at least one frame long, any frame size, hop
    size, K-factor and random draws, the output the engine returns has
    exactly the length of the input signal. *)
Theorem overlap_add_output_length
    (audio : list Q) (fft_size hop_size : nat) (k_factor : Q) (g : rng)
    (output : list xq) (g' : rng) :
  (fft_size <= length audio)%nat ->
  overlap_add_process hanning rfft irfft audio fft_size hop_size k_factor g
  = Return (output, g') ->
  length output = length audio.
Proof.
  intros Hframe Hrun.
  destruct (overlap_add_result _ _ _ _ _ _ _ Hrun)
    as (acc_out & acc_norm & Hout & Hnorm & ->).
  rewrite length_slice_nonneg by (unfold len; lia).
  rewrite length_zip_with, length_map, Hout, Hnorm.
  unfold len. rewrite Nat2Z.id. change (Z.to_nat 0) with 0%nat. lia.
Qed.

(** C9. For every signal strictly shorter than one frame and a non-zero
    hop, the engine runs no frame: it draws nothing from the generator
    and returns as many zeros as the input has samples, each the quotient
    of a zero accumulator by the floored weight [1e-8]. *)
Theorem overlap_add_short_signal
    (audio : list Q) (fft_size hop_size : nat) (k_factor : Q) (g : rng) :
  (length audio < fft_size)%nat -> (0 < hop_size)%nat ->
  frame_starts audio fft_size hop_size = []
  /\ overlap_add_process hanning rfft irfft audio fft_size hop_size
       k_factor g
     = Return (replicate (length audio) (Fin 0%Q), g)
  /\ np_true_divide 0 (floor_eps 0) = Fin 0%Q
  /\ floor_eps 0 = float_1e_8.
Proof.
  intros Hshort Hhop.
  assert (Hstarts : frame_starts audio fft_size hop_size = [])
    by (apply range3_empty; unfold len; lia).
  split; [exact Hstarts |].
  split; [| split; [exact zero_over_floor | reflexivity]].
  unfold overlap_add_process.
  destruct (Nat.eqb_spec hop_size 0) as [? | _]; [lia |].
  rewrite Hstarts. cbn [for_]. unfold bind, ret.
  rewrite broadcast_same_length by (rewrite length_map; reflexivity).
  unfold lift. do 2 f_equal.
  rewrite slice_nonneg by (unfold len; lia).
  unfold len. rewrite Nat2Z.id. change (Z.to_nat 0) with 0%nat.
  cbn [drop]. rewrite Nat.sub_0_r. apply normalised_zeros.
Qed.

(** *** When the engine returns *)

Hypothesis hanning_length : forall n, length (hanning n) = n.
Hypothesis rfft_returns : forall x, x <> [] ->
  exists X, rfft x = Return X /\ length X = (length x / 2 + 1)%nat.
Hypothesis irfft_returns : forall X, (2 <= length X)%nat ->
  exists x, irfft X = Return x /\ length x = (2 * (length X - 1))%nat.

Lemma frame_step_returns audio fft_size k start output norm g :
  Nat.Even fft_size -> (0 < fft_size)%nat -> Z.of_nat fft_size < 2 ^ 53 ->
  (0 < k)%Q ->
  (forall X : list C, length X = (fft_size / 2 + 1)%nat ->
     bin_of k (usable_bins X k) < len X) ->
  0 <= start < len audio - Z.of_nat fft_size ->
  length output = (length audio + fft_size)%nat ->
  length norm = (length audio + fft_size)%nat ->
  exists output' norm' g',
    frame_step rfft irfft audio (hanning fft_size) fft_size k start
      (output, norm) g
    = Return ((output', norm'), g').
Proof using hanning_length rfft_returns irfft_returns.
  intros [h Hh] HF Hrep Hk Hsafe Hstart Hout Hnorm.
  unfold frame_step, bind at 1, lift.
  assert (Hseg : length (slice audio start (start + Z.of_nat fft_size))
                 = fft_size).
  { rewrite length_slice_nonneg by lia. unfold len in *. lia. }
  rewrite broadcast_same_length by (rewrite Hseg, hanning_length; reflexivity).
  set (segment := zip_with fmul _ _).
  assert (Hlseg : length segment = fft_size).
  { unfold segment. rewrite length_zip_with, Hseg, hanning_length. lia. }
  destruct (rfft_returns segment) as (X & HX & HlX).
  { intros E. rewrite E in Hlseg. cbn in Hlseg. lia. }
  unfold bind at 1. rewrite HX. unfold bind at 1.
  rewrite Hlseg in HlX.
  assert (Hhalf : (fft_size / 2 = h)%nat).
  { rewrite Hh, Nat.mul_comm. apply Nat.div_mul. lia. }
  assert (HrepX : len X < 2 ^ 53) by (unfold len; lia).
  destruct (process_fft_returns X k g Hk HrepX (Hsafe X HlX))
    as (X' & g' & -> & HlX').
  destruct (irfft_returns X') as (processed & HP & HlP); [lia |].
  unfold bind at 1. rewrite HP. unfold bind at 1.
  assert (HlP' : length processed = fft_size) by lia.
  rewrite broadcast_same_length
    by (rewrite HlP', hanning_length; reflexivity).
  set (weighted := zip_with fmul processed _).
  assert (Hlw : length weighted = fft_size).
  { unfold weighted. rewrite length_zip_with, HlP', hanning_length. lia. }
  assert (Hclip : forall target : list Q,
            length target = (length audio + fft_size)%nat ->
            Z.to_nat (clip (len target) (start + Z.of_nat fft_size)
                      - clip (len target) start) = fft_size).
  { intros target Ht. unfold clip, len in *. rewrite Ht.
    destruct (Z.ltb_spec (start + Z.of_nat fft_size) 0),
             (Z.ltb_spec start 0); lia. }
  unfold bind, slice_iadd.
  rewrite (Hclip output Hout), (Hclip norm Hnorm).
  destruct (decide (length weighted = fft_size)) as [_ | ?];
    [| contradiction].
  destruct (decide (length (map (fun w => fmul w w) (hanning fft_size))
                    = fft_size)) as [_ | Hne].
  - unfold ret. eexists _, _, _. reflexivity.
  - exfalso. apply Hne. rewrite length_map. apply hanning_length.
Qed.

Lemma elem_of_range3 x start stop step :
  0 < step -> x ∈ range3 start stop step -> start <= x < stop.
Proof.
  intros Hs. rewrite range3_unfold by assumption. intros Hx.
  change (x ∈ (fun j => start + Z.of_nat j * step)
                <$> seq 0 (Z.to_nat ((stop - start + step - 1) / step)))
    in Hx.
  apply list_elem_of_fmap in Hx. destruct Hx as (j & -> & Hj).
  apply elem_of_seq in Hj.
  pose proof (Z.mul_div_le (stop - start + step - 1) step Hs).
  set (q := (stop - start + step - 1) / step) in *.
  assert (Z.of_nat j + 1 <= q) by lia.
  assert ((Z.of_nat j + 1) * step <= q * step) by nia.
  nia.
Qed.

(** With a Hann window of the frame's size and a transform pair that
    maps [n] samples to [n/2 + 1] bins and back, the engine returns a
    signal of the input's length whenever the frame size is even and
    positive, the hop is positive, the K-factor is positive and the
    largest selectable position addresses a bin. *)
Lemma overlap_add_returns audio fft_size hop_size k g :
  Nat.Even fft_size -> (0 < fft_size)%nat -> Z.of_nat fft_size < 2 ^ 53 ->
  (0 < hop_size)%nat -> (0 < k)%Q ->
  (forall X : list C, length X = (fft_size / 2 + 1)%nat ->
     bin_of k (usable_bins X k) < len X) ->
  exists output g',
    overlap_add_process hanning rfft irfft audio fft_size hop_size k g
    = Return (output, g')
    /\ length output = length audio.
Proof using hanning_length rfft_returns irfft_returns.
  intros Heven HF Hrep Hhop Hk Hsafe.
  destruct (overlap_add_process hanning rfft irfft audio fft_size hop_size
              k g) as [e | [output g']] eqn:Erun.
  - exfalso. revert Erun. unfold overlap_add_process.
    destruct (Nat.eqb_spec hop_size 0) as [? | _]; [lia |].
    unfold bind at 1.
    destruct (for_returns
                (fun acc : list Q * list Q =>
                   length (fst acc) = (length audio + fft_size)%nat
                   /\ length (snd acc) = (length audio + fft_size)%nat)
                (frame_step rfft irfft audio (hanning fft_size) fft_size k)
                (frame_starts audio fft_size hop_size))
      with (s := (replicate (length audio + fft_size) 0%Q,
                  replicate (length audio + fft_size) 0%Q)) (g := g)
      as ([o n] & g1 & -> & Ho & Hn).
    + intros start Hin [o n] g0 [Ho Hn]. cbn [fst snd] in Ho, Hn.
      apply elem_of_range3 in Hin; [| lia].
      destruct (frame_step_returns audio fft_size k start o n g0
                  Heven HF Hrep Hk Hsafe Hin Ho Hn) as (o' & n' & g1 & E).
      exists (o', n'), g1. split; [exact E |].
      apply frame_step_lengths in E. cbn [fst snd]. lia.
    + cbn [fst snd]. rewrite length_replicate. split; reflexivity.
    + cbn [fst snd] in Ho, Hn.
      rewrite broadcast_same_length by (rewrite length_map; lia).
      discriminate.
  - exists output, g'. split; [reflexivity |].
    destruct (overlap_add_result _ _ _ _ _ _ _ Erun)
      as (acc_out & acc_norm & Hout & Hnorm & ->).
    rewrite length_slice_nonneg by (unfold len; lia).
    rewrite length_zip_with, length_map, Hout, Hnorm.
    unfold len. rewrite Nat2Z.id. change (Z.to_nat 0) with 0%nat. lia.
Qed.

End EngineFacts.

(** ** Runs of the engine *)

Lemma overlap_add_output_length_witness :
  (4 <= length (ones 7))%nat /\
  exists output g',
    overlap_add_process toy_hanning toy_rfft toy_irfft (ones 7) 4 2 (5 # 2)
      zero_tape
    = Return (output, g')
    /\ length output = length (ones 7).
Proof.
  assert (Hlen : (4 <= length (ones 7))%nat) by (cbn; lia).
  split; [exact Hlen |].
  destruct (overlap_add_process toy_hanning toy_rfft toy_irfft (ones 7) 4 2
              (5 # 2) zero_tape) as [e | [output g']] eqn:E;
    [vm_compute in E; discriminate E |].
  exists output, g'. split; [reflexivity |].
  exact (overlap_add_output_length toy_hanning toy_rfft toy_irfft (ones 7) 4 2
           (5 # 2) zero_tape output g' Hlen E).
Defined.

Lemma overlap_add_short_signal_witness :
  (length (ones 3) < 4)%nat /\ (0 < 2)%nat /\
  frame_starts (ones 3) 4 2 = []
  /\ overlap_add_process toy_hanning toy_rfft toy_irfft (ones 3) 4 2 (5 # 2)
       zero_tape
     = Return (replicate (length (ones 3)) (Fin 0%Q), zero_tape)
  /\ np_true_divide 0 (floor_eps 0) = Fin 0%Q
  /\ floor_eps 0 = float_1e_8.
Proof.
  assert (H1 : (length (ones 3) < 4)%nat) by (cbn; lia).
  assert (H2 : (0 < 2)%nat) by lia.
  split; [exact H1 |]. split; [exact H2 |].
  exact (overlap_add_short_signal toy_hanning toy_rfft toy_irfft (ones 3) 4 2
           (5 # 2) zero_tape H1 H2).
Defined.

Lemma toy_hanning_length n : length (toy_hanning n) = n.
Proof. apply length_replicate. Qed.

Lemma toy_rfft_returns x :
  x <> [] ->
  exists X, toy_rfft x = Return X /\ length X = (length x / 2 + 1)%nat.
Proof.
  intros Hx. destruct x as [| a x]; [contradiction |].
  eexists. split; [reflexivity |].
  rewrite length_map, length_take.
  assert (length (a :: x) / 2 < length (a :: x))%nat
    by (apply Nat.div_lt; cbn [length]; lia).
  lia.
Qed.

Lemma toy_irfft_returns X :
  (2 <= length X)%nat ->
  exists x, toy_irfft X = Return x /\ length x = (2 * (length X - 1))%nat.
Proof.
  intros HX. unfold toy_irfft.
  destruct (decide (length X <= 1)%nat); [lia |].
  eexists. split; [reflexivity |].
  rewrite length_app, !length_map, !length_take. unfold C in *. lia.
Qed.

(** With these, frames of four samples, a hop of two and K-factor 5/2, the
    engine returns on every signal and in every state of the generator. *)
Lemma toy_engine_returns audio g :
  exists output g',
    overlap_add_process toy_hanning toy_rfft toy_irfft audio 4 2 (5 # 2) g
    = Return (output, g')
    /\ length output = length audio.
Proof.
  apply (overlap_add_returns toy_hanning toy_rfft toy_irfft
           toy_hanning_length toy_rfft_returns toy_irfft_returns).
  - exists 2%nat. reflexivity.
  - lia.
  - reflexivity.
  - lia.
  - reflexivity.
  - intros X HX. unfold usable_bins, len. rewrite HX. vm_compute. reflexivity.
Qed.

(** The embedding is not total: with a K-factor that divides the frame
    length, the largest selectable position addresses the bin one past the
    end, and selecting it raises. *)
Lemma process_fft_raises_past_the_end :
  process_fft frame9 1 (mkRng (fun _ => 9) 0) = Raise IndexError.
Proof. vm_compute. reflexivity. Qed.

(** * Further properties *)

(** ** compress on arbitrary strings *)

Lemma lor_lt_pow2 a b n :
  0 <= n -> 0 <= a < 2 ^ n -> 0 <= b < 2 ^ n -> 0 <= Z.lor a b < 2 ^ n.
Proof.
  intros Hn Ha Hb. split; [apply Z.lor_nonneg; lia |].
  destruct (Z.eq_dec (Z.lor a b) 0) as [-> | Hne]; [lia |].
  apply Z.log2_lt_pow2; [pose proof (proj2 (Z.lor_nonneg a b)); lia |].
  rewrite Z.log2_lor by lia.
  destruct (Z.eq_dec a 0) as [-> | Ha0].
  { rewrite Z.lor_0_l in Hne. cbn [Z.log2]. rewrite Z.max_r
      by (apply Z.log2_nonneg).
    apply Z.log2_lt_pow2; lia. }
  destruct (Z.eq_dec b 0) as [-> | Hb0].
  { cbn [Z.log2]. rewrite Z.max_l by (apply Z.log2_nonneg).
    apply Z.log2_lt_pow2; lia. }
  apply Z.max_lub_lt; apply Z.log2_lt_pow2; lia.
Qed.

Lemma shiftl_lt_pow2 a m k :
  0 <= m -> 0 <= k -> 0 <= a < 2 ^ m -> 0 <= Z.shiftl a k < 2 ^ (m + k).
Proof.
  intros Hm Hk Ha. rewrite Z.shiftl_mul_pow2 by assumption.
  rewrite Z.pow_add_r by assumption.
  assert (0 < 2 ^ k) by (apply Z.pow_pos_nonneg; lia). nia.
Qed.

Lemma widen_pow2 x m n : m <= n -> 0 <= x < 2 ^ m -> 0 <= x < 2 ^ n.
Proof.
  intros Hmn Hx. split; [lia |].
  apply Z.lt_le_trans with (2 ^ m); [lia |].
  apply Z.pow_le_mono_r; lia.
Qed.

(** The characters of a chunk are characters of the string, or the
    padding. *)
Lemma chunk_chars_valid (P : Z -> Prop) string i j :
  Forall P string -> P 0 -> (j < 2)%nat ->
  exists c, ord (ljust 2 0 (slice string i (i + 2))) j = Return c /\ P c.
Proof.
  intros Hs H0 Hj. unfold ord, ljust, slice.
  set (t := take _ (drop _ string)).
  set (l := t ++ replicate (2 - length t) 0).
  assert (Hl : Forall P l).
  { apply Forall_app. split.
    - apply Forall_take, Forall_drop, Hs.
    - apply Forall_replicate, H0. }
  assert (Hlen : (j < length l)%nat).
  { unfold l. rewrite length_app, length_replicate. lia. }
  destruct (lookup_lt_is_Some_2 l j Hlen) as [c Hc].
  exists c. rewrite Hc. split; [reflexivity |].
  exact (proj1 (Forall_lookup P l) Hl j c Hc).
Qed.

Lemma compress_step_returns string i floats g :
  valid_str string ->
  exists x,
    compress_step string i floats g = Return (floats ++ [x], advance 2 g).
Proof.
  intros Hs. unfold compress_step.
  set (chars := ljust 2 0 (slice string i (i + 2))).
  assert (Hc : forall j, (j < 2)%nat ->
            exists c, ord chars j = Return c /\ 0 <= c < 2 ^ 21).
  { intros j Hj.
    destruct (chunk_chars_valid (fun c => 0 <= c <= 1114111) string i j
                Hs ltac:(cbn beta; lia) Hj) as (c & Hc & Hr).
    exists c. split; [exact Hc |]. cbn beta in Hr. lia. }
  destruct (Hc 0%nat ltac:(lia)) as (c0 & Hc0 & Hr0).
  destruct (Hc 1%nat ltac:(lia)) as (c1 & Hc1 & Hr1).
  unfold bind at 1. rewrite randint_eval by lia.
  unfold bind at 1. rewrite randint_eval by lia.
  unfold bind at 1. rewrite Hc0. unfold lift at 1.
  unfold bind at 1. rewrite Hc1. unfold lift at 1.
  set (e := 80 + draw g 0 mod (125 - 80 + 1)).
  set (r := 0 + draw (advance 1 g) 0 mod (127 - 0 + 1)).
  assert (He : 0 <= e < 2 ^ 7)
    by (unfold e; pose proof (Z.mod_pos_bound (draw g 0) (125 - 80 + 1)); lia).
  assert (Hr : 0 <= r < 2 ^ 7)
    by (unfold r;
        pose proof (Z.mod_pos_bound (draw (advance 1 g) 0) (127 - 0 + 1)); lia).
  set (bits := Z.lor _ _).
  assert (Hbits : 0 <= bits < 2 ^ 32).
  { unfold bits. apply (widen_pow2 _ 30); [lia |].
    apply lor_lt_pow2; [lia | |].
    - rewrite Z.shiftl_0_l, Z.lor_0_l.
      exact (shiftl_lt_pow2 e 7 23 ltac:(lia) ltac:(lia) He).
    - apply lor_lt_pow2; [lia | |].
      + apply (widen_pow2 _ (7 + 16)); [lia |].
        exact (shiftl_lt_pow2 r 7 16 ltac:(lia) ltac:(lia) Hr).
      + apply (widen_pow2 _ 29); [lia |].
        apply lor_lt_pow2; [lia | |].
        * exact (shiftl_lt_pow2 _ 21 8 ltac:(lia) ltac:(lia) Hr0).
        * apply (widen_pow2 _ 21); [lia | exact Hr1]. }
  destruct (pack_unpack_word bits Hbits) as (b & Hp & Hu).
  unfold bind, lift, ret. rewrite Hp, Hu, advance_advance.
  eexists. reflexivity.
Qed.

Lemma compress_loop_returns string (xs : list Z) :
  valid_str string ->
  forall floats g,
    exists floats',
      for_ xs (compress_step string) floats g
      = Return (floats', advance (2 * length xs) g)
      /\ length floats' = (length floats + length xs)%nat.
Proof.
  intros Hs. induction xs as [| i xs IH]; intros floats g.
  - exists floats. cbn [for_ length]. unfold ret.
    rewrite advance_0. split; [reflexivity | lia].
  - destruct (compress_step_returns string i floats g Hs) as (x & Hx).
    destruct (IH (floats ++ [x]) (advance 2 g)) as (floats' & Hrun & Hlen).
    exists floats'. cbn [for_]. unfold bind. rewrite Hx, Hrun.
    rewrite advance_advance. rewrite length_app in Hlen. cbn [length] in *.
    split; [do 2 f_equal; f_equal; lia | lia].
Qed.

Lemma chunk_count_half string :
  chunk_count string = ((length string + 1) / 2)%nat.
Proof.
  unfold chunk_count, len. apply Nat2Z.inj.
  rewrite Nat2Z.inj_div, Z2Nat.id by (apply Z.div_pos; lia).
  f_equal. lia.
Qed.

(** X1. [compress] never raises on a Python string, whatever its code
    points: it returns one float per chunk of two characters, that is
    [(len + 1) // 2] floats, and draws exactly twice per float. *)
Theorem compress_returns_on_every_string (string : list Z) (g : rng) :
  valid_str string ->
  exists floats,
    compress string g
    = Return (floats, advance (2 * ((length string + 1) / 2)) g)
    /\ length floats = ((length string + 1) / 2)%nat.
Proof.
  intros Hs. unfold compress.
  destruct (compress_loop_returns string (range3 0 (len string) 2) Hs [] g)
    as (floats & Hrun & Hlen).
  assert (Hn : length (range3 0 (len string) 2)
               = ((length string + 1) / 2)%nat).
  { rewrite range3_unfold by lia. rewrite length_map, length_seq.
    apply chunk_count_half. }
  rewrite Hn in Hrun, Hlen. exists floats. split; [exact Hrun |].
  cbn [length] in Hlen. lia.
Qed.

Lemma compress_returns_on_every_string_witness :
  valid_str [72; 8364; 128512] /\
  exists floats,
    compress [72; 8364; 128512] zero_tape
    = Return (floats, advance (2 * ((3 + 1) / 2)) zero_tape)
    /\ length floats = ((3 + 1) / 2)%nat.
Proof.
  assert (Hs : valid_str [72; 8364; 128512]) by (repeat constructor; lia).
  split; [exact Hs |].
  exact (compress_returns_on_every_string [72; 8364; 128512] zero_tape Hs).
Defined.

(** ** The bit fields of a synthesized float *)

Lemma synth_bits_fields e r c0 c1 :
  0 <= e < 256 -> 0 <= r < 128 -> is_byte c0 -> is_byte c1 ->
  Z.testbit (synth_bits e r c0 c1) 31 = false
  /\ Z.land (Z.shiftr (synth_bits e r c0 c1) 23) 255 = e
  /\ Z.land (Z.shiftr (synth_bits e r c0 c1) 16) 127 = r.
Proof.
  intros He Hr H0 H1. unfold is_byte in *.
  assert (Hw : 0 <= synth_bits e r c0 c1 < 2 ^ 31)
    by (unfold synth_bits; lia).
  split; [apply Bits.testbit_31_small, Hw |].
  rewrite Bits.land_255, !Bits.shiftr_div by lia.
  change 127 with (Z.ones 7). rewrite Z.land_ones by lia.
  unfold synth_bits.
  assert (Hq23 : (e * 2 ^ 23 + r * 2 ^ 16 + c0 * 2 ^ 8 + c1) / 2 ^ 23 = e).
  { symmetry. apply (Z.div_unique _ _ _ (r * 2 ^ 16 + c0 * 2 ^ 8 + c1)); lia. }
  assert (Hq16 : (e * 2 ^ 23 + r * 2 ^ 16 + c0 * 2 ^ 8 + c1) / 2 ^ 16
                 = e * 2 ^ 7 + r).
  { symmetry. apply (Z.div_unique _ _ _ (c0 * 2 ^ 8 + c1)); lia. }
  rewrite Hq23, Hq16. split.
  - apply Z.mod_small. lia.
  - symmetry. apply (Z.mod_unique _ _ e); lia.
Qed.

(** X2. On a byte string, the float of chunk [j] has the layout the
    docstring of [compress] describes: sign bit 0, an exponent field equal
    to the first draw of the chunk, in [80, 125], and the seven high
    mantissa bits equal to the second draw, in [0, 127]. Its value is
    strictly positive. *)
Theorem compress_bit_fields (B : list Z) (g : rng) :
  byte_string B ->
  exists floats g',
    compress B g = Return (floats, g')
    /\ forall (j : nat) (x : spec_float),
         floats !! j = Some x ->
         let w := float32_bits x in
         Z.testbit w 31 = false
         /\ Z.land (Z.shiftr w 23) 255 = exponent_draw (draw g (2 * j))
         /\ 80 <= exponent_draw (draw g (2 * j)) <= 125
         /\ Z.land (Z.shiftr w 16) 127 = random_7bits_draw (draw g (2 * j + 1))
         /\ 0 <= random_7bits_draw (draw g (2 * j + 1)) <= 127
         /\ (0 < float_value x)%Q.
Proof.
  intros HB. rewrite compress_eval by assumption.
  eexists _, _. split; [reflexivity |].
  intros j x Hx w.
  change (map ?f ?l) with (f <$> l) in Hx.
  apply list_lookup_fmap_Some in Hx. destruct Hx as (j' & -> & Hj').
  apply lookup_seq in Hj'. destruct Hj' as [Hj' _]. cbn in Hj'. subst j'.
  pose proof (exponent_draw_range (draw g (2 * j))) as He.
  pose proof (random_7bits_draw_range (draw g (2 * j + 1))) as Hr.
  pose proof (nth_is_byte B (2 * j) HB) as H0.
  pose proof (nth_is_byte B (2 * j + 1) HB) as H1.
  unfold w, chunk_float.
  rewrite float32_bits_synth by (assumption || lia).
  assert (He' : 0 <= exponent_draw (draw g (2 * j)) < 256) by lia.
  destruct (synth_bits_fields _ _ _ _ He' Hr H0 H1) as (Hs & Hx & Hm).
  split; [exact Hs |]. split; [exact Hx |]. split; [exact He |].
  split; [exact Hm |]. split; [lia |].
  eapply Qlt_le_trans;
    [| apply float_value_synth_lower; (assumption || lia)].
  apply Qpower_0_lt. reflexivity.
Qed.

Lemma compress_bit_fields_witness :
  byte_string [72; 105] /\
  exists floats g',
    compress [72; 105] counting_tape = Return (floats, g')
    /\ forall (j : nat) (x : spec_float),
         floats !! j = Some x ->
         let w := float32_bits x in
         Z.testbit w 31 = false
         /\ Z.land (Z.shiftr w 23) 255
            = exponent_draw (draw counting_tape (2 * j))
         /\ 80 <= exponent_draw (draw counting_tape (2 * j)) <= 125
         /\ Z.land (Z.shiftr w 16) 127
            = random_7bits_draw (draw counting_tape (2 * j + 1))
         /\ 0 <= random_7bits_draw (draw counting_tape (2 * j + 1)) <= 127
         /\ (0 < float_value x)%Q.
Proof.
  assert (HB : byte_string [72; 105])
    by (repeat constructor; unfold is_byte; lia).
  split; [exact HB | exact (compress_bit_fields [72; 105] counting_tape HB)].
Defined.

(** ** More on the Bin Selector *)

(** X3. The Bin Selector never returns more than (usable bin count + 1)
    positions, whatever the number of floats to place: when fewer than
    that many bins are usable, some floats get no position. *)
Theorem select_positions_at_most_usable
    (fft_data : list C) (k_factor : Q) (count : Z) (g : rng)
    (positions : list Z) (g' : rng) :
  select_positions fft_data k_factor count g = Return (positions, g') ->
  (length positions <= Z.to_nat (usable_bins fft_data k_factor + 1))%nat.
Proof.
  intros Hrun. destruct (select_positions_ok _ _ _ _ _ _ Hrun) as [Hr Hn].
  rewrite <- (length_seqZ 0 (usable_bins fft_data k_factor + 1)).
  apply submseteq_length, NoDup_submseteq; [exact Hn |].
  intros p Hp. apply elem_of_seqZ.
  pose proof (proj1 (Forall_forall _ _) Hr p Hp) as Hb. cbn beta in Hb. lia.
Qed.

Lemma select_positions_at_most_usable_witness :
  (length [0; 1] <= Z.to_nat (usable_bins silent4 (5 # 2) + 1))%nat.
Proof.
  apply (select_positions_at_most_usable silent4 (5 # 2) 6 counting_tape
           [0; 1] (advance 6 counting_tape)).
  vm_compute. reflexivity.
Defined.

(** ** Error behaviour of the frame embedding *)

Lemma resolve_index_empty i : resolve_index 0 i = Raise IndexError.
Proof.
  unfold resolve_index.
  destruct (Z.leb_spec 0 i), (Z.ltb_spec i (Z.of_nat 0)); cbn [andb];
    try lia.
  - destruct (Z.ltb_spec i 0); [lia | reflexivity].
  - destruct (Z.ltb_spec i 0), (Z.leb_spec (- Z.of_nat 0) i); cbn [andb];
      try lia; reflexivity.
Qed.

Lemma negative_k_usable fft_data k :
  (k < 0)%Q -> fft_data <> [] -> usable_bins fft_data k < 0.
Proof.
  intros Hk Hne. unfold usable_bins.
  assert (Hlen : 0 < len fft_data)
    by (unfold len; destruct fft_data; [congruence | cbn [length]; lia]).
  assert (Hpos : (0 < inject_Z (len fft_data) / - k)%Q).
  { apply Qlt_shift_div_l; [lra |]. rewrite Qmult_0_l.
    change 0%Q with (inject_Z 0). rewrite <- Zlt_Qlt. exact Hlen. }
  assert (Heq : (inject_Z (len fft_data) / k
                 == - (inject_Z (len fft_data) / - k))%Q)
    by (field; intros E; rewrite E in Hk; discriminate Hk).
  pose proof (Qfloor_le (inject_Z (len fft_data) / k)) as Hfl.
  rewrite Zlt_Qlt. change (inject_Z 0) with 0%Q. lra.
Qed.

Lemma select_positions_six fft_data k g :
  select_positions fft_data k 6 g
  = (s' <- select_step fft_data k 0 [] ;;
     for_ (range3 1 6 1) (select_step fft_data k) s') g.
Proof. unfold select_positions. rewrite range3_from_cons by lia. reflexivity. Qed.

(** X4. [process_fft] rejects a degenerate K-factor only through the
    exceptions of the calls it makes: a zero K-factor raises
    ZeroDivisionError at the first floor division, a negative one on a
    non-empty frame raises ValueError at the first [randint], whose range
    is then empty, and on an empty frame every non-zero K-factor raises
    IndexError, bin 0 being out of range. *)
Theorem process_fft_degenerate_k_factor
    (fft_data : list C) (k_factor : Q) (g : rng) :
  ((k_factor == 0)%Q ->
   process_fft fft_data k_factor g = Raise ZeroDivisionError)
  /\ ((k_factor < 0)%Q -> fft_data <> [] ->
      process_fft fft_data k_factor g = Raise ValueError)
  /\ (~ (k_factor == 0)%Q -> fft_data = [] ->
      process_fft fft_data k_factor g = Raise IndexError).
Proof.
  split; [| split].
  - intros Hk. rewrite process_fft_eval. unfold bind at 1.
    rewrite select_positions_six. unfold bind at 1.
    unfold select_step, bind at 1, lift, floordiv_int.
    rewrite (proj2 (Qeq_bool_iff k_factor 0) Hk). reflexivity.
  - intros Hk Hne. rewrite process_fft_eval. unfold bind at 1.
    rewrite select_positions_six. unfold bind at 1.
    unfold select_step, bind at 1, lift.
    rewrite floordiv_int_eval
      by (intros E; rewrite E in Hk; discriminate Hk).
    fold (usable_bins fft_data k_factor).
    pose proof (negative_k_usable fft_data k_factor Hk Hne) as Hu.
    unfold bind at 1, randint.
    destruct (Z.ltb_spec (usable_bins fft_data k_factor) 0); [| lia].
    reflexivity.
  - intros Hk ->. rewrite process_fft_eval. unfold bind at 1.
    assert (Hu : usable_bins [] k_factor = 0).
    { unfold usable_bins, len. cbn [length Z.of_nat].
      change (inject_Z 0) with 0%Q. unfold Qdiv. rewrite Qmult_0_l.
      reflexivity. }
    assert (Hsel : forall g0, exists positions,
               select_positions [] k_factor 6 g0
               = Return (positions, advance 6 g0)
               /\ positions <> []).
    { intros g0.
      pose proof (select_loop [] k_factor g0 6 0 [] Hk
                    ltac:(rewrite Hu; lia)) as Hloop.
      rewrite advance_0 in Hloop.
      assert (Hrun : select_positions [] k_factor 6 g0
                     = Return (foldl keep_new []
                                 (map (fun i => position_draw
                                                  (usable_bins [] k_factor)
                                                  (draw g0 i)) (seq 0 6)),
                               advance 6 g0)) by exact Hloop.
      eexists. split; [exact Hrun |].
      assert (H6 : 0 < 6) by lia.
      exact (select_positions_nonempty _ _ _ _ _ _ H6 Hrun). }
    destruct (Hsel (advance 12 g)) as (positions & -> & Hne).
    unfold bind at 1, apply_randomness, bind at 1, lift.
    rewrite floordiv_int_eval by exact Hk. fold (usable_bins [] k_factor).
    rewrite Hu. unfold range1. rewrite range3_empty by lia.
    cbn [for_]. unfold ret, bind, lift. rewrite apply_data_zip.
    destruct positions as [| p ps]; [congruence |].
    cbn [seq map zip_with ofor]. unfold add_float, iadd_at.
    rewrite resolve_index_empty. reflexivity.
Qed.

Lemma process_fft_degenerate_k_factor_witness :
  process_fft frame9 0 zero_tape = Raise ZeroDivisionError
  /\ process_fft frame9 (- (1)) zero_tape = Raise ValueError
  /\ process_fft [] 1 zero_tape = Raise IndexError.
Proof.
  destruct (process_fft_degenerate_k_factor frame9 0 zero_tape) as (H0 & _ & _).
  destruct (process_fft_degenerate_k_factor frame9 (- (1)) zero_tape)
    as (_ & Hn & _).
  destruct (process_fft_degenerate_k_factor [] 1 zero_tape) as (_ & _ & He).
  split; [apply H0; reflexivity |].
  split; [apply Hn; [reflexivity | discriminate] |].
  apply He; [discriminate | reflexivity].
Defined.

(** ** More on the randomization phase *)

Lemma randomness_loop_returns fft_data k positions (xs : list Z) :
  (0 < k)%Q -> len fft_data < 2 ^ 53 ->
  (forall i, i ∈ xs -> 0 <= i < usable_bins fft_data k) ->
  forall s g,
    length s = length fft_data ->
    exists s',
      for_ xs (randomness_step k positions) s g
      = Return (s', advance
                      (length (List.filter
                                 (fun i => negb (bool_decide (i ∈ positions)))
                                 xs)) g)
      /\ length s' = length fft_data.
Proof.
  intros Hk Hrep. induction xs as [| i xs IH]; intros Hxs s g Hs.
  - exists s. cbn [for_ List.filter length]. unfold ret.
    rewrite advance_0. split; [reflexivity | exact Hs].
  - assert (Hi : 0 <= i < usable_bins fft_data k) by (apply Hxs; left).
    assert (Hrest : forall i', i' ∈ xs -> 0 <= i' < usable_bins fft_data k)
      by (intros i' Hi'; apply Hxs; right; exact Hi').
    cbn [for_ List.filter]. unfold randomness_step at 1. unfold bind.
    destruct (bool_decide (i ∈ positions)); cbn [negb].
    + unfold ret. apply (IH Hrest s g Hs).
    + rewrite uniform_eval. unfold lift.
      pose proof (randomness_target_in_range fft_data k i Hk Hrep Hi) as Ht.
      unfold bin_of in Ht.
      destruct (iadd_at_in_range s (py_int (fmul (inject_Z i) k) - 1)
                  (jitter (draw g 0))) as (s1 & -> & Hlen).
      { unfold len in *. rewrite Hs. lia. }
      destruct (IH Hrest s1 (advance 1 g) (eq_trans Hlen Hs))
        as (s' & Hrun & Hs').
      exists s'. rewrite Hrun, advance_advance. cbn [length].
      split; [reflexivity | exact Hs'].
Qed.

(** X5. With a positive K-factor the randomization phase never raises:
    every index it computes, the wrapped [-1] included, addresses a bin of
    a non-empty frame. It returns a frame of the same length and draws one
    value per loop index that is not a selected position.  The frame length
    is taken to be a float64 number, which every length below [2^53] is. *)
Theorem apply_randomness_never_out_of_range
    (fft_data : list C) (k_factor : Q) (positions : list Z) (g : rng) :
  (0 < k_factor)%Q -> len fft_data < 2 ^ 53 ->
  exists fft_data',
    apply_randomness fft_data k_factor positions g
    = Return (fft_data',
              advance (length (unselected (usable_bins fft_data k_factor)
                                 positions)) g)
    /\ length fft_data' = length fft_data.
Proof.
  intros Hk Hrep. unfold apply_randomness, bind at 1, lift.
  rewrite floordiv_int_eval by (apply Qlt_not_0; exact Hk).
  fold (usable_bins fft_data k_factor). unfold unselected.
  apply (randomness_loop_returns fft_data k_factor positions
           (range1 (usable_bins fft_data k_factor)) Hk Hrep);
    [| reflexivity].
  intros i Hi. apply elem_of_range1. exact Hi.
Qed.

Lemma apply_randomness_never_out_of_range_witness :
  (0 < 3 # 2)%Q /\ len frame9 < 2 ^ 53 /\
  exists fft_data',
    apply_randomness frame9 (3 # 2) [2; 4] counting_tape
    = Return (fft_data',
              advance (length (unselected (usable_bins frame9 (3 # 2))
                                 [2; 4])) counting_tape)
    /\ length fft_data' = length frame9.
Proof.
  assert (Hk : (0 < 3 # 2)%Q) by reflexivity.
  assert (Hrep : len frame9 < 2 ^ 53) by reflexivity.
  split; [exact Hk |]. split; [exact Hrep |].
  exact (apply_randomness_never_out_of_range frame9 (3 # 2) [2; 4]
           counting_tape Hk Hrep).
Defined.

Lemma usable_bins_nonpositive fft_data k :
  (k < 0)%Q \/ (inject_Z (len fft_data) < k)%Q ->
  usable_bins fft_data k <= 0.
Proof.
  intros Hk. unfold usable_bins.
  assert (Hlen : (0 <= inject_Z (len fft_data))%Q).
  { change 0%Q with (inject_Z 0). rewrite <- Zle_Qle. unfold len. lia. }
  assert (Hlt : (inject_Z (len fft_data) / k < 1)%Q).
  { destruct Hk as [Hneg | Hbig].
    - assert (Hpos : (0 <= inject_Z (len fft_data) / - k)%Q).
      { apply Qle_shift_div_l; [lra |]. rewrite Qmult_0_l. exact Hlen. }
      assert (Heq : (inject_Z (len fft_data) / k
                     == - (inject_Z (len fft_data) / - k))%Q)
        by (field; intros E; rewrite E in Hneg; discriminate Hneg).
      lra.
    - apply Qlt_shift_div_r; lra. }
  pose proof (Qfloor_le (inject_Z (len fft_data) / k)) as Hfl.
  assert (Hz : usable_bins fft_data k < 1); [| unfold usable_bins in Hz; lia].
  unfold usable_bins. rewrite Zlt_Qlt. change (inject_Z 1) with 1%Q. lra.
Qed.

(** X6. The randomization phase does nothing when its loop is empty: for a
    negative K-factor, or one larger than the frame length, it returns the
    frame as it is and draws nothing. A zero K-factor raises
    ZeroDivisionError. *)
Theorem apply_randomness_empty_loop
    (fft_data : list C) (k_factor : Q) (positions : list Z) (g : rng) :
  ((k_factor < 0)%Q \/ (inject_Z (len fft_data) < k_factor)%Q ->
   apply_randomness fft_data k_factor positions g = Return (fft_data, g))
  /\ ((k_factor == 0)%Q ->
      apply_randomness fft_data k_factor positions g
      = Raise ZeroDivisionError).
Proof.
  split.
  - intros Hk.
    assert (Hnz : ~ (k_factor == 0)%Q).
    { intros E. rewrite E in Hk. destruct Hk as [Hk | Hk].
      - discriminate Hk.
      - assert (0 <= inject_Z (len fft_data))%Q; [| lra].
        change 0%Q with (inject_Z 0). rewrite <- Zle_Qle. unfold len. lia. }
    unfold apply_randomness, bind, lift.
    rewrite floordiv_int_eval by exact Hnz.
    fold (usable_bins fft_data k_factor).
    pose proof (usable_bins_nonpositive fft_data k_factor Hk).
    unfold range1. rewrite range3_empty by lia. reflexivity.
  - intros Hk. unfold apply_randomness, bind, lift, floordiv_int.
    rewrite (proj2 (Qeq_bool_iff k_factor 0) Hk). reflexivity.
Qed.

Lemma apply_randomness_empty_loop_witness :
  apply_randomness frame9 10 [] zero_tape = Return (frame9, zero_tape)
  /\ apply_randomness frame9 (- (2)) [] zero_tape = Return (frame9, zero_tape)
  /\ apply_randomness frame9 0 [] zero_tape = Raise ZeroDivisionError.
Proof.
  split; [| split].
  - apply (proj1 (apply_randomness_empty_loop frame9 10 [] zero_tape)).
    right. reflexivity.
  - apply (proj1 (apply_randomness_empty_loop frame9 (- (2)) [] zero_tape)).
    left. reflexivity.
  - apply (proj2 (apply_randomness_empty_loop frame9 0 [] zero_tape)).
    reflexivity.
Defined.

Lemma for_invariant_on {A S} (I : S -> Prop) (body : A -> S -> M S)
    (xs : list A) :
  (forall x, x ∈ xs -> forall s g s' g',
     I s -> body x s g = Return (s', g') -> I s') ->
  forall s g s' g', I s -> for_ xs body s g = Return (s', g') -> I s'.
Proof.
  induction xs as [| x xs IH]; intros Hbody s g s' g' Hs.
  - cbn. unfold ret. intros [= <- _]. exact Hs.
  - cbn [for_]. unfold bind.
    destruct (body x s g) as [e | [s1 g1]] eqn:E; [discriminate |].
    apply (IH (fun y Hy => Hbody y ltac:(right; exact Hy))).
    exact (Hbody x ltac:(left) s g s1 g1 Hs E).
Qed.

Lemma bin_of_zero k : bin_of k 0 = 0.
Proof. unfold bin_of. pose proof (py_int_zero_times k). lia. Qed.

(** ** More on the data phase *)

Lemma iadd_at_out_of_range fft_data i x :
  ~ (- len fft_data <= i < len fft_data) ->
  iadd_at fft_data i x = Raise IndexError.
Proof.
  intros Hi. unfold iadd_at, resolve_index, len in *.
  destruct (Z.leb_spec 0 i), (Z.ltb_spec i (Z.of_nat (length fft_data)));
    cbn [andb]; try lia.
  - destruct (Z.ltb_spec i 0); [lia | reflexivity].
  - destruct (Z.ltb_spec i 0), (Z.leb_spec (- Z.of_nat (length fft_data)) i);
      cbn [andb]; try lia; reflexivity.
Qed.

Lemma add_floats_return k (ws : list (Z * spec_float)) (n : nat) :
  Forall (fun w => - Z.of_nat n <= bin_of k (fst w) < Z.of_nat n) ws ->
  forall fft_data, length fft_data = n ->
    exists fft_data',
      ofor ws (add_float k) fft_data = Return fft_data'
      /\ length fft_data' = n.
Proof.
  induction ws as [| w ws IH]; intros Hall fft_data Hlen.
  - exists fft_data. split; [reflexivity | exact Hlen].
  - apply Forall_cons in Hall. destruct Hall as [Hw Hws].
    cbn [ofor]. unfold add_float at 1. fold (bin_of k (fst w)).
    destruct (iadd_at_in_range fft_data (bin_of k (fst w))
                (float_value (snd w))) as (f1 & -> & Hl1).
    { unfold len. rewrite Hlen. exact Hw. }
    apply (IH Hws f1). congruence.
Qed.

Lemma add_floats_raise k (ws : list (Z * spec_float)) (n : nat) :
  Exists (fun w => ~ (- Z.of_nat n <= bin_of k (fst w) < Z.of_nat n)) ws ->
  forall fft_data, length fft_data = n ->
    ofor ws (add_float k) fft_data = Raise IndexError.
Proof.
  induction ws as [| w ws IH]; intros Hex fft_data Hlen.
  - apply Exists_nil in Hex. contradiction.
  - cbn [ofor]. unfold add_float at 1. fold (bin_of k (fst w)).
    destruct (decide (- Z.of_nat n <= bin_of k (fst w) < Z.of_nat n))
      as [Hin | Hout].
    + destruct (iadd_at_in_range fft_data (bin_of k (fst w))
                  (float_value (snd w))) as (f1 & -> & Hl1).
      { unfold len. rewrite Hlen. exact Hin. }
      apply Exists_cons in Hex. destruct Hex as [Hw | Hws]; [contradiction |].
      apply (IH Hws f1). congruence.
    + rewrite iadd_at_out_of_range; [reflexivity |].
      unfold len. rewrite Hlen. exact Hout.
Qed.

(** X8. The data phase raises exactly when a position that gets a float
    has its bin index [int(pos * K)], the product taken in float64,
    outside [-len, len): if every used position
    addresses a bin it returns a frame of the same length, and otherwise
    it raises IndexError. Positions of rank at or above the float count
    are never looked at, whatever their value. *)
Theorem apply_data_raises_exactly
    (fft_data : list C) (k_factor : Q) (floats : list spec_float)
    (positions : list Z) :
  let in_range (w : Z * spec_float) :=
    - len fft_data <= bin_of k_factor (fst w) < len fft_data in
  (Forall in_range (zip positions floats) ->
   exists fft_data',
     apply_data fft_data k_factor floats positions = Return fft_data'
     /\ length fft_data' = length fft_data)
  /\ (Exists (fun w => ~ in_range w) (zip positions floats) ->
      apply_data fft_data k_factor floats positions = Raise IndexError).
Proof.
  intros in_range. rewrite apply_data_zip. split.
  - intros Hall.
    exact (add_floats_return k_factor _ (length fft_data) Hall fft_data
             eq_refl).
  - intros Hex.
    exact (add_floats_raise k_factor _ (length fft_data) Hex fft_data
             eq_refl).
Qed.

Lemma apply_data_raises_exactly_witness :
  (exists fft_data',
     apply_data silent4 1 [float_Hi; float_Hi] [0; 3; 4] = Return fft_data'
     /\ length fft_data' = length silent4)
  /\ apply_data silent4 1 [float_Hi; float_Hi] [0; 4] = Raise IndexError.
Proof.
  split.
  - apply (proj1 (apply_data_raises_exactly silent4 1 [float_Hi; float_Hi]
                    [0; 3; 4])).
    repeat constructor; vm_compute; discriminate.
  - apply (proj2 (apply_data_raises_exactly silent4 1 [float_Hi; float_Hi]
                    [0; 4])).
    apply Exists_cons_tl, Exists_cons_hd.
    vm_compute. intros [_ H]. discriminate H.
Defined.

Lemma add_floats_values k (ws : list (Z * spec_float)) :
  forall fft_data fft_data',
    ofor ws (add_float k) fft_data = Return fft_data' ->
    Forall (fun w => 0 <= bin_of k (fst w)) ws ->
    NoDup (map (fun w => bin_of k (fst w)) ws) ->
    forall w, w ∈ ws ->
      fft_data' !! Z.to_nat (bin_of k (fst w))
      = (fun b => cadd_real b (float_value (snd w)))
          <$> fft_data !! Z.to_nat (bin_of k (fst w)).
Proof.
  induction ws as [| w0 ws IH] using rev_ind;
    intros fft_data fft_data' Hrun Hnn Hnd w Hw.
  - apply elem_of_nil in Hw. contradiction.
  - rewrite ofor_app in Hrun.
    destruct (ofor ws (add_float k) fft_data) as [e | f1] eqn:E1;
      [discriminate |].
    destruct (add_floats_spec k ws fft_data f1 E1) as (Hlen & _ & Hsame & _).
    cbn [ofor] in Hrun.
    destruct (add_float k w0 f1) as [e | f2] eqn:E2; [discriminate |].
    injection Hrun as <-.
    unfold add_float in E2. fold (bin_of k (fst w0)) in E2.
    apply iadd_at_returns in E2. destruct E2 as (j & Hj & ->).
    rewrite Hlen in Hj.
    apply Forall_app in Hnn. destruct Hnn as [Hnn Hnn0].
    rewrite Forall_singleton in Hnn0.
    rewrite map_app in Hnd. apply NoDup_app in Hnd.
    destruct Hnd as (Hnd & Hdisj & _).
    pose proof (resolve_index_nonneg _ _ _ Hnn0 Hj) as Hj0.
    assert (Hfresh : forall w', w' ∈ ws ->
              Z.to_nat (bin_of k (fst w')) <> j).
    { intros w' Hw' Heq.
      apply (Hdisj (bin_of k (fst w'))).
      - change (bin_of k w'.1 ∈ (fun w => bin_of k w.1) <$> ws).
        apply list_elem_of_fmap. exists w'. split; [reflexivity | exact Hw'].
      - pose proof (proj1 (Forall_forall _ _) Hnn w' Hw') as Hw0.
        cbn beta in Hw0.
        assert (bin_of k (fst w') = bin_of k (fst w0)) as -> by lia.
        left. }
    apply elem_of_app in Hw. destruct Hw as [Hw | Hw].
    + rewrite list_lookup_alter_ne
        by (intros Heq; exact (Hfresh w Hw (eq_sym Heq))).
      exact (IH fft_data f1 E1 Hnn Hnd w Hw).
    + apply list_elem_of_singleton in Hw. subst w. rewrite <- Hj0.
      rewrite list_lookup_alter_eq. f_equal.
      apply Hsame. intros w' Hw' Hr.
      pose proof (proj1 (Forall_forall _ _) Hnn w' Hw') as Hw0.
      cbn beta in Hw0.
      pose proof (resolve_index_nonneg _ _ _ Hw0 Hr) as Hr0.
      exact (Hfresh w' Hw' (eq_sym Hr0)).
Qed.

(** X9. When the bins [int(p * K)] of the positions that get a float are
    non-negative and pairwise distinct, the data phase puts each float in a
    bin of its own: when it returns, the real part of the bin of the
    position of rank [r] is the float64 sum of its input value and the
    float of rank [r], its imaginary part is kept, and every bin that is
    not the bin of a used position is unchanged. *)
Theorem apply_data_places_each_float
    (fft_data : list C) (k_factor : Q) (floats : list spec_float)
    (positions : list Z) (fft_data' : list C) :
  Forall (fun p => 0 <= bin_of k_factor p) (take (length floats) positions) ->
  NoDup (map (bin_of k_factor) (take (length floats) positions)) ->
  apply_data fft_data k_factor floats positions = Return fft_data' ->
  (forall (r : nat) (p : Z) (x : spec_float),
     positions !! r = Some p -> floats !! r = Some x ->
     fft_data' !! Z.to_nat (bin_of k_factor p)
     = (fun b => (round64 (fst b + float_value x), snd b))
         <$> fft_data !! Z.to_nat (bin_of k_factor p))
  /\ (forall j : nat,
        (forall (r : nat) (p : Z),
           positions !! r = Some p -> (r < length floats)%nat ->
           Z.to_nat (bin_of k_factor p) <> j) ->
        fft_data' !! j = fft_data !! j).
Proof.
  intros Hpos Hnd Hrun. rewrite apply_data_zip in Hrun.
  assert (Hnn : Forall (fun w : Z * spec_float => 0 <= bin_of k_factor (fst w))
                  (zip positions floats)).
  { apply Forall_forall. intros [p x] Hw. cbn [fst].
    rewrite <- (zip_with_take_l pair positions floats) in Hw.
    apply elem_of_zip_l in Hw.
    exact (proj1 (Forall_forall _ _) Hpos p Hw). }
  assert (Hdist : NoDup (map (fun w : Z * spec_float => bin_of k_factor (fst w))
                           (zip positions floats))).
  { rewrite zip_positions_targets. exact Hnd. }
  split.
  - intros r p x Hp Hx.
    apply (add_floats_values k_factor _ _ _ Hrun Hnn Hdist (p, x)).
    apply list_elem_of_lookup. exists r.
    apply lookup_zip_with_Some. exists p, x. split; [reflexivity |].
    split; assumption.
  - intros j Hj.
    destruct (add_floats_spec k_factor _ _ _ Hrun) as (_ & _ & Hsame & _).
    apply Hsame. intros [p x] Hw Hr. cbn [fst] in Hr.
    apply list_elem_of_lookup in Hw. destruct Hw as [r Hr'].
    apply lookup_zip_with_Some in Hr'.
    destruct Hr' as (p' & x' & [= -> ->] & Hp' & Hx').
    pose proof (proj1 (Forall_forall _ _) Hnn (p', x')
                  ltac:(apply list_elem_of_lookup; exists r;
                        apply lookup_zip_with_Some; exists p', x';
                        split; [reflexivity | split; assumption])) as Hb.
    cbn [fst] in Hb.
    apply (Hj r p' Hp'); [apply lookup_lt_Some in Hx'; exact Hx' |].
    symmetry. exact (resolve_index_nonneg _ _ _ Hb Hr).
Qed.

Lemma apply_data_places_each_float_witness :
  exists fft_data',
    apply_data silent4 (3 # 2) [float_Hi; float_Hi] [0; 2] = Return fft_data'
    /\ fft_data' !! Z.to_nat (bin_of (3 # 2) 2)
       = (fun b => (round64 (fst b + float_value float_Hi), snd b))
           <$> silent4 !! Z.to_nat (bin_of (3 # 2) 2).
Proof.
  destruct (apply_data silent4 (3 # 2) [float_Hi; float_Hi] [0; 2])
    as [e | f'] eqn:E; [vm_compute in E; discriminate E |].
  exists f'. split; [reflexivity |].
  refine (proj1 (apply_data_places_each_float silent4 (3 # 2)
                   [float_Hi; float_Hi] [0; 2] f' _ _ E)
            1%nat 2 float_Hi eq_refl eq_refl).
  - repeat constructor; vm_compute; discriminate.
  - apply (bool_decide_unpack
             (NoDup (map (bin_of (3 # 2)) (take 2 [0; 2])))).
    vm_compute. exact I.
Defined.

(** ** More on the frame embedding *)

Lemma frame_positions_selected fft_data k g :
  (0 < k)%Q ->
  select_positions fft_data k 6 (advance 12 g)
  = Return (frame_positions fft_data k g, advance 18 g).
Proof.
  intros Hk.
  pose proof (select_positions_eval fft_data k 6 (advance 12 g) Hk) as Hsel.
  rewrite advance_advance in Hsel. exact Hsel.
Qed.

Lemma frame_positions_ok fft_data k g :
  (0 < k)%Q ->
  positions_ok (usable_bins fft_data k) (frame_positions fft_data k g)
  /\ (length (frame_positions fft_data k g) <= 6)%nat.
Proof.
  intros Hk. split.
  - exact (select_positions_ok _ _ _ _ _ _
             (frame_positions_selected fft_data k g Hk)).
  - unfold frame_positions.
    pose proof (foldl_keep_new_length
                  (drawn_positions (usable_bins fft_data k) (advance 12 g) 6)
                  []) as Hl.
    assert (Hd : length (drawn_positions (usable_bins fft_data k)
                           (advance 12 g) 6) = 6%nat)
      by (unfold drawn_positions; rewrite length_map, length_seq; reflexivity).
    rewrite Hd in Hl. cbn [length] in Hl. lia.
Qed.

Lemma chunk_float_positive B g j :
  byte_string B -> (0 < float_value (chunk_float B g j))%Q.
Proof.
  intros HB.
  pose proof (exponent_draw_range (draw g (2 * j))) as He.
  pose proof (random_7bits_draw_range (draw g (2 * j + 1))) as Hr.
  pose proof (nth_is_byte B (2 * j) HB) as H0.
  pose proof (nth_is_byte B (2 * j + 1) HB) as H1.
  unfold chunk_float.
  eapply Qlt_le_trans;
    [| apply float_value_synth_lower; (assumption || lia)].
  apply Qpower_0_lt. reflexivity.
Qed.

(** X10. When the K-factor exceeds the length of a non-empty frame, only
    position 0 can be selected: [process_fft] adds the float [v] of the
    first payload chunk, a positive number, to bin 0, whose real part
    becomes the float64 sum of its old value and [v], and changes nothing
    else. No jitter is added, the other five floats are dropped, and
    eighteen values are drawn. *)
Theorem process_fft_beyond_frame
    (fft_data : list C) (k_factor : Q) (g : rng) :
  fft_data <> [] -> (inject_Z (len fft_data) < k_factor)%Q ->
  let v := float_value (chunk_float hello_world g 0) in
  (0 < v)%Q
  /\ exists fft_data' re im,
       process_fft fft_data k_factor g = Return (fft_data', advance 18 g)
       /\ length fft_data' = length fft_data
       /\ fft_data !! 0%nat = Some (re, im)
       /\ fft_data' !! 0%nat = Some (round64 (re + v), im)
       /\ forall j, j <> 0%nat -> fft_data' !! j = fft_data !! j.
Proof.
  intros Hne Hbig v.
  split; [apply chunk_float_positive, hello_world_bytes |].
  assert (Hlen : (0 < length fft_data)%nat)
    by (destruct fft_data; [congruence | cbn [length]; lia]).
  assert (Hk : (0 < k_factor)%Q).
  { assert (0 <= inject_Z (len fft_data))%Q; [| lra].
    change 0%Q with (inject_Z 0). rewrite <- Zle_Qle. unfold len. lia. }
  assert (Hu : usable_bins fft_data k_factor = 0).
  { pose proof (usable_bins_nonneg fft_data k_factor Hk).
    pose proof (usable_bins_nonpositive fft_data k_factor (or_intror Hbig)).
    lia. }
  assert (Hpos : frame_positions fft_data k_factor g = [0]).
  { unfold frame_positions, drawn_positions. rewrite Hu.
    rewrite (map_ext _ (fun _ => 0)); [vm_compute; reflexivity |].
    intros i. unfold position_draw. rewrite Z.mod_1_r. reflexivity. }
  assert (Hrun : process_fft fft_data k_factor g
                 = Return (alter (fun b => cadd_real b v) 0%nat fft_data,
                           advance 18 g)).
  { rewrite process_fft_eval. unfold bind at 1.
    rewrite (frame_positions_selected fft_data k_factor g Hk), Hpos.
    unfold bind at 1, apply_randomness, bind at 1, lift.
    rewrite floordiv_int_eval by (apply Qlt_not_0; exact Hk).
    fold (usable_bins fft_data k_factor). rewrite Hu.
    unfold range1. rewrite range3_empty by lia. cbn [for_]. unfold ret.
    unfold bind. rewrite apply_data_zip.
    cbn [seq map zip_with ofor]. unfold add_float, iadd_at. cbn [fst snd].
    fold (bin_of k_factor 0). rewrite bin_of_zero.
    rewrite resolve_index_in_range by lia. reflexivity. }
  destruct fft_data as [| [re im] rest]; [congruence |].
  exists (alter (fun b => cadd_real b v) 0%nat ((re, im) :: rest)), re, im.
  split; [exact Hrun |]. split; [apply length_alter |].
  split; [reflexivity |]. split; [reflexivity |].
  intros j Hj. apply list_lookup_alter_ne. congruence.
Qed.

Lemma process_fft_beyond_frame_witness :
  silent4 <> [] /\ (inject_Z (len silent4) < 5)%Q /\
  (let v := float_value (chunk_float hello_world counting_tape 0) in
   (0 < v)%Q
   /\ exists fft_data' re im,
        process_fft silent4 5 counting_tape
        = Return (fft_data', advance 18 counting_tape)
        /\ length fft_data' = length silent4
        /\ silent4 !! 0%nat = Some (re, im)
        /\ fft_data' !! 0%nat = Some (round64 (re + v), im)
        /\ forall j, j <> 0%nat -> fft_data' !! j = silent4 !! j).
Proof.
  assert (H1 : silent4 <> []) by discriminate.
  assert (H2 : (inject_Z (len silent4) < 5)%Q) by reflexivity.
  split; [exact H1 |]. split; [exact H2 |].
  exact (process_fft_beyond_frame silent4 5 counting_tape H1 H2).
Defined.

(** X11. For a positive K-factor and a frame whose length is a float64
    number, [process_fft] raises exactly when one of the positions it
    selected has its bin index [int(p * K)], the product taken in float64,
    at or past the end of the frame, and then it raises IndexError.
    Otherwise it returns a frame of the same length, having drawn twelve
    values for the floats, six for the positions and one per loop index
    left unselected. *)
Theorem process_fft_raises_exactly
    (fft_data : list C) (k_factor : Q) (g : rng) :
  (0 < k_factor)%Q -> len fft_data < 2 ^ 53 ->
  let positions := frame_positions fft_data k_factor g in
  (Forall (fun p => bin_of k_factor p < len fft_data) positions ->
   exists fft_data',
     process_fft fft_data k_factor g
     = Return (fft_data',
               advance (18 + length (unselected
                                       (usable_bins fft_data k_factor)
                                       positions)) g)
     /\ length fft_data' = length fft_data)
  /\ (Exists (fun p => len fft_data <= bin_of k_factor p) positions ->
      process_fft fft_data k_factor g = Raise IndexError).
Proof.
  intros Hk Hrep positions.
  destruct (frame_positions_ok fft_data k_factor g Hk) as [[Hr _] Hsix].
  fold positions in Hr, Hsix.
  set (floats := map (chunk_float hello_world g) (seq 0 6)).
  assert (Hfl : length floats = 6%nat) by reflexivity.
  assert (Hfst : (zip positions floats).*1 = positions)
    by (apply fst_zip; lia).
  destruct (randomness_loop_returns fft_data k_factor positions
              (range1 (usable_bins fft_data k_factor)) Hk Hrep
              (fun i Hi => elem_of_range1 i _ Hi) fft_data (advance 18 g)
              eq_refl) as (masked & Hmask & Hlen).
  fold (unselected (usable_bins fft_data k_factor) positions) in Hmask.
  assert (Hrun : process_fft fft_data k_factor g
                 = match apply_data masked k_factor floats positions with
                   | Raise e => Raise e
                   | Return embedded =>
                       Return (embedded,
                               advance
                                 (18 + length (unselected
                                                 (usable_bins fft_data k_factor)
                                                 positions)) g)
                   end).
  { rewrite process_fft_eval. unfold bind at 1.
    rewrite (frame_positions_selected fft_data k_factor g Hk).
    fold positions.
    unfold bind at 1, apply_randomness, bind at 1, lift.
    rewrite floordiv_int_eval by (apply Qlt_not_0; exact Hk).
    fold (usable_bins fft_data k_factor). rewrite Hmask.
    unfold bind, ret. fold floats.
    rewrite advance_advance.
    destruct (apply_data masked k_factor floats positions); reflexivity. }
  rewrite Hrun, apply_data_zip. split.
  - intros Hall.
    destruct (add_floats_return k_factor (zip positions floats)
                (length fft_data)) with (fft_data := masked)
      as (embedded & -> & Hle); [| exact Hlen |].
    + apply Forall_forall. intros [p x] Hw. cbn [fst].
      apply elem_of_zip_l in Hw.
      pose proof (proj1 (Forall_forall _ _) Hall p Hw) as Hp.
      pose proof (proj1 (Forall_forall _ _) Hr p Hw) as Hp0.
      cbn beta in Hp, Hp0.
      pose proof (bin_of_nonneg k_factor p ltac:(lia) ltac:(lra)).
      unfold len in *. lia.
    + exists embedded. split; [reflexivity | exact Hle].
  - intros Hex.
    rewrite (add_floats_raise k_factor (zip positions floats)
               (length fft_data)); [reflexivity | | exact Hlen].
    apply Exists_exists in Hex. destruct Hex as (p & Hp & Hbig).
    rewrite <- Hfst in Hp. apply list_elem_of_fmap in Hp.
    destruct Hp as (w & -> & Hw).
    apply Exists_exists. exists w. split; [exact Hw |].
    unfold len in *. lia.
Qed.

Lemma process_fft_raises_exactly_witness :
  (0 < 2)%Q /\ len frame9 < 2 ^ 53 /\
  (exists fft_data',
     process_fft frame9 2 zero_tape
     = Return (fft_data',
               advance (18 + length (unselected (usable_bins frame9 2)
                                       (frame_positions frame9 2 zero_tape)))
                 zero_tape)
     /\ length fft_data' = length frame9).
Proof.
  assert (Hk : (0 < 2)%Q) by reflexivity.
  assert (Hrep : len frame9 < 2 ^ 53) by reflexivity.
  split; [exact Hk |]. split; [exact Hrep |].
  apply (proj1 (process_fft_raises_exactly frame9 2 zero_tape Hk Hrep)).
  apply (bool_decide_unpack
           (Forall (fun p => bin_of 2 p < len frame9)
              (frame_positions frame9 2 zero_tape))).
  vm_compute. exact I.
Defined.

(** ** More on the Overlap-Add Engine *)

Section EngineEdges.

Variable hanning : nat -> list Q.
Variable rfft : list Q -> outcome (list C).
Variable irfft : list C -> outcome (list Q).

(** A signal of at most one frame gives no frame start. *)
Lemma overlap_add_no_frame audio fft_size hop_size k g :
  (length audio <= fft_size)%nat -> (0 < hop_size)%nat ->
  overlap_add_process hanning rfft irfft audio fft_size hop_size k g
  = Return (replicate (length audio) (Fin 0%Q), g).
Proof.
  intros Hshort Hhop. unfold overlap_add_process.
  destruct (Nat.eqb_spec hop_size 0) as [? | _]; [lia |].
  unfold frame_starts. rewrite range3_empty by (unfold len; lia).
  cbn [for_]. unfold bind, ret.
  rewrite broadcast_same_length by (rewrite length_map; reflexivity).
  unfold lift. do 2 f_equal.
  rewrite slice_nonneg by (unfold len; lia).
  unfold len. rewrite Nat2Z.id. change (Z.to_nat 0) with 0%nat.
  cbn [drop]. rewrite Nat.sub_0_r. apply normalised_zeros.
Qed.

(** X12. Two edges of the engine. A hop of zero raises ValueError, on
    every signal. A signal exactly one frame long is not processed at all:
    the loop stops before a start offset with [start + fft_size =
    len(audio)], so the engine returns as many zeros as the signal has
    samples and draws nothing. *)
Theorem overlap_add_edges
    (audio : list Q) (fft_size hop_size : nat) (k_factor : Q) (g : rng) :
  (hop_size = 0%nat ->
   overlap_add_process hanning rfft irfft audio fft_size hop_size k_factor g
   = Raise ValueError)
  /\ ((0 < hop_size)%nat -> length audio = fft_size ->
      overlap_add_process hanning rfft irfft audio fft_size hop_size
        k_factor g
      = Return (replicate (length audio) (Fin 0%Q), g)).
Proof.
  split.
  - intros ->. reflexivity.
  - intros Hhop Hlen. apply overlap_add_no_frame; lia.
Qed.

(** X13. The frames of the engine start at the multiples of the hop that
    are strictly below [len(audio) - fft_size], and only there: every
    frame ends strictly before the end of the signal, and there are
    [ceil((len(audio) - fft_size) / hop_size)] of them. *)
Theorem frame_starts_exactly
    (audio : list Q) (fft_size hop_size : nat) (s : Z) :
  (0 < hop_size)%nat ->
  (s ∈ frame_starts audio fft_size hop_size
   <-> (exists j : nat, s = Z.of_nat j * Z.of_nat hop_size)
       /\ 0 <= s /\ s + Z.of_nat fft_size < len audio)
  /\ length (frame_starts audio fft_size hop_size)
     = Z.to_nat ((len audio - Z.of_nat fft_size + Z.of_nat hop_size - 1)
                 / Z.of_nat hop_size).
Proof.
  intros Hhop. unfold frame_starts.
  rewrite range3_unfold by lia.
  set (h := Z.of_nat hop_size). set (d := len audio - Z.of_nat fft_size).
  assert (Hh : 0 < h) by (unfold h; lia).
  replace (d - 0 + h - 1) with (d + h - 1) by lia.
  split; [| rewrite length_map, length_seq; reflexivity].
  change (s ∈ (fun j => 0 + Z.of_nat j * h) <$> seq 0 (Z.to_nat ((d + h - 1) / h))
          <-> (exists j : nat, s = Z.of_nat j * h)
              /\ 0 <= s /\ s + Z.of_nat fft_size < len audio).
  pose proof (Z.mul_div_le (d + h - 1) h Hh) as Hdown.
  pose proof (Z.mul_succ_div_gt (d + h - 1) h Hh) as Hup.
  set (q := (d + h - 1) / h) in *.
  split.
  - intros Hs. apply list_elem_of_fmap in Hs. destruct Hs as (j & -> & Hj).
    apply elem_of_seq in Hj.
    split; [exists j; lia |].
    assert (Z.of_nat j + 1 <= q) by lia.
    assert ((Z.of_nat j + 1) * h <= q * h) by nia.
    unfold d in *. nia.
  - intros [[j ->] [H0 Hlt]].
    apply list_elem_of_fmap. exists j. split; [lia |].
    apply elem_of_seq.
    assert (Z.of_nat j < q); [| lia].
    assert (Z.of_nat j * h < d) by (unfold d; lia).
    destruct (Z.lt_ge_cases (Z.of_nat j) q) as [? | Hge]; [assumption |].
    assert (q * h <= Z.of_nat j * h) by nia.
    nia.
Qed.

Lemma frame_starts_exactly_witness :
  (0 < 2)%nat /\
  (2 ∈ frame_starts (ones 7) 4 2
   <-> (exists j : nat, 2 = Z.of_nat j * Z.of_nat 2)
       /\ 0 <= 2 /\ 2 + Z.of_nat 4 < len (ones 7))
  /\ length (frame_starts (ones 7) 4 2)
     = Z.to_nat ((len (ones 7) - Z.of_nat 4 + Z.of_nat 2 - 1) / Z.of_nat 2).
Proof.
  assert (Hhop : (0 < 2)%nat) by lia.
  split; [exact Hhop |].
  exact (frame_starts_exactly (ones 7) 4 2 2 Hhop).
Defined.

End EngineEdges.

Lemma overlap_add_edges_witness :
  overlap_add_process toy_hanning toy_rfft toy_irfft (ones 4) 4 0 (5 # 2)
    zero_tape
  = Raise ValueError
  /\ overlap_add_process toy_hanning toy_rfft toy_irfft (ones 4) 4 2 (5 # 2)
       zero_tape
     = Return (replicate (length (ones 4)) (Fin 0%Q), zero_tape).
Proof.
  split.
  - apply (proj1 (overlap_add_edges toy_hanning toy_rfft toy_irfft (ones 4)
                    4 0 (5 # 2) zero_tape)).
    reflexivity.
  - apply (proj2 (overlap_add_edges toy_hanning toy_rfft toy_irfft (ones 4)
                    4 2 (5 # 2) zero_tape)); [lia | reflexivity].
Defined.

(** *** Samples no frame covers *)

Lemma slice_iadd_outside target lo hi v target' (i : nat) :
  0 <= lo <= hi ->
  slice_iadd target lo hi v = Return target' ->
  ~ (lo <= Z.of_nat i < hi) ->
  target' !! i = target !! i.
Proof.
  intros Hb Hrun Hi. unfold slice_iadd in Hrun.
  set (a := Z.to_nat (clip (len target) lo)) in *.
  set (n := Z.to_nat (clip (len target) hi - clip (len target) lo)) in *.
  assert (Hcl : (i < a \/ a + n <= i)%nat /\ (a + n <= length target)%nat).
  { unfold a, n, clip, len.
    destruct (Z.ltb_spec lo 0), (Z.ltb_spec hi 0); lia. }
  destruct Hcl as [Hout Han].
  assert (Hmid : forall mid : list Q, length mid = n ->
            (take a target ++ mid ++ drop (a + n) target) !! i = target !! i).
  { intros mid Hmid. destruct Hout as [Hlt | Hge].
    - rewrite lookup_app_l by (rewrite length_take; lia).
      apply lookup_take_lt. exact Hlt.
    - rewrite lookup_app_r by (rewrite length_take; lia).
      rewrite lookup_app_r by (rewrite length_take, Hmid; lia).
      rewrite lookup_drop, length_take, Hmid. f_equal. lia. }
  destruct (decide (length v = n)) as [Hv | Hv].
  - injection Hrun as <-. apply Hmid.
    rewrite length_zip_with, length_take, length_drop. lia.
  - destruct (decide (length v = 1%nat)); [| discriminate].
    injection Hrun as <-. apply Hmid.
    rewrite length_map, length_take, length_drop. lia.
Qed.

Section Coverage.

Variable hanning : nat -> list Q.
Variable rfft : list Q -> outcome (list C).
Variable irfft : list C -> outcome (list Q).

Lemma frame_step_outside audio window fft_size k start output norm g
    output' norm' g' (i : nat) :
  0 <= start ->
  frame_step rfft irfft audio window fft_size k start (output, norm) g
  = Return ((output', norm'), g') ->
  ~ (start <= Z.of_nat i < start + Z.of_nat fft_size) ->
  output' !! i = output !! i /\ norm' !! i = norm !! i.
Proof.
  intros Hs Hrun Hi. unfold frame_step, bind, lift in Hrun.
  destruct (broadcast fmul _ window) as [e | segment]; [discriminate |].
  destruct (rfft segment) as [e | X]; [discriminate |].
  destruct (process_fft X k g) as [e | [X' g1]]; [discriminate |].
  destruct (irfft X') as [e | processed]; [discriminate |].
  destruct (broadcast fmul processed window) as [e | weighted];
    [discriminate |].
  destruct (slice_iadd output _ _ weighted) as [e | o1] eqn:Eo;
    [discriminate |].
  destruct (slice_iadd norm _ _ _) as [e | n1] eqn:En; [discriminate |].
  unfold ret in Hrun. injection Hrun as <- <- _.
  split; eapply slice_iadd_outside; try eassumption; lia.
Qed.

(** X14. Samples that no frame covers come out as exact zeros: both
    accumulators are still zero there and [0 / max(0, 1e-8)] is 0, where
    without the floor the quotient would be NaN. The last sample of a
    non-empty signal is never covered, so the engine always returns 0 for
    it. *)
Theorem overlap_add_uncovered_is_zero
    (audio : list Q) (fft_size hop_size : nat) (k_factor : Q) (g : rng)
    (output : list xq) (g' : rng) :
  overlap_add_process hanning rfft irfft audio fft_size hop_size k_factor g
  = Return (output, g') ->
  (forall i : nat,
     (i < length audio)%nat ->
     ~ covered (frame_starts audio fft_size hop_size) fft_size i ->
     output !! i = Some (Fin 0%Q))
  /\ (audio <> [] -> output !! (length audio - 1)%nat = Some (Fin 0%Q)).
Proof.
  intros Hrun.
  assert (Hun : forall i : nat,
            (i < length audio)%nat ->
            ~ covered (frame_starts audio fft_size hop_size) fft_size i ->
            output !! i = Some (Fin 0%Q)).
  { intros i Hi Hcov. revert Hrun. unfold overlap_add_process.
    destruct (Nat.eqb_spec hop_size 0) as [? | Hhop]; [discriminate |].
    unfold bind.
    destruct (for_ _ _ _ g) as [e | [[o n] g1]] eqn:Eloop; [discriminate |].
    assert (Hinv : (length o = (length audio + fft_size)%nat
                    /\ length n = (length audio + fft_size)%nat)
                   /\ o !! i = Some 0%Q /\ n !! i = Some 0%Q).
    { revert Eloop.
      apply (for_invariant_on
               (fun acc : list Q * list Q =>
                  (length (fst acc) = (length audio + fft_size)%nat
                   /\ length (snd acc) = (length audio + fft_size)%nat)
                  /\ fst acc !! i = Some 0%Q /\ snd acc !! i = Some 0%Q)
               (frame_step rfft irfft audio (hanning fft_size) fft_size
                  k_factor)
               (frame_starts audio fft_size hop_size)).
      - intros start Hin [o0 n0] g0 [o1 n1] g2 [[Hlo Hln] [Ho Hn]] Hstep.
        cbn [fst snd] in *.
        pose proof Hstep as Hshape. apply frame_step_lengths in Hshape.
        destruct Hshape as [Hlo1 Hln1].
        assert (Hstart : 0 <= start).
        { unfold frame_starts in Hin.
          apply elem_of_range3 in Hin; lia. }
        destruct (frame_step_outside _ _ _ _ _ _ _ _ _ _ _ i Hstart Hstep)
          as [Ho1 Hn1].
        { intros Hc. apply Hcov. exists start. split; assumption. }
        split; [split; congruence | split; congruence].
      - cbn [fst snd]. rewrite length_replicate.
        split; [split; reflexivity |].
        split; apply lookup_replicate_2; lia. }
    destruct Hinv as [[Hlo Hln] [Ho Hn]].
    rewrite broadcast_same_length by (rewrite length_map; lia).
    unfold lift, ret. intros [= <- _].
    rewrite slice_nonneg by (unfold len; lia).
    unfold len. rewrite Nat2Z.id. change (Z.to_nat 0) with 0%nat.
    cbn [drop]. rewrite Nat.sub_0_r.
    rewrite lookup_take_lt by exact Hi.
    apply lookup_zip_with_Some. exists 0%Q, (floor_eps 0).
    split; [symmetry; exact zero_over_floor |]. split; [exact Ho |].
    change (map floor_eps n) with (floor_eps <$> n).
    rewrite list_lookup_fmap, Hn. reflexivity. }
  split; [exact Hun |].
  intros Hne.
  assert (Hlen : (0 < length audio)%nat)
    by (destruct audio; [congruence | cbn [length]; lia]).
  apply Hun; [lia |].
  intros (s & Hs & Hc).
  destruct (Nat.eq_dec hop_size 0%nat) as [Hz | Hnz].
  - unfold frame_starts, range3 in Hs. rewrite Hz in Hs. cbn in Hs.
    apply elem_of_nil in Hs. exact Hs.
  - unfold frame_starts in Hs. apply elem_of_range3 in Hs; [| lia].
    unfold len in Hs. lia.
Qed.

End Coverage.

Lemma overlap_add_uncovered_is_zero_witness :
  exists output g',
    overlap_add_process toy_hanning toy_rfft toy_irfft (ones 7) 4 2 (5 # 2)
      zero_tape
    = Return (output, g')
    /\ output !! (length (ones 7) - 1)%nat = Some (Fin 0%Q).
Proof.
  destruct (overlap_add_process toy_hanning toy_rfft toy_irfft (ones 7) 4 2
              (5 # 2) zero_tape) as [e | [output g']] eqn:E;
    [vm_compute in E; discriminate E |].
  exists output, g'. split; [reflexivity |].
  apply (proj2 (overlap_add_uncovered_is_zero toy_hanning toy_rfft toy_irfft
                  (ones 7) 4 2 (5 # 2) zero_tape output g' E)).
  discriminate.
Defined.

(** ** The channel driver *)

Lemma np_clip_range lo hi x :
  (lo <= hi)%Q -> x <> NaN -> sample_in_range lo hi (np_clip lo hi x).
Proof.
  intros Hb Hx. destruct x as [q | | |]; cbn [np_clip sample_in_range];
    [| split; [exact Hb | apply Qle_refl]
     | split; [apply Qle_refl | exact Hb]
     | congruence].
  destruct (Qle_bool q lo) eqn:E1.
  - destruct (Qle_bool hi lo) eqn:E2.
    + apply Qle_bool_iff in E2. split; [exact Hb | apply Qle_refl].
    + split; [apply Qle_refl | exact Hb].
  - assert (Hq : (lo < q)%Q).
    { apply Qnot_le_lt. intros H. apply Qle_bool_iff in H. congruence. }
    destruct (Qle_bool hi q) eqn:E2.
    + split; [exact Hb | apply Qle_refl].
    + split; [apply Qlt_le_weak, Hq |].
      apply Qlt_le_weak, Qnot_le_lt. intros H.
      apply Qle_bool_iff in H. congruence.
Qed.

(** The quotients by a floored weight are numbers. *)
Lemma floored_quotients_finite (acc_out acc_norm : list Q) :
  Forall (fun x => x <> NaN)
    (zip_with np_true_divide acc_out (map floor_eps acc_norm)).
Proof.
  revert acc_norm. induction acc_out as [| a acc_out IH];
    intros [| n acc_norm]; cbn [map zip_with]; try constructor.
  - rewrite np_true_divide_floor. discriminate.
  - apply IH.
Qed.

Section DriverFacts.

Variable hanning : nat -> list Q.
Variable rfft : list Q -> outcome (list C).
Variable irfft : list C -> outcome (list Q).

Lemma overlap_add_returned_length audio fft_size hop_size k g output g' :
  overlap_add_process hanning rfft irfft audio fft_size hop_size k g
  = Return (output, g') ->
  length output = length audio.
Proof.
  intros Hrun.
  destruct (overlap_add_result _ _ _ _ _ _ _ _ _ _ Hrun)
    as (acc_out & acc_norm & Hout & Hnorm & ->).
  rewrite length_slice_nonneg by (unfold len; lia).
  rewrite length_zip_with, length_map, Hout, Hnorm.
  unfold len. rewrite Nat2Z.id. change (Z.to_nat 0) with 0%nat. lia.
Qed.

(** The engine never returns NaN: every sample is a quotient by a floored
    weight. *)
Lemma overlap_add_returned_numbers audio fft_size hop_size k g output g' :
  overlap_add_process hanning rfft irfft audio fft_size hop_size k g
  = Return (output, g') ->
  Forall (fun x => x <> NaN) output.
Proof.
  intros Hrun.
  destruct (overlap_add_result _ _ _ _ _ _ _ _ _ _ Hrun)
    as (acc_out & acc_norm & _ & _ & ->).
  unfold slice. apply Forall_take, Forall_drop, floored_quotients_finite.
Qed.

(** X15. Whatever [wav.read] delivered, the array [main] hands to
    [wav.write] has one row per input row, and each of its samples is a
    number that lies in [-1, 1]. *)
Theorem main_output_rows_and_range
    (sample_rate dtype_max : Z) (audio : list (Z * Z)) (g : rng)
    (output : list (xq * xq)) (g' : rng) :
  main hanning rfft irfft sample_rate dtype_max audio g
  = Return (output, g') ->
  length output = length audio
  /\ Forall (fun row => sample_in_range (-1) 1 (fst row)
                        /\ sample_in_range (-1) 1 (snd row)) output.
Proof.
  unfold main, bind, lift.
  destruct (true_div _ sample_rate) as [e | k]; [discriminate |].
  destruct (overlap_add_process _ _ _ (map fst _) _ _ k g)
    as [e | [left g1]] eqn:El; [discriminate |].
  destruct (overlap_add_process _ _ _ (map snd _) _ _ k g1)
    as [e | [right g2]] eqn:Er; [discriminate |].
  pose proof (overlap_add_returned_numbers _ _ _ _ _ _ _ El) as Nl.
  pose proof (overlap_add_returned_numbers _ _ _ _ _ _ _ Er) as Nr.
  apply overlap_add_returned_length in El, Er.
  unfold normalize in El, Er. rewrite !length_map in El, Er.
  unfold column_stack.
  destruct (decide (length left = length right)) as [_ | Hne];
    [| congruence].
  unfold ret. intros [= <- _]. split.
  - rewrite length_map, length_zip_with. lia.
  - apply Forall_map, Forall_forall. intros [a b] Hrow. cbn [fst snd].
    pose proof (elem_of_zip_l _ _ _ _ Hrow) as Ha.
    pose proof (elem_of_zip_r _ _ _ _ Hrow) as Hb.
    split; (apply np_clip_range; [discriminate |]).
    + exact (proj1 (Forall_forall _ _) Nl a Ha).
    + exact (proj1 (Forall_forall _ _) Nr b Hb).
Qed.

(** X16. Two edges of [main]. A sample rate of zero raises
    ZeroDivisionError when the K-factor is computed, before any
    processing. With any other sample rate, a recording of at most
    [FFT_SIZE] = 1024 rows comes out as silence: one row of two zeros per
    input row, and nothing is drawn from the generator. *)
Theorem main_edges
    (sample_rate dtype_max : Z) (audio : list (Z * Z)) (g : rng) :
  (sample_rate = 0 ->
   main hanning rfft irfft sample_rate dtype_max audio g
   = Raise ZeroDivisionError)
  /\ (sample_rate <> 0 -> (length audio <= 1024)%nat ->
      main hanning rfft irfft sample_rate dtype_max audio g
      = Return (replicate (length audio) (Fin 0%Q, Fin 0%Q), g)).
Proof.
  split.
  - intros ->. reflexivity.
  - intros Hsr Hshort. unfold main, bind at 1, lift, true_div.
    destruct (Z.eqb_spec sample_rate 0) as [? | _]; [contradiction |].
    assert (Hhop : (0 < HOP_SIZE)%nat) by (vm_compute; lia).
    unfold bind at 1.
    rewrite (overlap_add_no_frame hanning rfft irfft)
      by (rewrite ?length_map; unfold normalize; rewrite ?length_map;
          solve [exact Hshort | exact Hhop]).
    unfold bind at 1.
    rewrite (overlap_add_no_frame hanning rfft irfft)
      by (rewrite ?length_map; unfold normalize; rewrite ?length_map;
          solve [exact Hshort | exact Hhop]).
    unfold normalize. rewrite !length_map.
    unfold bind, column_stack.
    destruct (decide (length (replicate (length audio) (Fin 0%Q))
                      = length (replicate (length audio) (Fin 0%Q))))
      as [_ | Hne]; [| congruence].
    unfold ret. do 2 f_equal.
    generalize (length audio) as n. clear.
    induction n as [| n IH]; [reflexivity |].
    cbn [replicate zip_with map]. f_equal. exact IH.
Qed.

End DriverFacts.





Lemma main_edges_witness :
  main toy_hanning toy_rfft toy_irfft 0 32767 [(1, 2)] zero_tape
  = Raise ZeroDivisionError
  /\ main toy_hanning toy_rfft toy_irfft 44100 32767 [(1, 2); (-3, 4)]
       zero_tape
     = Return (replicate (length [(1, 2); (-3, 4)]) (Fin 0%Q, Fin 0%Q),
               zero_tape).
Proof.
  split.
  - apply (proj1 (main_edges toy_hanning toy_rfft toy_irfft 0 32767 [(1, 2)]
                    zero_tape)).
    reflexivity.
  - apply (proj2 (main_edges toy_hanning toy_rfft toy_irfft 44100 32767
                    [(1, 2); (-3, 4)] zero_tape)); [lia | cbn; lia].
Defined.

Lemma main_output_rows_and_range_witness :
  exists output g',
    main toy_hanning toy_rfft toy_irfft 5 32767
      (replicate 1026 (16384, -32768)) zero_tape
    = Return (output, g')
    /\ length output = length (replicate 1026 (16384, -32768))
    /\ Forall (fun row => sample_in_range (-1) 1 (fst row)
                          /\ sample_in_range (-1) 1 (snd row)) output.
Proof.
  destruct (main toy_hanning toy_rfft toy_irfft 5 32767
              (replicate 1026 (16384, -32768)) zero_tape)
    as [e | [output g']] eqn:E; [vm_compute in E; discriminate E |].
  exists output, g'. split; [reflexivity |].
  exact (main_output_rows_and_range toy_hanning toy_rfft toy_irfft 5 32767
           (replicate 1026 (16384, -32768)) zero_tape output g' E).
Defined.
